(** * A shallow embedding of [scripts/gen.py]

    The generator reads C-like function signatures, parses them with a
    LALR grammar into trees whose leaves carry source columns, derives several
    textual projections of each signature by replaying source spans, synthesises
    wrapper bodies and finally builds the registration tables.

    Python strings are lists of characters, Python integers are [Z], an
    exception is [None], and the mutable emitter object is an explicit state
    record that every operation returns. *)

From Stdlib Require Import List ZArith Lia Bool Ascii String DecimalString.
Import ListNotations.

Local Open Scope Z_scope.

(** ** Strings *)

Definition str := list ascii.

Definition s (x : string) : str := list_ascii_of_string x.

Definition len (x : str) : Z := Z.of_nat (List.length x).

Fixpoint str_eqb (a b : str) : bool :=
  match a, b with
  | [], [] => true
  | x :: a', y :: b' => Ascii.eqb x y && str_eqb a' b'
  | _, _ => false
  end.

(** [l[a:b]] for indices that are not negative. *)
Definition slice (l : str) (a b : Z) : str :=
  firstn (Z.to_nat (b - a)) (skipn (Z.to_nat a) l).

(** [x in l] for a list or a set of strings. *)
Definition mem (x : str) (l : list str) : bool := existsb (str_eqb x) l.

(** [sep.join(l)] *)
Fixpoint join (sep : str) (l : list str) : str :=
  match l with
  | [] => []
  | [x] => x
  | x :: r => x ++ sep ++ join sep r
  end.

(** [l[n]], raising out of range (for an index that is not negative). *)
Definition index {A} (l : list A) (n : nat) : option A := nth_error l n.

(** ** Parse trees (lark's [Token] and [Tree]) *)

Record Token := mkToken {
  ttype : str;
  value : str;
  column : Z;
  end_column : Z
}.

#[warnings="-register-all"]
Inductive Tree :=
| Tok (t : Token)
| Node (data : str) (children : list Tree).

(** [l[-1]], raising on the empty list. *)
Definition last_child (l : list Tree) : option Tree :=
  match l with
  | [] => None
  | _ => Some (last l (Node [] []))
  end.

Fixpoint first_match (t : Tree) : option Z :=
  match t with
  | Tok k => Some (column k - 1)
  | Node _ cs =>
      match cs with
      | [] => None
      | c :: _ => first_match c
      end
  end.

Fixpoint last_match (t : Tree) : option Z :=
  match t with
  | Tok k => Some (end_column k - 1)
  | Node _ cs =>
      (fix go (l : list Tree) : option Z :=
         match l with
         | [] => None
         | [c] => last_match c
         | _ :: r => go r
         end) cs
  end.

(** ** The span emitter ([StringEmit]) *)

Record StringEmit := mkEmit {
  sref : str;
  sval : str;
  pos : Z
}.

Definition new_emit (orig : str) : StringEmit :=
  {| sref := orig; sval := []; pos := -1 |}.

Definition advance (e : StringEmit) (t : Token) : StringEmit :=
  let start := column t - 1 in
  let end_ := end_column t - 1 in
  let p := if 0 <=? pos e then pos e else start in
  let sv := if p <? start then sval e ++ slice (sref e) p start else sval e in
  {| sref := sref e; sval := sv ++ value t; pos := end_ |}.

Definition skip (e : StringEmit) (t : Tree) : option StringEmit :=
  if 0 <=? pos e then
    match last_match t with
    | Some p => Some {| sref := sref e; sval := sval e; pos := p |}
    | None => None
    end
  else Some {| sref := sref e; sval := sval e; pos := -1 |}.

Definition append (e : StringEmit) (x : str) : StringEmit :=
  {| sref := sref e; sval := sval e ++ x; pos := -1 |}.

(** [for_every_token(t, emit.advance)] *)
Fixpoint emit_tokens (t : Tree) (e : StringEmit) : StringEmit :=
  match t with
  | Tok k => advance e k
  | Node _ cs =>
      (fix go (l : list Tree) (e : StringEmit) : StringEmit :=
         match l with
         | [] => e
         | c :: r => go r (emit_tokens c e)
         end) cs e
  end.

(** The tokens of a tree in the order [for_every_token] visits them. *)
Fixpoint tokens (t : Tree) : list Token :=
  match t with
  | Tok k => [k]
  | Node _ cs => flat_map tokens cs
  end.

Fixpoint emit_string (emit_fn : Tree -> Z) (t : Tree) (e : StringEmit)
  : option StringEmit :=
  let status := emit_fn t in
  if 0 <? status then Some (emit_tokens t e)
  else if status =? 0 then
    match t with
    | Tok k => Some (advance e k)
    | Node _ cs =>
        (fix go (l : list Tree) (e : StringEmit) : option StringEmit :=
           match l with
           | [] => Some e
           | c :: r =>
               match emit_string emit_fn c e with
               | Some e' => go r e'
               | None => None
               end
           end) cs e
    end
  else skip e t.

(** [typed_child(t, n, ttype)] with its three assertions. *)
Definition typed_child (t : Tree) (n : nat) (ty : str) : option Tree :=
  match t with
  | Tok _ => None
  | Node _ cs =>
      match index cs n with
      | Some (Node d cs') => if str_eqb d ty then Some (Node d cs') else None
      | _ => None
      end
  end.

Definition emit_verbatim (t : Tree) : Z := 0.

Definition rewrite_sig (tree : Tree) (orig_sig : str) (emit_fn : Tree -> Z)
  : option str :=
  match emit_string emit_fn tree (new_emit orig_sig) with
  | Some e => Some (sval e)
  | None => None
  end.

Notation "x <- a ;; b" :=
  (match a with Some x => b | None => None end)
  (at level 61, a at next level, right associativity).

(** ** Structural queries on trees *)

Definition type_core (t : Tree) : option str :=
  match t with
  | Tok _ => None
  | Node _ cs =>
      (fix go (l : list Tree) : option str :=
         match l with
         | [] => None
         | Node d cs' :: r =>
             if str_eqb d (s "core_type") then
               match cs' with
               | Tok k :: _ => Some (value k)
               | Node d' (Tok k' :: _) :: _ =>
                   if str_eqb d' (s "template") then Some (value k') else None
               | _ => None
               end
             else go r
         | Tok _ :: r => go r
         end) cs
  end.

Definition type_is_const (t : Tree) : option bool :=
  match t with
  | Node _ (Tok k :: _) => Some (str_eqb (value k) (s "const"))
  | Node _ (Node _ _ :: _) => Some false
  | _ => None
  end.

Definition type_is_refptr (t : Tree) (kind : str) : option bool :=
  match t with
  | Tok _ => None
  | Node _ cs =>
      c <- last_child cs ;;
      match c with
      | Node d cs' =>
          if str_eqb d (s "refspec") then
            match cs' with
            | Tok k :: _ => Some (str_eqb (value k) kind)
            | Node _ _ :: _ => Some false
            | [] => None
            end
          else Some false
      | Tok _ => Some false
      end
  end.

Fixpoint extract_list (t : Tree) : option (list Tree) :=
  match t with
  | Tok _ => None
  | Node d cs =>
      match cs with
      | [] => None
      | [c0; c1] =>
          match c1 with
          | Node d' _ =>
              if str_eqb d' d then
                r <- extract_list c1 ;; Some (c0 :: r)
              else Some [c0]
          | Tok _ => Some [c0]
          end
      | c0 :: _ => Some [c0]
      end
  end.

Definition get_template_type_list (t : Tree) : option (list Tree) :=
  match t with
  | Tok _ => None
  | Node _ cs =>
      (* the loop leaves [c] at the core type, or at the last child *)
      let c :=
        (fix go (l : list Tree) : option Tree :=
           match l with
           | [] => None
           | [c] => Some c
           | c :: r =>
               match c with
               | Node d _ => if str_eqb d (s "core_type") then Some c else go r
               | Tok _ => go r
               end
           end) cs in
      c <- c ;;
      match c with
      | Node _ (Node d' cs' :: _) =>
          if str_eqb d' (s "template") then
            tl <- index cs' 1 ;; extract_list tl
          else None
      | _ => None
      end
  end.

Definition get_function_name (t : Tree) : option str :=
  match t with
  | Node _ (_ :: Node d (Tok k :: _) :: _) =>
      if str_eqb d (s "fnname") then Some (value k) else None
  | _ => None
  end.

Definition get_parameters (t : Tree) : option (list Tree) :=
  match t with
  | Node _ (_ :: _ :: (Node d _ as c) :: _) =>
      if str_eqb d (s "params") then extract_list c else None
  | _ => None
  end.

Definition param_name (t : Tree) : option str :=
  match t with
  | Node _ (_ :: Node d (Tok k :: _) :: _) =>
      if str_eqb d (s "param_name") then Some (value k) else None
  | _ => None
  end.

Definition param_type (t : Tree) : option Tree :=
  match t with
  | Node _ ((Node _ _ as c) :: _) => Some c
  | _ => None
  end.

(** ** Signature projections *)

Definition map_emit_fn (t : Tree) : Z :=
  match t with
  | Tok k => if mem (ttype k) [s "CONST"; s "REF"; s "PTR"] then -1 else 0
  | Node d _ => if mem d [s "param_name"; s "param_defval"] then -1 else 0
  end.

Definition create_map_sig (tree : Tree) (orig_sig : str) : option str :=
  let emit := new_emit orig_sig in
  c <- typed_child tree 1 (s "fnname") ;;
  emit <- emit_string map_emit_fn c emit ;;
  let emit := append emit (s "(") in
  c <- typed_child tree 3 (s "params") ;;
  emit <- emit_string map_emit_fn c emit ;;
  let emit := append emit (s ") -> ") in
  c <- typed_child tree 0 (s "type") ;;
  emit <- emit_string map_emit_fn c emit ;;
  Some (sval emit).

Definition get_mapsig_key (mapsig : str) : str :=
  filter (fun c => negb (Ascii.eqb c " "%char)) mapsig.

Definition stdfunc_emit_fn (t : Tree) : Z :=
  match t with
  | Tok _ => 0
  | Node d _ => if str_eqb d (s "param_name") then -1 else 0
  end.

Definition create_stdfunc_sig (tree : Tree) (orig_sig : str) : option str :=
  let emit := new_emit orig_sig in
  c <- typed_child tree 0 (s "type") ;;
  emit <- emit_string stdfunc_emit_fn c emit ;;
  let emit := append emit (s "(") in
  c <- typed_child tree 3 (s "params") ;;
  emit <- emit_string stdfunc_emit_fn c emit ;;
  let emit := append emit (s ")") in
  Some (sval emit).

(** A dictionary with string keys, in insertion order. *)
Definition dict (V : Type) := list (str * V).

Fixpoint dict_get {V} (d : dict V) (k : str) : option V :=
  match d with
  | [] => None
  | (k', v) :: r => if str_eqb k k' then Some v else dict_get r k
  end.

Definition dict_has {V} (d : dict V) (k : str) : bool :=
  match dict_get d k with Some _ => true | None => false end.

(** The in-place pass [for_every_token(xtree, rewrite)] of
    [rewrite_signature]: a [TNAME] found in the table takes the mapped name,
    and keeps its columns. *)
Definition rewrite_token (tmap : dict str) (k : Token) : Token :=
  if str_eqb (ttype k) (s "TNAME") then
    match dict_get tmap (value k) with
    | Some v => mkToken (ttype k) v (column k) (end_column k)
    | None => k
    end
  else k.

Fixpoint rewrite_tokens (tmap : dict str) (t : Tree) : Tree :=
  match t with
  | Tok k => Tok (rewrite_token tmap k)
  | Node d cs => Node d (map (rewrite_tokens tmap) cs)
  end.

Definition defval_emit_fn (t : Tree) : Z :=
  match t with
  | Tok _ => 0
  | Node d _ => if str_eqb d (s "param_defval") then -1 else 0
  end.

Definition get_function_signature (t : Tree) (orig_sig : str)
  (namefn : str -> str) : option (str * str * str) :=
  let emit := new_emit orig_sig in
  c <- typed_child t 0 (s "type") ;;
  emit <- emit_string emit_verbatim c emit ;;
  c <- typed_child t 1 (s "fnname") ;;
  match c with
  | Node _ (Tok fnname :: _) =>
      let xfname := namefn (value fnname) in
      let emit := append emit (s " " ++ xfname ++ s "(") in
      c <- typed_child t 3 (s "params") ;;
      emit <- emit_string emit_verbatim c emit ;;
      let emit := append emit (s ")") in
      Some (sval emit, value fnname, xfname)
  | _ => None
  end.

Definition get_return_type_str (t : Tree) (orig_sig : str) : option str :=
  match t with
  | Node _ (_ :: Node d (Tok token :: _) :: _) =>
      if str_eqb d (s "fnname") then
        (* [orig_sig[0:token.column - 2]]; a negative end counts from the
           end of the string *)
        let e := column token - 2 in
        Some (slice orig_sig 0 (if e <? 0 then len orig_sig + e else e))
      else None
  | _ => None
  end.

(** ** The grammar and the two parsers

    [_PARSER] and [_XPARSER] are lark LALR parsers built from [_GRAMMAR]; the
    library is not part of the repository.  What the generator relies on is the
    shape of the trees the grammar yields and the columns lark records on the
    tokens.  A derivation of the grammar is a tree of lexemes, each with the
    ignored text ([%ignore WS]) that precedes it; its source text is the
    concatenation of the lexemes with their gaps, and the verbatim tree is the
    same tree with every lexeme placed at its column.  The reduced tree
    ([keep_all_tokens] off) drops the tokens that the grammar writes as
    anonymous strings. *)

Record Lexeme := mkLex {
  l_type : str;
  l_gap : str;
  l_text : str
}.

#[warnings="-register-all"]
Inductive LTree :=
| LTok (l : Lexeme)
| LNode (ldata : str) (kids : list LTree).

Fixpoint ltext (t : LTree) : str :=
  match t with
  | LTok l => l_gap l ++ l_text l
  | LNode _ ks => flat_map ltext ks
  end.

(** The tree lark builds for a derivation whose text starts at offset [o] of
    a one-line source. *)
Fixpoint place (o : Z) (t : LTree) : Tree :=
  match t with
  | LTok l =>
      Tok {| ttype := l_type l;
             value := l_text l;
             column := o + len (l_gap l) + 1;
             end_column := o + len (l_gap l) + len (l_text l) + 1 |}
  | LNode d ks =>
      Node d
        ((fix go (o : Z) (l : list LTree) : list Tree :=
            match l with
            | [] => []
            | c :: r => place o c :: go (o + len (ltext c)) r
            end) o ks)
  end.

(** Terminals lark names after the anonymous strings of the grammar. *)
Definition anonymous : list str :=
  [s "LPAR"; s "RPAR"; s "COMMA"; s "LESSTHAN"; s "MORETHAN"; s "EQUAL";
   s "TRUE"; s "FALSE"; s "__ANON_0"].

Fixpoint reduce (t : Tree) : Tree :=
  match t with
  | Tok k => Tok k
  | Node d cs =>
      Node d
        ((fix go (l : list Tree) : list Tree :=
            match l with
            | [] => []
            | c :: r =>
                match c with
                | Tok k => if mem (ttype k) anonymous then go r else c :: go r
                | Node _ _ => reduce c :: go r
                end
            end) cs)
  end.

(** Derivations of [_GRAMMAR], one constructor per alternative.  A field of
    type [str] that precedes a token is the gap in front of it. *)

Inductive refkind := REF | PTR.

Inductive type_ :=
| Ty (cst : option str) (core : core_type) (rs : option (str * refkind))
with core_type :=
| CName (g : str) (n : str)
| CTemplate (g : str) (n : str) (glt : str) (args : typelist) (ggt : str)
with typelist :=
| TLOne (t : type_)
| TLCons (t : type_) (gcomma : str) (rest : typelist).

Inductive init_value :=
| IVtrue | IVfalse | IVbraces
| IVnumber (v : str) | IVsigned (v : str) | IVhex (v : str)
| IVstring (v : str).

Record param := mkParam {
  p_type : type_;
  p_gname : str;
  p_name : str;
  p_defval : option (str * str * init_value)
}.

Inductive params :=
| POne (p : param)
| PCons (p : param) (gcomma : str) (rest : params).

Record signature := mkSig {
  s_type : type_;
  s_gname : str;
  s_name : str;
  s_glpar : str;
  s_params : params;
  s_grpar : str;
  s_trail : str
}.

Definition lx (ty : string) (g : str) (x : str) : LTree :=
  LTok (mkLex (s ty) g x).

Definition lt_refspec (r : str * refkind) : LTree :=
  LNode (s "refspec")
    [match snd r with
     | REF => lx "REF" (fst r) (s "&")
     | PTR => lx "PTR" (fst r) (s "*")
     end].

Definition opt_list {A} (o : option A) : list A :=
  match o with Some a => [a] | None => [] end.

Fixpoint lt_type (t : type_) : LTree :=
  match t with
  | Ty cst core rs =>
      LNode (s "type")
        (opt_list (option_map (fun g => lx "CONST" g (s "const")) cst)
         ++ [lt_core core]
         ++ opt_list (option_map lt_refspec rs))
  end
with lt_core (c : core_type) : LTree :=
  match c with
  | CName g n => LNode (s "core_type") [lx "TNAME" g n]
  | CTemplate g n glt args ggt =>
      LNode (s "core_type")
        [LNode (s "template")
           [lx "TNAME" g n; lx "LESSTHAN" glt (s "<"); lt_typelist args;
            lx "MORETHAN" ggt (s ">")]]
  end
with lt_typelist (l : typelist) : LTree :=
  match l with
  | TLOne t => LNode (s "typelist") [lt_type t]
  | TLCons t g r =>
      LNode (s "typelist") [lt_type t; lx "COMMA" g (s ","); lt_typelist r]
  end.

Definition lt_init (g : str) (v : init_value) : LTree :=
  LNode (s "init_value")
    [match v with
     | IVtrue => lx "TRUE" g (s "true")
     | IVfalse => lx "FALSE" g (s "false")
     | IVbraces => lx "__ANON_0" g (s "{}")
     | IVnumber x => lx "NUMBER" g x
     | IVsigned x => lx "SIGNED_NUMBER" g x
     | IVhex x => lx "HEXNUMBER" g x
     | IVstring x => lx "ESCAPED_STRING" g x
     end].

Definition lt_defval (d : str * str * init_value) : LTree :=
  let '(geq, gv, v) := d in
  LNode (s "param_defval") [lx "EQUAL" geq (s "="); lt_init gv v].

Definition lt_param (p : param) : LTree :=
  LNode (s "param")
    ([lt_type (p_type p);
      LNode (s "param_name") [lx "CNAME" (p_gname p) (p_name p)]]
     ++ opt_list (option_map lt_defval (p_defval p))).

Fixpoint lt_params (ps : params) : LTree :=
  match ps with
  | POne p => LNode (s "params") [lt_param p]
  | PCons p g r =>
      LNode (s "params") [lt_param p; lx "COMMA" g (s ","); lt_params r]
  end.

Definition lt_start (sg : signature) : LTree :=
  LNode (s "start")
    [lt_type (s_type sg);
     LNode (s "fnname") [lx "CNAME" (s_gname sg) (s_name sg)];
     lx "LPAR" (s_glpar sg) (s "(");
     lt_params (s_params sg);
     lx "RPAR" (s_grpar sg) (s ")")].

(** The source text of a derivation, with the ignored text after its last
    token. *)
Definition text (sg : signature) : str := ltext (lt_start sg) ++ s_trail sg.

(** [_XPARSER.parse(text sg)] and [_PARSER.parse(text sg)]. *)
Definition xparse (sg : signature) : Tree := place 0 (lt_start sg).
Definition parse (sg : signature) : Tree := reduce (xparse sg).

Definition sig_add : signature :=
  mkSig (Ty None (CName [] (s "Tensor")) None) (s " ") (s "add") []
    (PCons (mkParam (Ty (Some []) (CName (s " ") (s "Tensor")) (Some (s " ", REF)))
              (s " ") (s "self") None) []
      (POne (mkParam (Ty None (CName (s " ") (s "Scalar")) None) (s " ")
               (s "other") (Some (s " ", s " ", IVnumber (s "1"))))))
    [] [].

(** ** What the emitter yields on a placed derivation

    A closed form of [emit_string] on the trees of the verbatim parser, for a
    decision function that looks at the token type or the node name only:
    [lemit] walks the lexemes and tells the text appended and whether the
    emitter is tracking a source position afterwards. *)

Definition by_kind (td nd : str -> Z) (t : Tree) : Z :=
  match t with
  | Tok k => td (ttype k)
  | Node d _ => nd d
  end.

Definition lval (tmap : dict str) (l : Lexeme) : str :=
  value (rewrite_token tmap (mkToken (l_type l) (l_text l) 0 0)).

Definition zero (_ : str) : Z := 0.

Fixpoint lemit (tmap : dict str) (td nd : str -> Z) (t : LTree) (tr : bool)
  : str * bool :=
  match t with
  | LTok l =>
      if td (l_type l) <? 0 then ([], tr)
      else ((if tr then l_gap l else []) ++ lval tmap l, true)
  | LNode d ks =>
      if nd d <? 0 then ([], tr)
      else
        let td' := if 0 <? nd d then zero else td in
        let nd' := if 0 <? nd d then zero else nd in
        (fix go (l : list LTree) (tr : bool) : str * bool :=
           match l with
           | [] => ([], tr)
           | c :: r =>
               let '(x, tr1) := lemit tmap td' nd' c tr in
               let '(y, tr2) := go r tr1 in
               (x ++ y, tr2)
           end) ks tr
  end.

Fixpoint lemit_list (tmap : dict str) (td nd : str -> Z) (l : list LTree)
  (tr : bool) : str * bool :=
  match l with
  | [] => ([], tr)
  | c :: r =>
      let '(x, tr1) := lemit tmap td nd c tr in
      let '(y, tr2) := lemit_list tmap td nd r tr1 in
      (x ++ y, tr2)
  end.

(** Every node of the derivation has a child: true of the verbatim trees. *)
Fixpoint solid (t : LTree) : bool :=
  match t with
  | LTok _ => true
  | LNode _ ks =>
      match ks with
      | [] => false
      | _ => forallb solid ks
      end
  end.

Fixpoint place_list (o : Z) (l : list LTree) : list Tree :=
  match l with
  | [] => []
  | c :: r => place o c :: place_list (o + len (ltext c)) r
  end.

Fixpoint emit_list (emit_fn : Tree -> Z) (l : list Tree) (e : StringEmit)
  : option StringEmit :=
  match l with
  | [] => Some e
  | c :: r =>
      match emit_string emit_fn c e with
      | Some e' => emit_list emit_fn r e'
      | None => None
      end
  end.

Fixpoint LTree_rect' (P : LTree -> Type) (Q : list LTree -> Type)
  (Htok : forall l, P (LTok l))
  (Hnode : forall d ks, Q ks -> P (LNode d ks))
  (Hnil : Q [])
  (Hcons : forall c r, P c -> Q r -> Q (c :: r))
  (t : LTree) : P t :=
  match t with
  | LTok l => Htok l
  | LNode d ks =>
      Hnode d ks
        ((fix go (l : list LTree) : Q l :=
            match l with
            | [] => Hnil
            | c :: r =>
                Hcons c r (LTree_rect' P Q Htok Hnode Hnil Hcons c) (go r)
            end) ks)
  end.

Fixpoint Tree_rect' (P : Tree -> Type) (Q : list Tree -> Type)
  (Htok : forall k, P (Tok k))
  (Hnode : forall d cs, Q cs -> P (Node d cs))
  (Hnil : Q [])
  (Hcons : forall c r, P c -> Q r -> Q (c :: r))
  (t : Tree) : P t :=
  match t with
  | Tok k => Htok k
  | Node d cs =>
      Hnode d cs
        ((fix go (l : list Tree) : Q l :=
            match l with
            | [] => Hnil
            | c :: r =>
                Hcons c r (Tree_rect' P Q Htok Hnode Hnil Hcons c) (go r)
            end) cs)
  end.

Fixpoint emit_tokens_list (l : list Tree) (e : StringEmit) : StringEmit :=
  match l with
  | [] => e
  | c :: r => emit_tokens_list r (emit_tokens c e)
  end.

(** The gap in front of the first token of a derivation, and the text of
    the derivation from that token on. *)
Fixpoint lead (t : LTree) : str :=
  match t with
  | LTok l => l_gap l
  | LNode _ ks =>
      match ks with
      | [] => []
      | c :: _ => lead c
      end
  end.

Fixpoint body (t : LTree) : str :=
  match t with
  | LTok l => l_text l
  | LNode _ ks =>
      match ks with
      | [] => []
      | c :: r => body c ++ flat_map ltext r
      end
  end.

Definition leading (sg : signature) : str := lead (lt_start sg).

(** The signature from its first token to its closing parenthesis. *)
Definition trimmed (sg : signature) : str := body (lt_start sg).

Scheme type_mut := Induction for type_ Sort Prop
  with core_mut := Induction for core_type Sort Prop
  with typelist_mut := Induction for typelist Sort Prop.

Combined Scheme syntax_ind from type_mut, core_mut, typelist_mut.

(** The reduced tree seen through its tokens: the lexemes of a derivation in
    order, those the reduced parser keeps, and what a verbatim emission of the
    kept tokens yields ([pend] is the text passed over since the last kept
    token, [None] before the first one). *)
Fixpoint lexemes (t : LTree) : list Lexeme :=
  match t with
  | LTok l => [l]
  | LNode _ ks => flat_map lexemes ks
  end.

Definition ltexts (ls : list Lexeme) : str :=
  flat_map (fun l => l_gap l ++ l_text l) ls.

Definition kept (l : Lexeme) : bool := negb (mem (l_type l) anonymous).

Definition kept_token (k : Token) : bool := negb (mem (ttype k) anonymous).

Fixpoint ptoks (o : Z) (ls : list Lexeme) : list Token :=
  match ls with
  | [] => []
  | l :: r =>
      {| ttype := l_type l;
         value := l_text l;
         column := o + len (l_gap l) + 1;
         end_column := o + len (l_gap l) + len (l_text l) + 1 |}
      :: ptoks (o + len (l_gap l ++ l_text l)) r
  end.

Fixpoint femit (pend : option str) (ls : list Lexeme) : str :=
  match ls with
  | [] => []
  | l :: r =>
      if kept l then
        match pend with Some g => g ++ l_gap l | None => [] end
        ++ l_text l ++ femit (Some []) r
      else femit (option_map (fun g => g ++ l_gap l ++ l_text l) pend) r
  end.

Fixpoint last_param (ps : params) : param :=
  match ps with
  | POne p => p
  | PCons _ _ r => last_param r
  end.

(** The lexemes after the last token the reduced parser keeps: a default
    value written as an anonymous string, with its [=], and the closing
    parenthesis. *)
Definition dropped_defval (p : param) : list Lexeme :=
  match p_defval p with
  | Some (geq, gv, IVtrue) =>
      [mkLex (s "EQUAL") geq (s "="); mkLex (s "TRUE") gv (s "true")]
  | Some (geq, gv, IVfalse) =>
      [mkLex (s "EQUAL") geq (s "="); mkLex (s "FALSE") gv (s "false")]
  | Some (geq, gv, IVbraces) =>
      [mkLex (s "EQUAL") geq (s "="); mkLex (s "__ANON_0") gv (s "{}")]
  | _ => []
  end.

Definition dropped_lexemes (sg : signature) : list Lexeme :=
  dropped_defval (last_param (s_params sg))
  ++ [mkLex (s "RPAR") (s_grpar sg) (s ")")].

Definition unkept (D : list Lexeme) : bool :=
  forallb (fun l => negb (kept l)) D.

Definition dropped (sg : signature) : str := ltexts (dropped_lexemes sg).

Fixpoint reduce_list (l : list Tree) : list Tree :=
  match l with
  | [] => []
  | c :: r =>
      match c with
      | Tok k =>
          if mem (ttype k) anonymous then reduce_list r else c :: reduce_list r
      | Node _ _ => reduce c :: reduce_list r
      end
  end.

(** ** The map key of a derivation *)

Definition map_td (ty : str) : Z :=
  if mem ty [s "CONST"; s "REF"; s "PTR"] then -1 else 0.

Definition map_nd (d : str) : Z :=
  if mem d [s "param_name"; s "param_defval"] then -1 else 0.

(** [create_map_sig] in closed form. *)
Definition map_sig_of (sg : signature) : str :=
  s_name sg ++ s "("
  ++ fst (lemit [] map_td map_nd (lt_params (s_params sg)) false)
  ++ s ") -> "
  ++ fst (lemit [] map_td map_nd (lt_type (s_type sg)) false).

(** Characters of [TNAME] ([/[a-zA-Z0-9_:]+/]); those of [CNAME] are among
    them. *)
Definition is_name_char (c : ascii) : bool :=
  let n := N_of_ascii c in
  ((97 <=? n) && (n <=? 122) || (65 <=? n) && (n <=? 90)
   || (48 <=? n) && (n <=? 57) || (n =? 95) || (n =? 58))%N.

Definition name_ok (n : str) : bool := forallb is_name_char n.

Definition spaces (g : str) : bool :=
  forallb (fun c => Ascii.eqb c " "%char) g.

(** Signatures whose gaps are made of space characters and whose type and
    function names are lexically names. *)
Fixpoint wf_type (t : type_) : bool :=
  match t with
  | Ty cst core rs =>
      match cst with Some g => spaces g | None => true end
      && wf_core core
      && match rs with Some (g, _) => spaces g | None => true end
  end
with wf_core (c : core_type) : bool :=
  match c with
  | CName g n => spaces g && name_ok n
  | CTemplate g n glt args ggt =>
      spaces g && name_ok n && spaces glt && wf_typelist args && spaces ggt
  end
with wf_typelist (l : typelist) : bool :=
  match l with
  | TLOne t => wf_type t
  | TLCons t g r => wf_type t && spaces g && wf_typelist r
  end.

Definition wf_param (p : param) : bool :=
  wf_type (p_type p) && spaces (p_gname p)
  && match p_defval p with
     | Some (geq, gv, _) => spaces geq && spaces gv
     | None => true
     end.

Fixpoint wf_params (ps : params) : bool :=
  match ps with
  | POne p => wf_param p
  | PCons p g r => wf_param p && spaces g && wf_params r
  end.

Definition wf_sig (sg : signature) : bool :=
  wf_type (s_type sg) && spaces (s_gname sg) && name_ok (s_name sg)
  && spaces (s_glpar sg) && wf_params (s_params sg) && spaces (s_grpar sg).

(** What a signature keeps once qualifiers, reference markers, parameter
    names, default values and gaps are forgotten. *)
Fixpoint erase_type (t : type_) : type_ :=
  match t with
  | Ty _ core _ => Ty None (erase_core core) None
  end
with erase_core (c : core_type) : core_type :=
  match c with
  | CName _ n => CName [] n
  | CTemplate _ n _ args _ => CTemplate [] n [] (erase_typelist args) []
  end
with erase_typelist (l : typelist) : typelist :=
  match l with
  | TLOne t => TLOne (erase_type t)
  | TLCons t _ r => TLCons (erase_type t) [] (erase_typelist r)
  end.

Fixpoint erase_params (ps : params) : params :=
  match ps with
  | POne p => POne (mkParam (erase_type (p_type p)) [] [] None)
  | PCons p _ r =>
      PCons (mkParam (erase_type (p_type p)) [] [] None) [] (erase_params r)
  end.

Definition erase_sig (sg : signature) : signature :=
  mkSig (erase_type (s_type sg)) [] (s_name sg) []
    (erase_params (s_params sg)) [] [].

(** The key printed from the names alone. *)
Fixpoint pk_type (t : type_) : str :=
  match t with
  | Ty _ core _ => pk_core core
  end
with pk_core (c : core_type) : str :=
  match c with
  | CName _ n => n
  | CTemplate _ n _ args _ => n ++ s "<" ++ pk_typelist args ++ s ">"
  end
with pk_typelist (l : typelist) : str :=
  match l with
  | TLOne t => pk_type t
  | TLCons t _ r => pk_type t ++ s "," ++ pk_typelist r
  end.

Fixpoint pk_params (ps : params) : str :=
  match ps with
  | POne p => pk_type (p_type p)
  | PCons p _ r => pk_type (p_type p) ++ s "," ++ pk_params r
  end.

Definition pk_sig (sg : signature) : str :=
  s_name sg ++ s "(" ++ pk_params (s_params sg) ++ s ")->"
  ++ pk_type (s_type sg).

Definition t_tensor : type_ := Ty None (CName [] (s "Tensor")) None.
Definition t_tensor' (g : str) : type_ := Ty None (CName g (s "Tensor")) None.

(** [Tensor f(Tensor a,<g>Tensor b)] *)
Definition sig_two (g : str) : signature :=
  mkSig t_tensor (s " ") (s "f") []
    (PCons (mkParam t_tensor (s " ") (s "a") None) []
       (POne (mkParam (t_tensor' g) (s " ") (s "b") None)))
    [] [].

Definition lt_fnname (sg : signature) : LTree :=
  LNode (s "fnname") [lx "CNAME" (s_gname sg) (s_name sg)].

(** The text in front of the function name, of the parameters and of the
    closing parenthesis. *)
Definition before_name (sg : signature) : str := ltext (lt_type (s_type sg)).

Definition before_params (sg : signature) : str :=
  before_name sg ++ ltext (lt_fnname sg) ++ (s_glpar sg ++ s "(").

Definition after_params (sg : signature) : str :=
  (s_grpar sg ++ s ")") ++ s_trail sg.

(** A text that cannot continue a name, and one that can follow a type in a
    key. *)
Definition stops (r : str) : bool :=
  match r with
  | [] => true
  | c :: _ => negb (is_name_char c)
  end.

Definition follows (r : str) : bool :=
  match r with
  | [] => true
  | c :: _ => Ascii.eqb c ","%char || Ascii.eqb c ">"%char || Ascii.eqb c ")"%char
  end.

Definition tab : str := ["009"%char].

(** [Tensor add(Tensor self,Scalar other)] *)
Definition sig_add_plain : signature :=
  mkSig t_tensor (s " ") (s "add") []
    (PCons (mkParam t_tensor (s " ") (s "self") None) []
       (POne (mkParam (Ty None (CName [] (s "Scalar")) None) (s " ")
                (s "other") None)))
    [] [].

(** The canonical key under which a signature is looked up. *)
Definition canonical_key_of (sg : signature) : option str :=
  option_map get_mapsig_key (create_map_sig (xparse sg) (text sg)).

(** ** More of Python's strings *)

Fixpoint is_prefix (p x : str) : bool :=
  match p, x with
  | [], _ => true
  | a :: p', b :: x' => Ascii.eqb a b && is_prefix p' x'
  | _ :: _, [] => false
  end.

(** [x.find(sub)] *)
Fixpoint find_from (sub x : str) (i : Z) : Z :=
  if is_prefix sub x then i
  else
    match x with
    | [] => -1
    | _ :: r => find_from sub r (i + 1)
    end.

Definition find (x sub : str) : Z := find_from sub x 0.

(** [x[:p]] and [x[p:]], where a negative [p] counts from the end. *)
Definition clamp (x : str) (p : Z) : nat :=
  Z.to_nat (if p <? 0 then Z.max 0 (len x + p) else p).

Definition slice_to (x : str) (p : Z) : str := firstn (clamp x p) x.
Definition slice_from (x : str) (p : Z) : str := skipn (clamp x p) x.

(** [x.split(sep)] for a separator that is not empty: [k] characters of a
    separator just found are still to be passed over, [cur] is the piece read
    so far, in reverse. *)
Fixpoint split_aux (sep x : str) (k : nat) (cur : str) : list str :=
  match x with
  | [] => [rev cur]
  | c :: r =>
      match k with
      | S k' => split_aux sep r k' cur
      | O =>
          if is_prefix sep x
          then rev cur :: split_aux sep r (List.length sep - 1) []
          else split_aux sep r 0 (c :: cur)
      end
  end.

Definition split (x sep : str) : list str := split_aux sep x 0 [].

(** A value used as a condition: [None] and the empty string are false. *)
Definition truthy (o : option str) : bool :=
  match o with
  | Some (_ :: _) => true
  | _ => false
  end.

(** ** Records *)

Record FuncDef := mkFuncDef {
  fd_cpp_sig : str;
  fd_aten_sig : str;
  fd_dispatch : bool;
  fd_math : bool
}.

Record FuncGen := mkFuncGen {
  tree : Tree;
  xtree : Tree;
  rwxtree : Tree;
  func : str;
  xfunc : str;
  code : option str;
  sig : str;
  rwsig : str;
  cppsig : str;
  funsig : str;
  mapsig : str;
  aten_sig : str;
  dispatch : bool;
  math : bool
}.

Record FuncOpts := mkFuncOpts {
  ref_param : option str;
  device_param : option str;
  wparams : option (list str);
  outfn_template : option str;
  outfn_name : option str;
  shape_check_indices : option (list (nat * nat))
}.

(** [FuncOpts()] *)
Definition no_opts : FuncOpts := mkFuncOpts None None None None None None.

(** ** Policy tables *)

Definition _FN_BLACKLIST : list str := [].

Definition _FN_AUTOGRAD_XLA : list str :=
  [s "max_pool2d(Tensor, IntArrayRef, IntArrayRef, IntArrayRef, IntArrayRef, bool) -> Tensor";
   s "max_pool3d(Tensor, IntArrayRef, IntArrayRef, IntArrayRef, IntArrayRef, bool) -> Tensor"].

(** ** The registration builder *)

Definition requires_registration (fgen : FuncGen) (overrides : dict str)
  : bool :=
  let requires_lowering := dispatch fgen && negb (math fgen) in
  let has_xla_lowering := dict_has overrides (get_mapsig_key (mapsig fgen)) in
  let has_autogradxla :=
    mem (mapsig fgen) _FN_AUTOGRAD_XLA || mem (func fgen) _FN_AUTOGRAD_XLA in
  requires_lowering || has_xla_lowering || has_autogradxla.

Definition nl : str := ["010"%char].
Definition dq : str := ["034"%char].

Definition generate_unboxed (aten_sig overload override_fn : str)
  : option str :=
  head <- index (split aten_sig (s "(")) 0 ;;
  name <- index (split head (s "::")) 1 ;;
  Some (s "  m.impl_UNBOXED(" ++ dq ++ name ++ dq ++ s ", static_cast<"
        ++ overload ++ s ">(&" ++ override_fn ++ s "));" ++ nl).

(** [overridden.add(k)] *)
Definition set_add (k : str) (l : list str) : list str :=
  if mem k l then l else l ++ [k].

Record RegState := mkReg {
  aten_code : str;
  autogradxla_code : str;
  overridden : list str
}.

(** The function-pointer type a registration casts to. *)
Definition overload_of (fgen : FuncGen) : str :=
  let p := find (funsig fgen) (s "(") in
  slice_to (funsig fgen) p ++ s " (*)" ++ slice_from (funsig fgen) p.

(** The body of the loop of [generate_registrations]. *)
Definition registration_step (overrides : dict str) (st : RegState)
  (fgen : FuncGen) : option RegState :=
  if negb (requires_registration fgen overrides) then Some st
  else
    let mapsig_key := get_mapsig_key (mapsig fgen) in
    let '(override_fn, overridden') :=
      if dict_has overrides mapsig_key
      then (Some (s "AtenXlaType::" ++ func fgen),
            set_add mapsig_key (overridden st))
      else ((if truthy (code fgen) then Some (xfunc fgen) else None),
            overridden st) in
    if truthy override_fn then
      match override_fn with
      | Some fn =>
          let overload := overload_of fgen in
          unboxed <- generate_unboxed (aten_sig fgen) overload fn ;;
          if mem (mapsig fgen) _FN_AUTOGRAD_XLA
          then Some (mkReg (aten_code st) (autogradxla_code st ++ unboxed)
                       overridden')
          else Some (mkReg (aten_code st ++ unboxed) (autogradxla_code st)
                       overridden')
      | None => None
      end
    else Some (mkReg (aten_code st) (autogradxla_code st) overridden').

Fixpoint registration_loop (overrides : dict str) (st : RegState)
  (fgens : list FuncGen) : option RegState :=
  match fgens with
  | [] => Some st
  | fgen :: r =>
      st' <- registration_step overrides st fgen ;;
      registration_loop overrides st' r
  end.

Definition generate_registrations (fgens : list FuncGen)
  (overrides : dict str) : option (str * list str) :=
  let st0 := mkReg (s "TORCH_LIBRARY_IMPL(aten, XLA, m) {" ++ nl)
               (s "TORCH_LIBRARY_IMPL(aten, AutogradXLA, m) {" ++ nl) [] in
  st <- registration_loop overrides st0 fgens ;;
  Some (aten_code st ++ nl ++ s "}" ++ nl ++ autogradxla_code st ++ nl
        ++ s "}" ++ nl,
        overridden st).

(** [check_overrides]: the verdict, and the lines written to the error
    stream. *)
Fixpoint check_overrides_loop (items : dict str) (overridden : list str)
  (misses : nat) (log : list str) : nat * list str :=
  match items with
  | [] => (misses, log)
  | (mapsig, cpp_sig) :: r =>
      let mapsig_key := get_mapsig_key mapsig in
      if negb (mem mapsig_key overridden)
      then check_overrides_loop r overridden (misses + 1)
             (log ++ [s "AtenXlaType function missed override: " ++ cpp_sig
                      ++ s "; // " ++ mapsig])
      else check_overrides_loop r overridden misses log
  end.

Definition check_overrides (overrides : dict str) (overridden : list str)
  : bool * list str :=
  let '(misses, log) := check_overrides_loop overrides overridden 0%nat [] in
  (Nat.eqb misses 0, log).


(** Registration as C6 words it: clause (c) on the canonical key. *)
Definition registration_as_stated (fgen : FuncGen) (overrides : dict str)
  : bool :=
  (dispatch fgen && negb (math fgen))
  || dict_has overrides (get_mapsig_key (mapsig fgen))
  || (mem (get_mapsig_key (mapsig fgen)) _FN_AUTOGRAD_XLA
      || mem (func fgen) _FN_AUTOGRAD_XLA).

Definition unused (overridden : list str) (item : str * str) : bool :=
  negb (mem (get_mapsig_key (fst item)) overridden).

Definition miss_report (item : str * str) : str :=
  s "AtenXlaType function missed override: " ++ snd item ++ s "; // "
  ++ fst item.

(** ** Example signatures, written as the declaration source writes them *)

(** [T], after one space unless first *)
Definition ty (first : bool) (n : string) : type_ :=
  Ty None (CName (if first then [] else s " ") (s n)) None.

(** [const T &] *)
Definition cref (first : bool) (n : string) : type_ :=
  Ty (Some (if first then [] else s " ")) (CName (s " ") (s n))
    (Some (s " ", REF)).


Definition par (t : type_) (n : string) : param := mkParam t (s " ") (s n) None.

Fixpoint pars (p : param) (l : list param) : params :=
  match l with
  | [] => POne p
  | q :: r => PCons p [] (pars q r)
  end.

Definition decl (ret : type_) (name : string) (p : param) (l : list param)
  : signature :=
  mkSig ret (s " ") (s name) [] (pars p l) [] [].

Definition sig_max_pool2d : signature :=
  decl (ty true "Tensor") "max_pool2d" (par (cref true "Tensor") "self")
    [par (ty false "IntArrayRef") "kernel_size";
     par (ty false "IntArrayRef") "stride";
     par (ty false "IntArrayRef") "padding";
     par (ty false "IntArrayRef") "dilation";
     par (ty false "bool") "ceil_mode"].



(** ** Code synthesis: the reference parameter *)

(** [getattr(fnopts, name, defval) or defval] for a field holding a string *)
Definition get_optional (fnopts : option FuncOpts)
  (field : FuncOpts -> option str) (defval : option str) : option str :=
  match fnopts with
  | None => defval
  | Some o => if truthy (field o) then field o else defval
  end.

Definition opt_str_eqb (a : option str) (b : str) : bool :=
  match a with
  | Some x => str_eqb x b
  | None => false
  end.

Definition is_none {A} (o : option A) : bool :=
  match o with Some _ => false | None => true end.

(** [ref_param or other] *)
Definition or_else {A} (a b : option A) : option A :=
  match a with Some _ => a | None => b end.

(** The core type of a parameter, looked up inside [c10::optional<>]. *)
Definition unwrapped_core (ptype : Tree) : option str :=
  cptype <- type_core ptype ;;
  if str_eqb cptype (s "c10::optional") then
    l <- get_template_type_list ptype ;;
    t0 <- index l 0 ;;
    type_core t0
  else Some cptype.

(** The loop of [get_reference_param]; the outer [option] is an exception. *)
Fixpoint reference_loop (fnopts : option FuncOpts) (params : list Tree)
  (ref_param' other : option Tree) : option (option Tree) :=
  match params with
  | [] => Some (or_else ref_param' other)
  | p :: rest =>
      ptype <- param_type p ;;
      cptype <- unwrapped_core ptype ;;
      pname <- param_name p ;;
      if opt_str_eqb (get_optional fnopts ref_param None) pname
      then Some (Some p)
      else
        let other :=
          if is_none other
             && (str_eqb cptype (s "TensorOptions")
                 || str_eqb cptype (s "TensorList")
                 || str_eqb cptype (s "Device"))
          then Some p else other in
        if negb (str_eqb cptype (s "Tensor"))
        then reference_loop fnopts rest ref_param' other
        else
          if is_none ref_param' then
            if str_eqb pname (s "self")
            then reference_loop fnopts rest (Some p) (Some p)
            else
              c <- type_is_const ptype ;;
              reference_loop fnopts rest (if c then Some p else ref_param')
                (Some p)
          else reference_loop fnopts rest ref_param' (Some p)
  end.

Definition get_reference_param (params : list Tree)
  (fnopts : option FuncOpts) : option (option Tree) :=
  reference_loop fnopts params None None.

(** What [get_reference_param] reads of a parameter. *)
Record pview := mkView {
  v_name : str;
  v_core : str;
  v_const : bool
}.

Definition view (p : Tree) : option pview :=
  ptype <- param_type p ;;
  cptype <- unwrapped_core ptype ;;
  pname <- param_name p ;;
  c <- type_is_const ptype ;;
  Some (mkView pname cptype c).

Definition sat (f : pview -> bool) (p : Tree) : bool :=
  match view p with
  | Some v => f v
  | None => false
  end.

Definition is_named (fnopts : option FuncOpts) (v : pview) : bool :=
  opt_str_eqb (get_optional fnopts ref_param None) (v_name v).

Definition is_tensor (v : pview) : bool := str_eqb (v_core v) (s "Tensor").

Definition is_self_or_const_tensor (v : pview) : bool :=
  is_tensor v && (str_eqb (v_name v) (s "self") || v_const v).

Definition is_options_list_or_device (v : pview) : bool :=
  str_eqb (v_core v) (s "TensorOptions")
  || str_eqb (v_core v) (s "TensorList")
  || str_eqb (v_core v) (s "Device").

Definition find_last {A} (f : A -> bool) (l : list A) : option A :=
  List.find f (rev l).

(** The priority order C3 states. *)
Definition reference_as_stated (fnopts : option FuncOpts)
  (params : list Tree) : option Tree :=
  or_else (List.find (sat (is_named fnopts)) params)
    (or_else (List.find (sat is_self_or_const_tensor) params)
       (or_else (List.find (sat is_options_list_or_device) params)
          (find_last (sat is_tensor) params))).

(** The priority order of the code: the last tensor comes before the first
    options, list or device parameter. *)
Definition reference_by_priority (fnopts : option FuncOpts)
  (params : list Tree) : option Tree :=
  or_else (List.find (sat (is_named fnopts)) params)
    (or_else (List.find (sat is_self_or_const_tensor) params)
       (or_else (find_last (sat is_tensor) params)
          (List.find (sat is_options_list_or_device) params))).

(** [Tensor f(TensorList l, Tensor t)] *)
Definition sig_list_then_tensor : signature :=
  decl (ty true "Tensor") "f" (par (ty true "TensorList") "l")
    [par (ty false "Tensor") "t"].

Definition params_of (sg : signature) : list Tree :=
  match get_parameters (parse sg) with
  | Some l => l
  | None => []
  end.

(** [Tensor f(Tensor a, const Tensor & b, TensorOptions o)] *)
Definition sig_const_second : signature :=
  decl (ty true "Tensor") "f" (par (ty true "Tensor") "a")
    [par (cref false "Tensor") "b"; par (ty false "TensorOptions") "o"].

(** An override table holding a hand-written [max_pool2d]. *)
Definition ov_max_pool2d : dict str :=
  [(s "max_pool2d(Tensor,IntArrayRef,IntArrayRef,IntArrayRef,IntArrayRef,bool)->Tensor",
    text sig_max_pool2d)].


(** ** Code synthesis: shared pieces *)

(** [str(n)] *)
Definition str_of_nat (n : nat) : str :=
  list_ascii_of_string (NilEmpty.string_of_uint (Nat.to_uint n)).

(** [x.replace(old, new)] for an [old] that is not empty *)
Definition replace (x old new : str) : str := join new (split x old).

(** ['{}'.format(x)] for a value that may be [None] *)
Definition fmt (o : option str) : str :=
  match o with
  | Some x => x
  | None => s "None"
  end.

Definition _RESULT_NAME : str := s "x_result".

Definition _CTOR_FUNCTIONS : dict str :=
  map (fun n => (s n, s ".device(at::DeviceType::CPU)"))
    ["empty"; "linspace"; "logspace"; "rand"; "rand_like"; "randn";
     "randn_like"; "randint"; "randint_like"; "randperm_out";
     "scalar_tensor"]%string.

Definition _XLA_FUNCTIONS : dict str := [].

Record Context := mkContext { functions_data : str }.

Definition get_function (ctx : Context) (name : str) : option str :=
  if 0 <=? find (functions_data ctx) (s " " ++ name ++ s "(")
  then Some (s "at::" ++ name)
  else None.

Record TensorFetcher := mkFetcher {
  var_name : str;
  tvar_name : str;
  optvar_name : str;
  toptvar_name : str;
  tensors : list str;
  opt_tensors : list str;
  writeable : list nat
}.

Definition new_fetcher (v : str) : TensorFetcher :=
  mkFetcher v (v ++ s "_tensors") (v ++ s "_opt")
    ((v ++ s "_opt") ++ s "_tensors") [] [] [].

Definition fetcher_add (f : TensorFetcher) (name : str) (w : bool)
  : TensorFetcher * str :=
  let wr := if w then writeable f ++ [List.length (tensors f)] else writeable f in
  let ts := tensors f ++ [name] in
  (mkFetcher (var_name f) (tvar_name f) (optvar_name f) (toptvar_name f) ts
     (opt_tensors f) wr,
   var_name f ++ s "[" ++ str_of_nat (List.length ts - 1) ++ s "]").

Definition fetcher_add_opt (f : TensorFetcher) (name : str)
  : TensorFetcher * str :=
  let ts := opt_tensors f ++ [name] in
  (mkFetcher (var_name f) (tvar_name f) (optvar_name f) (toptvar_name f)
     (tensors f) ts (writeable f),
   optvar_name f ++ s "[" ++ str_of_nat (List.length ts - 1) ++ s "]").

Definition generate_fetches (f : TensorFetcher) : str :=
  let code :=
    s "  std::vector<at::Tensor> " ++ tvar_name f ++ s " = {"
    ++ join (s ", ") (tensors f) ++ s "};" ++ nl
    ++ s "  auto " ++ var_name f ++ s " = bridge::XlaCreateTensorList("
    ++ tvar_name f ++ s ");" ++ nl in
  match opt_tensors f with
  | [] => code
  | _ =>
      code
      ++ s "  std::vector<c10::optional<at::Tensor>> " ++ toptvar_name f
      ++ s " = {" ++ join (s ", ") (opt_tensors f) ++ s "};" ++ nl
      ++ s "  auto " ++ optvar_name f
      ++ s " = bridge::XlaCreateOptTensorList(" ++ toptvar_name f ++ s ");"
      ++ nl
  end.

Definition generate_updates (f : TensorFetcher) : str :=
  match writeable f with
  | [] => []
  | _ =>
      let ivar_name := var_name f ++ s "_update_indices" in
      s "  std::vector<size_t> " ++ ivar_name ++ s " = {"
      ++ join (s ", ") (map str_of_nat (writeable f)) ++ s "};" ++ nl
      ++ s "  bridge::XlaUpdateTensors(" ++ tvar_name f ++ s ", "
      ++ var_name f ++ s ", " ++ ivar_name ++ s ");" ++ nl
  end.

Definition list_get {A} (l : list A) (n : nat) : option A := nth_error l n.

Definition is_write_param (fnopts : option FuncOpts) (pname : str)
  (defval : bool) : bool :=
  match fnopts with
  | Some o =>
      match wparams o with
      | Some (w :: ws) => if mem pname (w :: ws) then true else defval
      | _ => defval
      end
  | None => defval
  end.

Fixpoint get_param_names (params : list Tree) : option (list str) :=
  match params with
  | [] => Some []
  | p :: r =>
      pname <- param_name p ;;
      rest <- get_param_names r ;;
      Some (pname :: rest)
  end.

Definition create_call (fname : str) (param_vars : list str) : str :=
  fname ++ s "(" ++ join (s ", ") param_vars ++ s ")".

(** The loop of [generate_entry_debug_code] over the parameters. *)
Fixpoint entry_debug_params (params : list Tree) : option str :=
  match params with
  | [] => Some []
  | p :: r =>
      ptype <- param_type p ;;
      cptype <- type_core ptype ;;
      pname <- param_name p ;;
      rest <- entry_debug_params r ;;
      Some ((if str_eqb cptype (s "Tensor")
             then s " << " ++ dq ++ s " " ++ pname ++ s "=" ++ dq ++ s " << "
                  ++ pname ++ s ".toString()"
             else []) ++ rest)
  end.

Definition generate_entry_debug_code (fname : str) (params : list Tree)
  (fname_ns : option str) : option str :=
  let code := s "  XLA_FN_TRACK(3);" ++ nl in
  let code :=
    match fname_ns with
    | Some ns =>
        code ++ s "  XLA_COUNTER(" ++ dq ++ ns ++ s "::" ++ fname ++ dq
        ++ s ", 1);" ++ nl
    | None => code
    end in
  let code := code ++ s "  TF_VLOG(3) << " ++ dq ++ s "XLA " ++ fname ++ s " :"
              ++ dq in
  ps <- entry_debug_params params ;;
  Some (code ++ ps ++ s ";" ++ nl).

Definition generate_exit_debug_code : str := [].

Definition generate_outfn_result_copy (dest src : str) : str :=
  s "  bridge::XlaUpdateTensors({" ++ dest ++ s "}, {" ++ src ++ s "}, {0});"
  ++ nl.

(** The group matched in front of [_out] at the end of [fname] (the
    [re.match] of [generate_aten_out]), for a name without line break. *)
Definition strip_out (fname : str) : option str :=
  let n := (List.length fname - 4)%nat in
  if (4 <=? List.length fname)%nat && str_eqb (skipn n fname) (s "_out")
  then Some (firstn n fname)
  else None.

Fixpoint generate_shape_checks (param_vars : list str)
  (shape_check_indices : list (nat * nat)) (fname : str) : option str :=
  match shape_check_indices with
  | [] => Some []
  | (i, j) :: r =>
      pi <- index param_vars i ;;
      pj <- index param_vars j ;;
      rest <- generate_shape_checks param_vars r fname ;;
      Some (s "  XLA_CHECK(" ++ pi ++ s ".sizes() == " ++ pj
            ++ s ".sizes()) << " ++ dq
            ++ s "Operand shapes must be identical for " ++ fname
            ++ s ", mismatch for arguments " ++ str_of_nat (i + 1)
            ++ s " and " ++ str_of_nat (j + 1) ++ dq ++ s ";" ++ nl ++ rest)
  end.

(** [a == b] on trees: lark compares the rule names and the children, and
    tokens by type and text (not by position). *)
Fixpoint tree_eqb (a b : Tree) : bool :=
  match a, b with
  | Tok x, Tok y => str_eqb (ttype x) (ttype y) && str_eqb (value x) (value y)
  | Node d cs, Node d' cs' =>
      str_eqb d d'
      && (fix go (l l' : list Tree) : bool :=
            match l, l' with
            | [], [] => true
            | c :: r, c' :: r' => tree_eqb c c' && go r r'
            | _, _ => false
            end) cs cs'
  | _, _ => false
  end.

(** [l.remove(x)]: the list without the first [x], raising when [x] is not
    in it. *)
Fixpoint remove_first (x : str) (l : list str) : option (list str) :=
  match l with
  | [] => None
  | y :: r =>
      if str_eqb y x then Some r
      else r' <- remove_first x r ;; Some (y :: r')
  end.

Definition get_handling_function (ctx : Context) (fname : str)
  (xla_ref_param : option str) (param_vars : list str) : option str :=
  let function := or_else (dict_get _XLA_FUNCTIONS fname)
                    (get_function ctx fname) in
  if truthy function then
    Some (fmt function ++ s "(" ++ join (s ", ") param_vars ++ s ")")
  else
    match xla_ref_param with
    | Some r =>
        other_params <- remove_first r param_vars ;;
        Some (r ++ s "." ++ fname ++ s "(" ++ join (s ", ") other_params
              ++ s ")")
    | None => None
    end.

Definition rewrite_tensor_options (fname pname : str) : str * str :=
  match dict_get _CTOR_FUNCTIONS fname with
  | None => ([], pname)
  | Some rw =>
      let xname := s "o_" ++ pname in
      (s "  at::TensorOptions " ++ xname ++ s " = " ++ pname ++ rw ++ s ";"
       ++ nl, xname)
  end.

(** [param_name(ref_param)], evaluated as an argument *)
Definition ref_name (ref_param : option Tree) : option str :=
  match ref_param with
  | Some p => param_name p
  | None => None
  end.

Definition get_return_value (rtype : Tree) (rname : option str)
  (param : option Tree) (ref_param : option Tree)
  (fnopts : option FuncOpts) : option str :=
  crtype <- type_core rtype ;;
  c <- type_is_const rtype ;;
  r <- (if c then Some true else type_is_refptr rtype (s "&")) ;;
  if r then
    match param with
    | Some p => param_name p
    | None => None
    end
  else if negb (str_eqb crtype (s "Tensor")) then Some (fmt rname)
  else
    rn <- ref_name ref_param ;;
    Some (s "bridge::CreateXlaTensor(" ++ fmt rname
          ++ s ", bridge::GetXlaDevice("
          ++ fmt (get_optional fnopts device_param (Some rn)) ++ s "))").

Fixpoint tuple_return_loop (types : list Tree) (i : nat) (rname : option str)
  (params : list Tree) (ref_param : option Tree) (fnopts : option FuncOpts)
  : option str :=
  match types with
  | [] => Some []
  | ttype :: r =>
      let tuple_var := s "std::get<" ++ str_of_nat i ++ s ">(" ++ fmt rname
                       ++ s ")" in
      v <- get_return_value ttype (Some tuple_var) (list_get params i)
             ref_param fnopts ;;
      rest <- tuple_return_loop r (S i) rname params ref_param fnopts ;;
      Some ((if (0 <? i)%nat then s ", " else []) ++ v ++ rest)
  end.

Definition get_tuple_return (rtype : Tree) (rtype_str : str)
  (rname : option str) (params : list Tree) (ref_param : option Tree)
  (fnopts : option FuncOpts) : option str :=
  types <- get_template_type_list rtype ;;
  body <- tuple_return_loop types 0 rname params ref_param fnopts ;;
  Some (rtype_str ++ s "(" ++ body ++ s ")").

Definition first_child (t : Tree) : option Tree :=
  match t with
  | Node _ (c :: _) => Some c
  | _ => None
  end.

Definition is_plain_void (rtype : Tree) (ctype : str) : option bool :=
  if str_eqb ctype (s "void") then
    p <- type_is_refptr rtype (s "*") ;; Some (negb p)
  else Some false.

Definition generate_return_stmt (t : Tree) (rtype_str : str)
  (rname : option str) (params : list Tree) (ref_param : option Tree)
  (fnopts : option FuncOpts) : option str :=
  rtype <- first_child t ;;
  ctype <- type_core rtype ;;
  let ret (x : str) := Some (s "  return " ++ x ++ s ";" ++ nl) in
  if str_eqb ctype (s "std::tuple") then
    r <- get_tuple_return rtype rtype_str rname params ref_param fnopts ;;
    ret r
  else if str_eqb ctype (s "std::vector") then
    rn <- ref_name ref_param ;;
    ret (s "bridge::CreateXlaTensors(" ++ fmt rname
         ++ s ", bridge::GetXlaDevice("
         ++ fmt (get_optional fnopts device_param (Some rn)) ++ s "))")
  else if str_eqb ctype (s "Tensor") then
    p0 <- index params 0 ;;
    r <- get_return_value rtype rname (Some p0) ref_param fnopts ;;
    ret r
  else
    v <- is_plain_void rtype ctype ;;
    if v then Some [] else ret (fmt rname).

Definition generate_result_assignment (t : Tree) (rname : str)
  : option str :=
  rtype <- first_child t ;;
  ctype <- type_core rtype ;;
  v <- is_plain_void rtype ctype ;;
  if v then Some [] else Some (s "auto&& " ++ rname ++ s " = ").

(** [num_outputs] of [generate_aten_out]: the arity of a [std::tuple] return
    type, [None] for another return type. *)
Definition out_arity (tree : Tree) : option (option nat) :=
  rtype <- first_child tree ;;
  ctype <- type_core rtype ;;
  if str_eqb ctype (s "std::tuple")
  then l <- get_template_type_list rtype ;; Some (Some (List.length l))
  else Some None.

Section Synthesis.

(** [ArgTemplate(...).substitute] of Python's [string] module. *)
Variable expand_fn_template : str -> list str -> option str.

Definition generate_aten_remap (fname sig : str) (params : list Tree)
  (fnopts : FuncOpts) : option str :=
  let code := sig ++ s " {" ++ nl in
  param_vars <- get_param_names params ;;
  fcall <-
    match outfn_template fnopts with
    | Some tmpl => expand_fn_template tmpl param_vars
    | None =>
        if truthy (outfn_name fnopts)
        then Some (create_call (fmt (outfn_name fnopts)) param_vars)
        else None
    end ;;
  checks <-
    match shape_check_indices fnopts with
    | Some ix => generate_shape_checks param_vars ix fname
    | None => Some []
    end ;;
  Some (code ++ checks ++ s "  return " ++ fcall ++ s ";" ++ nl ++ s "}").

(** The two loops of [generate_aten_out] over [range(0, num_outputs)]. *)
Fixpoint out_copies (param_vars : list str) (tmp_result : str)
  (i n : nat) : option str :=
  match n with
  | O => Some []
  | S n' =>
      pv <- index param_vars i ;;
      rest <- out_copies param_vars tmp_result (S i) n' ;;
      Some (generate_outfn_result_copy pv
              (s "std::get<" ++ str_of_nat i ++ s ">(" ++ tmp_result ++ s ")")
            ++ rest)
  end.

Fixpoint out_returns (param_vars : list str) (i n : nat) : option str :=
  match n with
  | O => Some []
  | S n' =>
      pv <- index param_vars i ;;
      rest <- out_returns param_vars (S i) n' ;;
      Some ((if (0 <? i)%nat then s ", " else []) ++ pv ++ rest)
  end.

Definition generate_aten_out (tree rwxtree : Tree) (fname sig rwsig : str)
  (params : list Tree) (fnopts : FuncOpts) : option str :=
  num_outputs <- out_arity tree ;;
  let code := sig ++ s " {" ++ nl in
  dbg <- generate_entry_debug_code fname params None ;;
  let code := code ++ dbg in
  param_vars <- get_param_names params ;;
  fcall <-
    match outfn_template fnopts with
    | Some tmpl => expand_fn_template tmpl param_vars
    | None =>
        m <- strip_out fname ;;
        let out_count := match num_outputs with Some n => n | None => 1%nat end in
        Some (create_call (s "AtenXlaType::" ++ m) (skipn out_count param_vars))
    end ;;
  let tmp_result := fname ++ s "_tmp" in
  let code := code ++ s "  auto " ++ tmp_result ++ s " = " ++ fcall ++ s ";"
              ++ nl in
  code <-
    match num_outputs with
    | None =>
        p0 <- index param_vars 0 ;;
        Some (code ++ generate_outfn_result_copy p0 tmp_result
              ++ generate_exit_debug_code
              ++ s "  return " ++ p0 ++ s ";" ++ nl)
    | Some n =>
        copies <- out_copies param_vars tmp_result 0 n ;;
        rts <- get_return_type_str rwxtree rwsig ;;
        rets <- out_returns param_vars 0 n ;;
        Some (code ++ copies ++ generate_exit_debug_code
              ++ s "  return " ++ rts ++ s "(" ++ rets ++ s ");" ++ nl)
    end ;;
  Some (code ++ s "}").

End Synthesis.

(** The body of an out-variant wrapper, piece by piece. *)
Definition out_count (num_outputs : option nat) : nat :=
  match num_outputs with Some n => n | None => 1%nat end.











(** No template is ever expanded in the examples. *)
Definition no_template (_ : str) (_ : list str) : option str := None.

(** ** Code synthesis: the default bridging strategy *)

Record Bridging := mkBridging {
  b_code : str;
  b_fetcher : TensorFetcher;
  b_param_vars : list str;
  b_xla_ref_param : option str
}.

Definition opt_tree_eqb (p : Tree) (ref_param : option Tree) : bool :=
  match ref_param with
  | Some r => tree_eqb p r
  | None => false
  end.

(** [l[-1]] of a list that is not empty *)
Definition last_opt (l : list str) : option str :=
  match l with
  | [] => None
  | _ => Some (last l [])
  end.

(** The body of the loop of [generate_aten_to_xla] over the parameters. *)
Definition bridging_step (fname : str) (fnopts : option FuncOpts)
  (refp : option Tree) (st : Bridging) (p : Tree) : option Bridging :=
  ptype <- param_type p ;;
  cptype <- type_core ptype ;;
  pname <- param_name p ;;
  st1 <-
    (if str_eqb cptype (s "TensorList") then
       let xname := s "l_" ++ pname in
       Some (mkBridging
               (b_code st ++ s "  auto " ++ xname
                ++ s " = bridge::XlaCreateTensorList(" ++ pname ++ s ");" ++ nl)
               (b_fetcher st) (b_param_vars st ++ [xname])
               (b_xla_ref_param st))
     else if str_eqb cptype (s "TensorOptions") then
       let '(gcode, xname) := rewrite_tensor_options fname pname in
       Some (mkBridging (b_code st ++ gcode) (b_fetcher st)
               (b_param_vars st ++ [xname]) (b_xla_ref_param st))
     else if str_eqb cptype (s "c10::optional") then
       l <- get_template_type_list ptype ;;
       t0 <- index l 0 ;;
       wrapped_type <- type_core t0 ;;
       if str_eqb wrapped_type (s "Tensor") then
         let '(f, xname) := fetcher_add_opt (b_fetcher st) pname in
         Some (mkBridging (b_code st) f (b_param_vars st ++ [xname])
                 (b_xla_ref_param st))
       else
         Some (mkBridging (b_code st) (b_fetcher st)
                 (b_param_vars st ++ [pname]) (b_xla_ref_param st))
     else if negb (str_eqb cptype (s "Tensor")) then
       Some (mkBridging (b_code st) (b_fetcher st)
               (b_param_vars st ++ [pname]) (b_xla_ref_param st))
     else
       c <- type_is_const ptype ;;
       let '(f, xname) :=
         fetcher_add (b_fetcher st) pname
           (is_write_param fnopts pname (negb c)) in
       Some (mkBridging (b_code st) f (b_param_vars st ++ [xname])
               (b_xla_ref_param st))) ;;
  if opt_tree_eqb p refp
     && negb (truthy (get_optional fnopts ref_param None))
  then Some (mkBridging (b_code st1) (b_fetcher st1) (b_param_vars st1)
               (last_opt (b_param_vars st1)))
  else Some st1.

Fixpoint bridging_loop (fname : str) (fnopts : option FuncOpts)
  (refp : option Tree) (st : Bridging) (params : list Tree)
  : option Bridging :=
  match params with
  | [] => Some st
  | p :: r =>
      st' <- bridging_step fname fnopts refp st p ;;
      bridging_loop fname fnopts refp st' r
  end.

Definition target_options : list str :=
  [s "dtype"; s "layout"; s "device"; s "pin_memory"].

(** The line of the body that holds the delegated call. *)
Definition call_line (result_assign call : str) : str :=
  s "  " ++ result_assign ++ call ++ s ";" ++ nl.

Definition options_line : str :=
  s "  at::TensorOptions options = at::TensorOptions().device(device).layout(layout).pinned_memory(pin_memory).dtype(dtype);"
  ++ nl.

Definition has_target_options (param_vars : list str) : bool :=
  forallb (fun o => mem o param_vars) target_options.

(** The body with the delegated call: when the four option parameters are
    all there, an [options] bag is built and the text that lists them is
    replaced by it, all over the body written so far. *)
Definition with_call (code result_assign call : str)
  (param_vars : list str) : str :=
  if has_target_options param_vars then
    replace (code ++ options_line ++ call_line result_assign call)
      (join (s ", ") target_options) (s "options")
  else code ++ call_line result_assign call.

Definition static_cast_line (result_assign : str) : str :=
  match result_assign with
  | [] => []
  | _ => s "  static_cast<void>(" ++ _RESULT_NAME
         ++ s "); // Avoid warnings in case not used" ++ nl
  end.

Definition generate_aten_to_xla (ctx : Context) (tree rwxtree : Tree)
  (fname sig rwsig : str) (params : list Tree) (fnopts : option FuncOpts)
  : option str :=
  refp <- get_reference_param params fnopts ;;
  let code := sig ++ s " {" ++ nl in
  dbg <- generate_entry_debug_code fname params (Some (s "aten")) ;;
  let code := code ++ dbg in
  xla_ref_param <-
    match refp with
    | Some p => n <- param_name p ;; Some (Some n)
    | None => Some None
    end ;;
  st <- bridging_loop fname fnopts refp
          (mkBridging code (new_fetcher (s "xlatens")) [] xla_ref_param)
          params ;;
  let code := b_code st ++ generate_fetches (b_fetcher st) in
  result_assign <- generate_result_assignment tree _RESULT_NAME ;;
  call <- get_handling_function ctx fname (b_xla_ref_param st)
            (b_param_vars st) ;;
  let code := with_call code result_assign call (b_param_vars st) in
  let code := code ++ generate_updates (b_fetcher st) in
  let has_result := match result_assign with [] => false | _ => true end in
  let code := code ++ static_cast_line result_assign in
  let code := code ++ generate_exit_debug_code in
  rts <- get_return_type_str rwxtree rwsig ;;
  ret <- generate_return_stmt tree rts
           (if has_result then Some _RESULT_NAME else None) params refp
           fnopts ;;
  Some (code ++ ret ++ s "}").

(** [Tensor add(const Tensor & self, const Tensor & other, Scalar alpha)] *)
Definition sig_add3 : signature :=
  decl (ty true "Tensor") "add" (par (cref true "Tensor") "self")
    [par (cref false "Tensor") "other"; par (ty false "Scalar") "alpha"].

Definition sig_add3_rw : signature :=
  decl (ty true "at::Tensor") "add" (par (cref true "at::Tensor") "self")
    [par (cref false "at::Tensor") "other"; par (ty false "at::Scalar") "alpha"].

Definition ctx_with_add : Context :=
  mkContext (s "CAFFE2_API Tensor add(const Tensor & self, const Tensor & other, Scalar alpha=1);").

Definition ctx_without_add : Context :=
  mkContext (s "CAFFE2_API Tensor sub(const Tensor & self, const Tensor & other, Scalar alpha=1);").






(** ** Policy lookups *)

Definition _FN_OUT : dict FuncOpts :=
  map (fun n => (s n, no_opts))
    ["abs_out"; "add_out"; "acos_out"; "acosh_out"; "asin_out"; "asinh_out";
     "atan_out"; "atan2_out"; "atanh_out"; "baddbmm_out"; "bernoulli_out";
     "binary_cross_entropy_out"; "binary_cross_entropy_backward_out";
     "clamp_out"; "div_out"; "gather_out"; "ger_out"; "hardsigmoid_out";
     "kthvalue_out"; "index_select_out"; "inverse_out"; "log_out";
     "masked_select_out"; "maximum_out"; "minimum_out"; "pow_out";
     "prod_out"; "nonzero_out"; "round_out"; "normal_out"; "std_out";
     "take_out"; "topk_out"; "var_out"]%string.

Definition remap_to (n : string) (checks : option (list (nat * nat)))
  : FuncOpts :=
  mkFuncOpts None None None None (Some (s n)) checks.

Definition _FN_REMAP : dict FuncOpts :=
  [(s "_th_eq(Tensor, Scalar) -> Tensor", remap_to "AtenXlaType::eq" None);
   (s "_th_eq(Tensor, Tensor) -> Tensor", remap_to "AtenXlaType::eq" None);
   (s "_th_ge(Tensor, Scalar) -> Tensor", remap_to "AtenXlaType::ge" None);
   (s "_th_ge(Tensor, Tensor) -> Tensor", remap_to "AtenXlaType::ge" None);
   (s "_th_gt(Tensor, Scalar) -> Tensor", remap_to "AtenXlaType::gt" None);
   (s "_th_gt(Tensor, Tensor) -> Tensor", remap_to "AtenXlaType::gt" None);
   (s "_th_le(Tensor, Scalar) -> Tensor", remap_to "AtenXlaType::le" None);
   (s "_th_le(Tensor, Tensor) -> Tensor", remap_to "AtenXlaType::le" None);
   (s "_th_lt(Tensor, Scalar) -> Tensor", remap_to "AtenXlaType::lt" None);
   (s "_th_lt(Tensor, Tensor) -> Tensor", remap_to "AtenXlaType::lt" None);
   (s "_th_ne(Tensor, Scalar) -> Tensor", remap_to "AtenXlaType::ne" None);
   (s "_th_ne(Tensor, Tensor) -> Tensor", remap_to "AtenXlaType::ne" None);
   (s "s__th_and(Tensor, Tensor) -> Tensor",
    remap_to "AtenXlaType::__and__" (Some [(0, 1)%nat]));
   (s "s__th_or(Tensor, Tensor) -> Tensor",
    remap_to "AtenXlaType::__or__" (Some [(0, 1)%nat]));
   (s "s__th_eq(Tensor, Tensor) -> Tensor",
    remap_to "AtenXlaType::eq" (Some [(0, 1)%nat]))].

Definition _TYPE_NSMAP : dict str :=
  map (fun p => (s (fst p), s (snd p)))
    [("Tensor", "at::Tensor"); ("TensorList", "at::TensorList");
     ("Scalar", "at::Scalar"); ("Storage", "at::Storage");
     ("IntList", "at::IntList"); ("IntArrayRef", "at::IntArrayRef");
     ("ArrayRef", "at::ArrayRef"); ("Generator", "at::Generator");
     ("Layout", "at::Layout"); ("ScalarType", "at::ScalarType");
     ("TensorOptions", "at::TensorOptions");
     ("SparseTensorRef", "at::SparseTensorRef"); ("Device", "c10::Device");
     ("optional", "c10::optional"); ("MemoryFormat", "at::MemoryFormat");
     ("QScheme", "at::QScheme");
     ("ConstQuantizerPtr", "at::ConstQuantizerPtr");
     ("Dimname", "at::Dimname"); ("DimnameList", "at::DimnameList")]%string.

Definition _FUNCTION_OPTIONS : dict FuncOpts :=
  [(s "slice(Tensor, int64_t, int64_t, int64_t, int64_t) -> Tensor",
    mkFuncOpts None None (Some [s "self"]) None None None)].

(** [re.match(r'[^(]*cudnn', x)]: [cudnn] occurs in [x] with no open
    parenthesis in front of it. *)
Fixpoint match_cudnn (x : str) : bool :=
  is_prefix (s "cudnn") x
  || match x with
     | [] => false
     | c :: r => negb (Ascii.eqb c "("%char) && match_cudnn r
     end.

Definition is_blacklisted_fn (fname mapsig : str) : bool :=
  if mem fname _FN_BLACKLIST || mem mapsig _FN_BLACKLIST then true
  else match_cudnn fname || match_cudnn mapsig.

Definition get_outfn_options (fname mapsig : str) : option FuncOpts :=
  or_else (dict_get _FN_OUT fname) (dict_get _FN_OUT mapsig).

Definition get_remapfn_options (fname mapsig : str) : option FuncOpts :=
  or_else (dict_get _FN_REMAP fname) (dict_get _FN_REMAP mapsig).

(** ** The wrapper of one declaration *)

Section Wrapper.

(** The two lark parsers, as functions of the text; [None] is a parse
    error. *)
Variable _PARSER _XPARSER : str -> option Tree.
Variable expand_fn_template : str -> list str -> option str.

Definition rewrite_signature (sig : str) (tmap : dict str) : option str :=
  xtree <- _XPARSER sig ;;
  rewrite_sig (rewrite_tokens tmap xtree) sig defval_emit_fn.

Definition gen_fnname (x : str) : str := s "AtenXlaTypeDefault::" ++ x.

Definition get_xla_wrapper (fndef : FuncDef) (ctx : Context)
  : option FuncGen :=
  tree <- _PARSER (fd_cpp_sig fndef) ;;
  xtree <- _XPARSER (fd_cpp_sig fndef) ;;
  mapsig <- create_map_sig xtree (fd_cpp_sig fndef) ;;
  rwsig <- rewrite_signature (fd_cpp_sig fndef) _TYPE_NSMAP ;;
  rwxtree <- _XPARSER rwsig ;;
  params <- get_parameters tree ;;
  let fnopts := dict_get _FUNCTION_OPTIONS mapsig in
  sfx <- get_function_signature rwxtree rwsig gen_fnname ;;
  let '(sig, fname, xfname) := sfx in
  code <-
    (if negb (is_blacklisted_fn fname mapsig) then
       match get_outfn_options fname mapsig,
             get_remapfn_options fname mapsig with
       | Some ofnopts, _ =>
           c <- generate_aten_out expand_fn_template tree rwxtree fname sig
                  rwsig params ofnopts ;;
           Some (Some c)
       | None, Some rfnopts =>
           c <- generate_aten_remap expand_fn_template fname sig params
                  rfnopts ;;
           Some (Some c)
       | None, None =>
           c <- generate_aten_to_xla ctx tree rwxtree fname sig rwsig params
                  fnopts ;;
           Some (Some c)
       end
     else Some None) ;;
  funsig <- create_stdfunc_sig rwxtree rwsig ;;
  Some {| tree := tree; xtree := xtree; rwxtree := rwxtree; func := fname;
          xfunc := xfname; code := code; sig := fd_cpp_sig fndef;
          rwsig := rwsig; cppsig := sig; funsig := funsig; mapsig := mapsig;
          aten_sig := fd_aten_sig fndef; dispatch := fd_dispatch fndef;
          math := fd_math fndef |}.

End Wrapper.

(** A parser given by the table of the texts it accepts. *)
Definition table_parser (tbl : dict Tree) (x : str) : option Tree :=
  dict_get tbl x.

(** The record [get_xla_wrapper] builds for [max_pool2d] when it is neither
    a dispatch entry nor overridden; the namespace-rewritten fields are those
    of [at::Tensor max_pool2d(const at::Tensor & self, at::IntArrayRef ...)]. *)
Definition sig_max_pool2d_rw : signature :=
  decl (ty true "at::Tensor") "max_pool2d" (par (cref true "at::Tensor") "self")
    [par (ty false "at::IntArrayRef") "kernel_size";
     par (ty false "at::IntArrayRef") "stride";
     par (ty false "at::IntArrayRef") "padding";
     par (ty false "at::IntArrayRef") "dilation";
     par (ty false "bool") "ceil_mode"].

Definition cppsig_max_pool2d : str :=
  s "at::Tensor AtenXlaTypeDefault::max_pool2d(const at::Tensor & self, at::IntArrayRef kernel_size, at::IntArrayRef stride, at::IntArrayRef padding, at::IntArrayRef dilation, bool ceil_mode)".

Definition fndef_max_pool2d : FuncDef :=
  mkFuncDef (text sig_max_pool2d)
    (s "aten::max_pool2d(Tensor self, int[2] kernel_size, int[2] stride=[], int[2] padding=0, int[2] dilation=1, bool ceil_mode=False) -> Tensor")
    false false.

Definition fgen_max_pool2d : FuncGen :=
  {| tree := parse sig_max_pool2d;
     xtree := xparse sig_max_pool2d;
     rwxtree := xparse sig_max_pool2d_rw;
     func := s "max_pool2d";
     xfunc := s "AtenXlaTypeDefault::max_pool2d";
     code := generate_aten_to_xla ctx_without_add (parse sig_max_pool2d)
               (xparse sig_max_pool2d_rw) (s "max_pool2d") cppsig_max_pool2d
               (text sig_max_pool2d_rw) (params_of sig_max_pool2d) None;
     sig := text sig_max_pool2d;
     rwsig := text sig_max_pool2d_rw;
     cppsig := cppsig_max_pool2d;
     funsig := s "at::Tensor(const at::Tensor &, at::IntArrayRef, at::IntArrayRef, at::IntArrayRef, at::IntArrayRef, bool)";
     mapsig := s "max_pool2d(Tensor, IntArrayRef, IntArrayRef, IntArrayRef, IntArrayRef, bool) -> Tensor";
     aten_sig := fd_aten_sig fndef_max_pool2d;
     dispatch := false;
     math := false |}.

Definition parser_max_pool2d : str -> option Tree :=
  table_parser [(text sig_max_pool2d, parse sig_max_pool2d)].

Definition xparser_max_pool2d : str -> option Tree :=
  table_parser [(text sig_max_pool2d, xparse sig_max_pool2d);
                (text sig_max_pool2d_rw, xparse sig_max_pool2d_rw)].

(** [bool cudnn_is_acceptable(const Tensor & self)] *)
Definition sig_cudnn : signature :=
  decl (ty true "bool") "cudnn_is_acceptable" (par (cref true "Tensor") "self")
    [].

Definition sig_cudnn_rw : signature :=
  decl (ty true "bool") "cudnn_is_acceptable"
    (par (cref true "at::Tensor") "self") [].


Definition parser_cudnn : str -> option Tree :=
  table_parser [(text sig_cudnn, parse sig_cudnn)].

Definition xparser_cudnn : str -> option Tree :=
  table_parser [(text sig_cudnn, xparse sig_cudnn);
                (text sig_cudnn_rw, xparse sig_cudnn_rw)].

Definition ov_cudnn : dict str :=
  [(s "cudnn_is_acceptable(Tensor)->bool", text sig_cudnn)].

(** ** Declaration extraction *)

(** Characters of [\w], among the ASCII ones. *)
Definition is_word_char (c : ascii) : bool :=
  let n := N_of_ascii c in
  ((97 <=? n) && (n <=? 122) || (65 <=? n) && (n <=? 90)
   || (48 <=? n) && (n <=? 57) || (n =? 95))%N.

Definition at_boundary (r : str) : bool :=
  match r with
  | [] => true
  | c :: _ => negb (is_word_char c)
  end.

(** [re.search(r'\bW\b', x)] for a word [W] that starts and ends with a word
    character; [prev] tells whether the character in front of [x] is one. *)
Fixpoint word_search (w x : str) (prev : bool) : bool :=
  (negb prev && is_prefix w x && at_boundary (skipn (List.length w) x))
  || match x with
     | [] => false
     | c :: r => word_search w r (is_word_char c)
     end.

Definition is_tensor_api (fndef : str) : bool * str :=
  let fndef := replace fndef (s "at::") [] in
  let fndef := replace fndef (s "c10::Device") (s "Device") in
  (word_search (s "Tensor") fndef false, fndef).

Record Extracted := mkExtracted {
  functions : list FuncDef;
  errors : list (str * str);
  elog : list str
}.

Section Extraction.

Variable _XPARSER : str -> option Tree.

(** The two groups of the [re.match] on a line [SIGNATURE; // JSON]:
    the signature and the JSON text. *)
Variable match_decl : str -> option (str * str).

(** [create_funcdef]: the JSON text is read by Python's [json] module. *)
Variable create_funcdef : str -> str -> option FuncDef.

(** [str(e)] for the exception raised on a declaration. *)
Variable failure_text : str -> str -> str.

(** The body of the loop of [extract_functions]. *)
Definition extract_step (ex : Extracted) (line : str) : Extracted :=
  match match_decl line with
  | None => ex
  | Some (fndef, jdata) =>
      match (_ <- _XPARSER fndef ;; create_funcdef fndef jdata) with
      | Some fd => mkExtracted (functions ex ++ [fd]) (errors ex) (elog ex)
      | None =>
          if fst (is_tensor_api fndef) then
            let e := failure_text fndef jdata in
            mkExtracted (functions ex) (errors ex ++ [(fndef, e)])
              (elog ex ++ [s "Error parsing " ++ dq ++ fndef ++ dq ++ s ": "
                           ++ e])
          else ex
      end
  end.

Definition extract_functions (lines : list str) : Extracted :=
  fold_left extract_step lines (mkExtracted [] [] []).

End Extraction.

(** ** The whole run *)

Definition generate_functions (fgens : list FuncGen) (overrides : dict str)
  : str :=
  flat_map (fun fgen =>
              if truthy (code fgen) && requires_registration fgen overrides
              then fmt (code fgen) ++ nl ++ nl else [])
    fgens.

Definition generate_class_functions (fgens : list FuncGen)
  (overrides : dict str) : str :=
  flat_map (fun fgen =>
              if truthy (code fgen) && requires_registration fgen overrides
              then s "  static " ++ rwsig fgen ++ s ";" ++ nl else [])
    fgens.

Definition _H_HEADER (gen hfuncs : str) : str :=
  s "// Autogenerated file by " ++ gen ++ s ". Do not edit directly!" ++ nl
  ++ nl ++ s "#include <ATen/Tensor.h>" ++ nl ++ nl
  ++ s "namespace torch_xla {" ++ nl ++ nl
  ++ s "class AtenXlaTypeDefault {" ++ nl ++ s " public:" ++ nl
  ++ hfuncs ++ nl ++ s "};" ++ nl ++ nl
  ++ s "void RegisterAtenTypeFunctions();" ++ nl ++ nl
  ++ s "}  // namespace torch_xla" ++ nl.

Definition include (path : string) : str :=
  s "#include " ++ dq ++ s path ++ dq ++ nl.

Definition _CPP_HEADER (gen funcs regs : str) : str :=
  s "// Autogenerated file by " ++ gen ++ s ". Do not edit directly!" ++ nl
  ++ include "torch_xla/csrc/aten_xla_type_default.h" ++ nl
  ++ s "#include <ATen/Context.h>" ++ nl
  ++ s "#include <torch/library.h>" ++ nl
  ++ s "#include <ATen/CPUGeneratorImpl.h>" ++ nl ++ nl
  ++ include "tensorflow/compiler/xla/xla_client/debug_macros.h"
  ++ include "tensorflow/compiler/xla/xla_client/metrics.h"
  ++ include "tensorflow/compiler/xla/xla_client/tf_logging.h"
  ++ include "torch_xla/csrc/aten_xla_bridge.h"
  ++ include "torch_xla/csrc/aten_xla_type.h"
  ++ include "torch_xla/csrc/function_call_tracker.h" ++ nl
  ++ s "namespace torch_xla {" ++ nl ++ nl
  ++ funcs ++ nl ++ nl ++ regs ++ nl
  ++ s "}  // namespace torch_xla" ++ nl.

(** What a run leaves: the lines written to the error stream, and the two
    files, or [None] when the run aborted. *)
Record Run := mkRun {
  stderr : list str;
  output : option (str * str)
}.

Section Generate.

Variable _PARSER _XPARSER : str -> option Tree.
Variable expand_fn_template : str -> list str -> option str.
Variable match_decl : str -> option (str * str).
Variable create_funcdef : str -> str -> option FuncDef.
Variable failure_text : str -> str -> str.

(** The line reported for a declaration whose wrapper raised. *)
Variable wrapper_failure : FuncDef -> str.

(** [args.typedef], [args.xlatype] and the name of the script. *)
Variable typedef xlatype gen : str.

(** The loop of [generate] over the declarations. *)
Fixpoint wrappers (ctx : Context) (fndefs : list FuncDef)
  (fgens : list FuncGen) (log : list str) : list FuncGen * list str :=
  match fndefs with
  | [] => (fgens, log)
  | ts :: r =>
      match get_xla_wrapper _PARSER _XPARSER expand_fn_template ts ctx with
      | Some fgen => wrappers ctx r (fgens ++ [fgen]) log
      | None => wrappers ctx r fgens (log ++ [wrapper_failure ts])
      end
  end.

(** [generate], from the lines of the declaration source, the override
    table read by [parse_local_overrides], and the function-existence text. *)
Definition generate (lines : list str) (overrides : dict str)
  (ctx : Context) : Run :=
  let ex := extract_functions _XPARSER match_decl create_funcdef failure_text
              lines in
  let log :=
    elog ex
    ++ [s "Extracted " ++ str_of_nat (List.length (functions ex))
        ++ s " functions (" ++ str_of_nat (List.length (errors ex))
        ++ s " errors) from " ++ typedef] in
  if negb (Nat.eqb (List.length (errors ex)) 0) then mkRun log None
  else
    let log := log ++ [str_of_nat (List.length overrides)
                       ++ s " function overrides in " ++ xlatype] in
    let '(fgens, log) := wrappers ctx (functions ex) [] log in
    let log := log ++ [s "Generated " ++ str_of_nat (List.length fgens)
                       ++ s " wrappers for " ++ typedef] in
    let functions := generate_functions fgens overrides in
    let hfunctions := generate_class_functions fgens overrides in
    match generate_registrations fgens overrides with
    | None => mkRun log None
    | Some (regs, overridden) =>
        let '(ok, misses) := check_overrides overrides overridden in
        if ok
        then mkRun (log ++ misses)
               (Some (_H_HEADER gen hfunctions ++ nl,
                      _CPP_HEADER gen functions regs ++ nl))
        else mkRun (log ++ misses) None
    end.

End Generate.

(** What one line of the declaration source contributes. *)
Section Contribution.

Variable _XPARSER : str -> option Tree.
Variable match_decl : str -> option (str * str).
Variable create_funcdef : str -> str -> option FuncDef.
Variable failure_text : str -> str -> str.


Definition contribution (line : str) : Extracted :=
  extract_step _XPARSER match_decl create_funcdef failure_text
    (mkExtracted [] [] []) line.

End Contribution.


(** The first lines of the error stream of a run: the parse errors, then the
    count of what was extracted. *)
Definition extraction_log (typedef : str) (ex : Extracted) : list str :=
  elog ex
  ++ [s "Extracted " ++ str_of_nat (List.length (functions ex))
      ++ s " functions (" ++ str_of_nat (List.length (errors ex))
      ++ s " errors) from " ++ typedef].

(** ** An example run *)

Definition line_cudnn : str :=
  text sig_cudnn ++ s "; // {schema: aten::cudnn_is_acceptable(Tensor self) -> bool}".

(** [Tensor broken(Tensor, x)], which the grammar rejects, and a line
    without the tensor type. *)
Definition line_broken_tensor : str := s "Tensor broken(Tensor, x); // {}".
Definition line_broken_other : str := s "int broken(int, x); // {}".

Definition match_decl_example (line : str) : option (str * str) :=
  if str_eqb line line_cudnn
  then Some (text sig_cudnn,
             s "{schema: aten::cudnn_is_acceptable(Tensor self) -> bool}")
  else if str_eqb line line_broken_tensor
  then Some (s "Tensor broken(Tensor, x)", s "{}")
  else if str_eqb line line_broken_other
  then Some (s "int broken(int, x)", s "{}")
  else None.

Definition create_funcdef_example (fndef jdata : str) : option FuncDef :=
  Some (mkFuncDef fndef (s "aten::cudnn_is_acceptable(Tensor self) -> bool")
          false false).

Definition failure_text_example (fndef jdata : str) : str :=
  s "No terminal defined".

Definition wrapper_failure_example (fd : FuncDef) : str :=
  s "Failed to generate wrapper for " ++ fd_cpp_sig fd.

(** An override table with an entry that no declaration matches. *)
Definition ov_unused : dict str :=
  ov_cudnn ++ [(s "gone(Tensor)->Tensor", s "Tensor gone(const Tensor & self)")].

Definition run_example (lines : list str) (overrides : dict str) : Run :=
  generate parser_cudnn xparser_cudnn no_template match_decl_example
    create_funcdef_example failure_text_example wrapper_failure_example
    (s "TypeDefault.h") (s "aten_xla_type.h") (s "gen.py")
    lines overrides ctx_without_add.



(** ** The namespace-rewritten signature as a derivation

    [rewrite_signature] maps the type names through the table and leaves the
    default values out; its result is the text of the derivation [rw_sig],
    which is what the second call of [_XPARSER] in [get_xla_wrapper] reads. *)

Definition map_name (tmap : dict str) (n : str) : str :=
  match dict_get tmap n with
  | Some v => v
  | None => n
  end.

Fixpoint rw_type (tmap : dict str) (t : type_) : type_ :=
  match t with
  | Ty cst core rs => Ty cst (rw_core tmap core) rs
  end
with rw_core (tmap : dict str) (c : core_type) : core_type :=
  match c with
  | CName g n => CName g (map_name tmap n)
  | CTemplate g n glt args ggt =>
      CTemplate g (map_name tmap n) glt (rw_typelist tmap args) ggt
  end
with rw_typelist (tmap : dict str) (l : typelist) : typelist :=
  match l with
  | TLOne t => TLOne (rw_type tmap t)
  | TLCons t g r => TLCons (rw_type tmap t) g (rw_typelist tmap r)
  end.

Definition rw_param (tmap : dict str) (p : param) : param :=
  mkParam (rw_type tmap (p_type p)) (p_gname p) (p_name p) None.

Fixpoint rw_params (tmap : dict str) (ps : params) : params :=
  match ps with
  | POne p => POne (rw_param tmap p)
  | PCons p g r => PCons (rw_param tmap p) g (rw_params tmap r)
  end.

(** A type without the gap in front of its first token. *)
Definition strip_lead (t : type_) : type_ :=
  match t with
  | Ty (Some _) core rs => Ty (Some []) core rs
  | Ty None (CName _ n) rs => Ty None (CName [] n) rs
  | Ty None (CTemplate _ n glt args ggt) rs =>
      Ty None (CTemplate [] n glt args ggt) rs
  end.

Definition rw_sig (tmap : dict str) (sg : signature) : signature :=
  mkSig (strip_lead (rw_type tmap (s_type sg))) (s_gname sg) (s_name sg)
    (s_glpar sg) (rw_params tmap (s_params sg)) (s_grpar sg) [].

Definition defval_nd (d : str) : Z :=
  if str_eqb d (s "param_defval") then -1 else 0.

Definition stdfunc_nd (d : str) : Z :=
  if str_eqb d (s "param_name") then -1 else 0.

(** The derivation an emission reads, for a decision function that keeps
    every token: the subtrees it skips are left out and the type names are
    mapped. *)
Fixpoint lrw (tmap : dict str) (nd : str -> Z) (t : LTree) : LTree :=
  match t with
  | LTok l => LTok (mkLex (l_type l) (l_gap l) (lval tmap l))
  | LNode d ks =>
      LNode d
        ((fix go (l : list LTree) : list LTree :=
            match l with
            | [] => []
            | c :: r =>
                match c with
                | LNode d' _ =>
                    if nd d' <? 0 then go r else lrw tmap nd c :: go r
                | LTok _ => lrw tmap nd c :: go r
                end
            end) ks)
  end.

Fixpoint lrw_list (tmap : dict str) (nd : str -> Z) (l : list LTree)
  : list LTree :=
  match l with
  | [] => []
  | c :: r =>
      match c with
      | LNode d' _ =>
          if nd d' <? 0 then lrw_list tmap nd r
          else lrw tmap nd c :: lrw_list tmap nd r
      | LTok _ => lrw tmap nd c :: lrw_list tmap nd r
      end
  end.

(** [rw_sig] before the gap in front of its first token is removed. *)
Definition rw_sig_gaps (tmap : dict str) (sg : signature) : signature :=
  mkSig (rw_type tmap (s_type sg)) (s_gname sg) (s_name sg)
    (s_glpar sg) (rw_params tmap (s_params sg)) (s_grpar sg) [].

(** ** Notions used to state what the generator does *)

(** [w] occurs in [x] with no open parenthesis in front of it. *)
Definition before_paren (w x : str) : Prop :=
  exists pre post, x = pre ++ w ++ post /\ ~ In "("%char pre.

(** The statement [generate_unboxed] writes for the operator [name]. *)
Definition unboxed_line (name overload override_fn : str) : str :=
  s "  m.impl_UNBOXED(" ++ dq ++ name ++ dq ++ s ", static_cast<" ++ overload
  ++ s ">(&" ++ override_fn ++ s "));" ++ nl.

(** A schema [NS::NAME(...]: neither the namespace nor the operator name holds
    a colon or an open parenthesis. *)
Definition schema_of (ns name rest : str) : str :=
  ns ++ s "::" ++ name ++ s "(" ++ rest.

Definition plain_name (x : str) : Prop :=
  ~ In ":"%char x /\ ~ In "("%char x.

Definition schema_ok (a : str) : Prop :=
  exists ns name rest,
    a = schema_of ns name rest /\ plain_name ns /\ plain_name name.

(** The canonical key of a record. *)
Definition key_of (fgen : FuncGen) : str := get_mapsig_key (mapsig fgen).

(** The keys of an override table are canonical, as [parse_local_overrides]
    writes them. *)
Definition canonical_keys (overrides : dict str) : Prop :=
  forall k v, In (k, v) overrides -> get_mapsig_key k = k.

(** Both indices of a shape check name a parameter. *)
Definition in_range (n : nat) (ij : nat * nat) : bool :=
  (fst ij <? n)%nat && (snd ij <? n)%nat.

Definition shape_check_line (pv : list str) (fname : str) (ij : nat * nat)
  : str :=
  s "  XLA_CHECK(" ++ nth (fst ij) pv [] ++ s ".sizes() == "
  ++ nth (snd ij) pv [] ++ s ".sizes()) << " ++ dq
  ++ s "Operand shapes must be identical for " ++ fname
  ++ s ", mismatch for arguments " ++ str_of_nat (fst ij + 1)
  ++ s " and " ++ str_of_nat (snd ij + 1) ++ dq ++ s ";" ++ nl.

(** The body of a remapped function. *)
Definition remap_body (sig fname target : str) (pv : list str)
  (ix : list (nat * nat)) : str :=
  sig ++ s " {" ++ nl ++ flat_map (shape_check_line pv fname) ix
  ++ s "  return " ++ target ++ s "(" ++ join (s ", ") pv ++ s ");" ++ nl
  ++ s "}".

(** Remap options as the entries of [_FN_REMAP] give them. *)
Definition remap_opts (target : str) (checks : option (list (nat * nat)))
  : FuncOpts :=
  mkFuncOpts None None None None (Some target) checks.

Definition checked_pairs (checks : option (list (nat * nat)))
  : list (nat * nat) :=
  match checks with Some ix => ix | None => [] end.

(** The records built for a list of declarations, and the lines reported for
    those whose wrapper raised. *)
Definition wrapped (P XP : str -> option Tree)
  (expand : str -> list str -> option str) (ctx : Context)
  (fndefs : list FuncDef) : list FuncGen :=
  flat_map (fun ts => opt_list (get_xla_wrapper P XP expand ts ctx)) fndefs.

Definition failures (P XP : str -> option Tree)
  (expand : str -> list str -> option str) (wrapper_failure : FuncDef -> str)
  (ctx : Context) (fndefs : list FuncDef) : list str :=
  flat_map (fun ts =>
              match get_xla_wrapper P XP expand ts ctx with
              | Some _ => []
              | None => [wrapper_failure ts]
              end) fndefs.

(** Every index to update names a fetched tensor. *)
Definition fetcher_ok (f : TensorFetcher) : Prop :=
  Forall (fun i => (i < List.length (tensors f))%nat) (writeable f).

(** The receiver of a member call is one of the converted parameters. *)
Definition ref_in (st : Bridging) : Prop :=
  exists x, b_xla_ref_param st = Some x /\ In x (b_param_vars st).

(** No [ref_param] is set by the policy options. *)
Definition no_explicit_ref (fnopts : option FuncOpts) : Prop :=
  truthy (get_optional fnopts ref_param None) = false.

(** The state [generate_aten_to_xla] starts its loop from. *)
Definition bridging_start (code : str) (xla_ref_param : option str)
  : Bridging :=
  mkBridging code (new_fetcher (s "xlatens")) [] xla_ref_param.

(** ** What the projections read of a derivation *)

Definition core_name (t : type_) : str :=
  match t with
  | Ty _ (CName _ n) _ => n
  | Ty _ (CTemplate _ n _ _ _) _ => n
  end.

Definition is_const (t : type_) : bool :=
  match t with
  | Ty (Some _) _ _ => true
  | Ty None _ _ => false
  end.

Definition ref_kind (t : type_) : option refkind :=
  match t with
  | Ty _ _ (Some (_, k)) => Some k
  | Ty _ _ None => None
  end.

Definition is_ref (t : type_) : bool :=
  match ref_kind t with Some REF => true | _ => false end.

Definition is_ptr (t : type_) : bool :=
  match ref_kind t with Some PTR => true | _ => false end.

(** The queries on the tree [T] of a type answer as the type [t] is
    written. *)
Definition queries_agree (T : Tree) (t : type_) : Prop :=
  type_core T = Some (core_name t)
  /\ type_is_const T = Some (is_const t)
  /\ type_is_refptr T (s "&") = Some (is_ref t)
  /\ type_is_refptr T (s "*") = Some (is_ptr t).

Fixpoint params_list (ps : params) : list param :=
  match ps with
  | POne p => [p]
  | PCons p _ r => p :: params_list r
  end.

(** The trees of the parameters in the reduced tree of a parameter list whose
    text starts at offset [o]. *)
Fixpoint ptrees (o : Z) (ps : params) : list Tree :=
  match ps with
  | POne p => [reduce (place o (lt_param p))]
  | PCons p g r =>
      reduce (place o (lt_param p))
      :: ptrees (o + len (ltext (lt_param p))
                 + len (ltext (lx "COMMA" g (s ",")))) r
  end.

(** The tree [T] of a parameter answers as the parameter [p] is written. *)
Definition param_agrees (T : Tree) (p : param) : Prop :=
  param_name T = Some (p_name p)
  /\ exists pt, param_type T = Some pt /\ queries_agree pt (p_type p).

(** An emitter state reached from another by appending text. *)
Definition appends (e e' : StringEmit) : Prop :=
  sref e' = sref e /\ exists x, sval e' = sval e ++ x.

(** No name a table maps to is itself mapped to another name. *)
Definition settled (tmap : dict str) : Prop :=
  forall n, map_name tmap (map_name tmap n) = map_name tmap n.

(** ** The override table ([parse_local_overrides]) *)

(** [str.isspace], which is also the class [\s] of a pattern on text, for the
    characters below 256. *)
Definition is_space (c : ascii) : bool :=
  let n := N_of_ascii c in
  ((9 <=? n) && (n <=? 13) || (28 <=? n) && (n <=? 31) || (n =? 32)
   || (n =? 133) || (n =? 160))%N.

Fixpoint lstrip (x : str) : str :=
  match x with
  | c :: r => if is_space c then lstrip r else x
  | [] => []
  end.

(** [x.strip()] *)
Definition strip (x : str) : str := rev (lstrip (rev (lstrip x))).

(** The longest text [.*] matches at the start of [x]: a dot matches no line
    break. *)
Fixpoint dot_star (x : str) : str :=
  match x with
  | c :: r => if Ascii.eqb c "010"%char then [] else c :: dot_star r
  | [] => []
  end.

(** What follows [static\s+] at the start of a line, once the white space is
    matched as far as it goes. *)
Definition after_static (line : str) : option str :=
  if is_prefix (s "static") line then
    match skipn 6 line with
    | c :: r => if is_space c then Some (lstrip r) else None
    | [] => None
    end
  else None.

(** [x[:i]] for the last [i] such that [x[i]] is a semicolon. *)
Fixpoint upto_last_semi (x : str) : option str :=
  match x with
  | [] => None
  | c :: r =>
      match upto_last_semi r with
      | Some y => Some (c :: y)
      | None => if Ascii.eqb c ";"%char then Some [] else None
      end
  end.

(** The group of [re.match] on a line, for the pattern that reads [static],
    white space, a group of any characters and a semicolon, and for the same
    pattern without the semicolon. *)
Definition match_static_semi (line : str) : option str :=
  r <- after_static line ;; upto_last_semi (dot_star r).

Definition match_static (line : str) : option str :=
  r <- after_static line ;; Some (dot_star r).

(** [x.endswith(';')] *)
Definition ends_with_semi (x : str) : bool :=
  match rev x with
  | c :: _ => Ascii.eqb c ";"%char
  | [] => false
  end.

(** The declarations found so far, and the one whose end is awaited. *)
Record Pending := mkPending {
  found : list str;
  pending : option str
}.

(** The body of the first loop of [parse_local_overrides]. *)
Definition overrides_step (st : Pending) (line : str) : Pending :=
  let line := strip line in
  if negb (truthy (pending st)) then
    match match_static_semi line with
    | Some g => mkPending (found st ++ [g]) (pending st)
    | None =>
        match match_static line with
        | Some g => mkPending (found st) (Some g)
        | None => st
        end
    end
  else
    let fndef := fmt (pending st) ++ s " " ++ line in
    if ends_with_semi fndef
    then mkPending (found st ++ [removelast fndef]) None
    else mkPending (found st) (Some fndef).

(** [d[k] = v] *)
Fixpoint dict_set {V} (d : dict V) (k : str) (v : V) : dict V :=
  match d with
  | [] => [(k, v)]
  | (k', v') :: r =>
      if str_eqb k k' then (k', v) :: r else (k', v') :: dict_set r k v
  end.

(** The second loop of [parse_local_overrides]. *)
Fixpoint overrides_table (_XPARSER : str -> option Tree)
  (functions : list str) (overrides : dict str) : option (dict str) :=
  match functions with
  | [] => Some overrides
  | fndef :: r =>
      let '(is_tensor, fndef) := is_tensor_api fndef in
      if is_tensor then
        xtree <- _XPARSER fndef ;;
        mapsig <- create_map_sig xtree fndef ;;
        overrides_table _XPARSER r
          (dict_set overrides (get_mapsig_key mapsig) fndef)
      else overrides_table _XPARSER r overrides
  end.

(** [parse_local_overrides], from the lines of the file. *)
Definition parse_local_overrides (_XPARSER : str -> option Tree)
  (lines : list str) : option (dict str) :=
  let st := fold_left overrides_step lines (mkPending [] None) in
  match pending st with
  | None => overrides_table _XPARSER (found st) []
  | Some _ => None
  end.

(** White space that is not empty. *)
Definition blank (ws : str) : Prop := ws <> [] /\ forallb is_space ws = true.

(** The text of a declaration on one line: no line break, first character
    no white space. *)
Definition on_one_line (a : str) : Prop :=
  lstrip a = a /\ ~ In "010"%char a.

(** The lines read so far leave no declaration awaiting its end. *)
Definition settled_after (lines : list str) : Prop :=
  truthy (pending (fold_left overrides_step lines (mkPending [] None)))
  = false.

Definition line_cudnn_override : str :=
  s "  static bool cudnn_is_acceptable(const at::Tensor & self);" ++ nl.



(** ** The function type of a signature *)

(** The names of the nodes of a derivation. *)
Fixpoint node_names (t : LTree) : list str :=
  match t with
  | LTok _ => []
  | LNode d ks => d :: flat_map node_names ks
  end.

Definition type_names : list str :=
  [s "type"; s "core_type"; s "template"; s "typelist"; s "refspec"].

(** A parameter list without the names of the parameters and the gaps in
    front of them. *)
Definition unnamed (p : param) : param :=
  mkParam (p_type p) [] [] (p_defval p).

Fixpoint unnamed_params (ps : params) : params :=
  match ps with
  | POne p => POne (unnamed p)
  | PCons p g r => PCons (unnamed p) g (unnamed_params r)
  end.

(** ** The record of a signature of the grammar *)

(** The C++ signature and the function type of the wrapper, written from the
    namespace-rewritten signature. *)
Definition cppsig_of (sg : signature) : str :=
  let rw := rw_sig _TYPE_NSMAP sg in
  body (lt_type (s_type rw)) ++ s " " ++ gen_fnname (s_name sg) ++ s "("
  ++ body (lt_params (s_params rw)) ++ s ")".

Definition funsig_of (sg : signature) : str :=
  let rw := rw_sig _TYPE_NSMAP sg in
  body (lt_type (s_type rw)) ++ s "("
  ++ body (lt_params (unnamed_params (s_params rw))) ++ s ")".

(** The body of the wrapper, by the strategy that the name and the map
    signature select; the outer [option] is an exception. *)
Definition wrapper_code (expand : str -> list str -> option str)
  (ctx : Context) (sg : signature) : option (option str) :=
  let rw := rw_sig _TYPE_NSMAP sg in
  let fname := s_name sg in
  let mapsig := map_sig_of sg in
  let params := ptrees (len (before_params sg)) (s_params sg) in
  if is_blacklisted_fn fname mapsig then Some None
  else
    match get_outfn_options fname mapsig,
          get_remapfn_options fname mapsig with
    | Some ofnopts, _ =>
        c <- generate_aten_out expand (parse sg) (xparse rw) fname
               (cppsig_of sg) (text rw) params ofnopts ;;
        Some (Some c)
    | None, Some rfnopts =>
        c <- generate_aten_remap expand fname (cppsig_of sg) params rfnopts ;;
        Some (Some c)
    | None, None =>
        c <- generate_aten_to_xla ctx (parse sg) (xparse rw) fname
               (cppsig_of sg) (text rw) params
               (dict_get _FUNCTION_OPTIONS mapsig) ;;
        Some (Some c)
    end.

Definition wrapper_record (sg : signature) (aten : str) (d m : bool)
  (code : option str) : FuncGen :=
  let rw := rw_sig _TYPE_NSMAP sg in
  {| tree := parse sg; xtree := xparse sg; rwxtree := xparse rw;
     func := s_name sg; xfunc := gen_fnname (s_name sg); code := code;
     sig := text sg; rwsig := text rw; cppsig := cppsig_of sg;
     funsig := funsig_of sg; mapsig := map_sig_of sg; aten_sig := aten;
     dispatch := d; math := m |}.

(** * Properties *)

(** ** Strings and slices *)

Lemma len_app (a b : str) : len (a ++ b) = len a + len b.
Proof. unfold len. rewrite length_app. lia. Qed.

Lemma len_nonneg (a : str) : 0 <= len a.
Proof. unfold len. lia. Qed.

Lemma len_nil_iff (a : str) : len a = 0 <-> a = [].
Proof.
  unfold len. destruct a; simpl; split; intro H; try reflexivity;
    try discriminate; lia.
Qed.

Lemma str_eqb_spec (a b : str) : str_eqb a b = true <-> a = b.
Proof.
  revert b. induction a as [|x a IH]; destruct b as [|y b]; simpl;
    try (split; [discriminate | discriminate]); try tauto.
  rewrite andb_true_iff, Ascii.eqb_eq, IH. split.
  - intros [-> ->]. reflexivity.
  - intros [= -> ->]. auto.
Qed.

Lemma str_eqb_refl (a : str) : str_eqb a a = true.
Proof. apply str_eqb_spec. reflexivity. Qed.

Lemma slice_mid (a g r : str) :
  slice (a ++ g ++ r) (len a) (len a + len g) = g.
Proof.
  unfold slice, len.
  replace (Z.to_nat (Z.of_nat (List.length a))) with (List.length a) by lia.
  replace (Z.to_nat (Z.of_nat (List.length a) + Z.of_nat (List.length g)
                     - Z.of_nat (List.length a)))
    with (List.length g + 0)%nat by lia.
  rewrite skipn_app, skipn_all, Nat.sub_diag. simpl.
  rewrite firstn_app_2. simpl. apply app_nil_r.
Qed.

(** ** The emitter on placed derivations *)

Lemma place_node o d ks : place o (LNode d ks) = Node d (place_list o ks).
Proof.
  reflexivity.
Qed.

Lemma emit_string_node fn d cs e :
  emit_string fn (Node d cs) e =
  if 0 <? fn (Node d cs) then Some (emit_tokens (Node d cs) e)
  else if fn (Node d cs) =? 0 then emit_list fn cs e
  else skip e (Node d cs).
Proof.
  simpl. destruct (0 <? fn (Node d cs)); [reflexivity|].
  destruct (fn (Node d cs) =? 0); [|reflexivity].
  revert e. induction cs as [|c r IH]; intro e; simpl.
  - reflexivity.
  - destruct (emit_string fn c e); [apply IH | reflexivity].
Qed.

Lemma lemit_node tmap td nd d ks tr :
  lemit tmap td nd (LNode d ks) tr =
  if nd d <? 0 then ([], tr)
  else lemit_list tmap (if 0 <? nd d then zero else td)
         (if 0 <? nd d then zero else nd) ks tr.
Proof.
  simpl. destruct (nd d <? 0); [reflexivity|].
  generalize (if 0 <? nd d then zero else td) as td'.
  generalize (if 0 <? nd d then zero else nd) as nd'.
  intros nd' td'. revert tr. induction ks as [|c r IH]; intro tr; simpl.
  - reflexivity.
  - destruct (lemit tmap td' nd' c tr) as [x tr1]. rewrite IH. reflexivity.
Qed.

Lemma emit_tokens_node d cs e :
  emit_tokens (Node d cs) e = emit_tokens_list cs e.
Proof. reflexivity. Qed.

Lemma emit_string_zero (T : Tree) :
  forall e, emit_string (by_kind zero zero) T e = Some (emit_tokens T e).
Proof.
  induction T using Tree_rect' with
    (Q := fun cs => forall e,
            emit_list (by_kind zero zero) cs e = Some (emit_tokens_list cs e)).
  - reflexivity.
  - intro e. rewrite emit_string_node.
    change (by_kind zero zero (Node d cs)) with 0.
    change (0 <? 0) with false. change (0 =? 0) with true. cbv iota.
    rewrite emit_tokens_node. apply IHT.
  - reflexivity.
  - intro e. simpl emit_list. rewrite IHT. apply IHT0.
Qed.

Lemma rewrite_token_fields tmap k :
  ttype (rewrite_token tmap k) = ttype k /\
  column (rewrite_token tmap k) = column k /\
  end_column (rewrite_token tmap k) = end_column k.
Proof.
  unfold rewrite_token. destruct (str_eqb (ttype k) (s "TNAME")); auto.
  destruct (dict_get tmap (value k)); auto.
Qed.

Lemma rewrite_token_value tmap k :
  value (rewrite_token tmap k) = lval tmap (mkLex (ttype k) [] (value k)).
Proof.
  unfold lval, rewrite_token. cbn [ttype value l_type l_text].
  destruct (str_eqb (ttype k) (s "TNAME")); [|reflexivity].
  destruct (dict_get tmap (value k)); reflexivity.
Qed.

Lemma last_match_place tmap (t : LTree) :
  forall o, solid t = true ->
    last_match (rewrite_tokens tmap (place o t)) = Some (o + len (ltext t)).
Proof.
  induction t using LTree_rect' with
    (Q := fun ks => forall o d, ks <> [] -> forallb solid ks = true ->
            last_match (Node d (map (rewrite_tokens tmap) (place_list o ks)))
            = Some (o + len (flat_map ltext ks))).
  - intros o _. simpl.
    destruct (rewrite_token_fields tmap
                {| ttype := l_type l; value := l_text l;
                   column := o + len (l_gap l) + 1;
                   end_column := o + len (l_gap l) + len (l_text l) + 1 |})
      as (_ & _ & ->).
    simpl. rewrite len_app. f_equal. lia.
  - intros o Hs. rewrite place_node. simpl rewrite_tokens.
    simpl in Hs. destruct ks as [|c r]; [discriminate|].
    apply IHt; [discriminate | exact Hs].
  - intros o d H. congruence.
  - rename t into c. intros o d _ Hs. simpl in Hs.
    apply andb_true_iff in Hs as [Hc Hr].
    destruct r as [|c' r'].
    + simpl. rewrite app_nil_r. apply IHt. exact Hc.
    + change (last_match (Node d (map (rewrite_tokens tmap)
                                    (place_list o (c :: c' :: r')))))
        with (last_match (Node d (map (rewrite_tokens tmap)
                                    (place_list (o + len (ltext c)) (c' :: r'))))).
      rewrite IHt0; [|discriminate|exact Hr].
      simpl flat_map. rewrite !len_app. f_equal. lia.
Qed.

Lemma tracking_flag (b : bool) (x : Z) :
  0 <= x -> (0 <=? (if b then x else -1)) = b.
Proof. intro H. destruct b; [apply Z.leb_le; exact H | reflexivity]. Qed.

Lemma advance_placed tmap l A B e :
  sref e = A ++ ltext (LTok l) ++ B ->
  pos e = -1 \/ pos e = len A ->
  advance e (rewrite_token tmap
               {| ttype := l_type l; value := l_text l;
                  column := len A + len (l_gap l) + 1;
                  end_column := len A + len (l_gap l) + len (l_text l) + 1 |})
  = mkEmit (sref e)
      (sval e ++ (if 0 <=? pos e then l_gap l else []) ++ lval tmap l)
      (len A + len (ltext (LTok l))).
Proof.
  intros Hs Hp. unfold advance.
  match goal with |- context [rewrite_token tmap ?k] =>
    destruct (rewrite_token_fields tmap k) as (_ & Hc & He);
    rewrite Hc, He, (rewrite_token_value tmap k)
  end.
  cbn [ttype value column end_column ltext].
  change (lval tmap (mkLex (l_type l) [] (l_text l))) with (lval tmap l).
  rewrite len_app.
  replace (len A + len (l_gap l) + 1 - 1) with (len A + len (l_gap l)) by lia.
  replace (len A + len (l_gap l) + len (l_text l) + 1 - 1)
    with (len A + (len (l_gap l) + len (l_text l))) by lia.
  pose proof (len_nonneg A) as HA. pose proof (len_nonneg (l_gap l)) as Hg.
  destruct Hp as [Hp | Hp]; rewrite Hp.
  - change (0 <=? -1) with false. cbv iota. rewrite Z.ltb_irrefl.
    reflexivity.
  - replace (0 <=? len A) with true by (symmetry; apply Z.leb_le; lia).
    cbv iota. destruct (len A <? len A + len (l_gap l)) eqn:Hlt.
    + simpl in Hs. rewrite <- app_assoc in Hs. rewrite Hs, slice_mid.
      rewrite <- app_assoc. reflexivity.
    + apply Z.ltb_ge in Hlt. assert (l_gap l = []) as ->
        by (apply len_nil_iff; lia).
      reflexivity.
Qed.

Lemma emit_place tmap (t : LTree) :
  forall fn td nd A B e,
    (forall T, fn T = by_kind td nd T) ->
    solid t = true ->
    sref e = A ++ ltext t ++ B ->
    pos e = -1 \/ pos e = len A ->
    emit_string fn (rewrite_tokens tmap (place (len A) t)) e =
    Some (mkEmit (sref e)
            (sval e ++ fst (lemit tmap td nd t (0 <=? pos e)))
            (if snd (lemit tmap td nd t (0 <=? pos e))
             then len A + len (ltext t) else -1)).
Proof.
  induction t using LTree_rect' with
    (Q := fun ks => forall fn td nd A B e,
            (forall T, fn T = by_kind td nd T) ->
            forallb solid ks = true ->
            sref e = A ++ flat_map ltext ks ++ B ->
            pos e = -1 \/ pos e = len A ->
            emit_list fn (map (rewrite_tokens tmap) (place_list (len A) ks)) e =
            Some (mkEmit (sref e)
                    (sval e ++ fst (lemit_list tmap td nd ks (0 <=? pos e)))
                    (if snd (lemit_list tmap td nd ks (0 <=? pos e))
                     then len A + len (flat_map ltext ks) else -1))).
  - (* a token *)
    intros fn td nd A B e Hfn _ Hs Hp.
    cbn [place rewrite_tokens].
    match goal with |- context [rewrite_token tmap ?k] => set (k0 := k) end.
    assert (Hst : fn (Tok (rewrite_token tmap k0)) = td (l_type l)).
    { rewrite Hfn. cbn [by_kind].
      destruct (rewrite_token_fields tmap k0) as (-> & _). reflexivity. }
    cbn [emit_string lemit]. rewrite Hst. cbn [emit_tokens].
    pose proof (advance_placed tmap l A B e Hs Hp) as Hadv. fold k0 in Hadv.
    destruct (td (l_type l) <? 0) eqn:Hneg.
    + apply Z.ltb_lt in Hneg.
      replace (0 <? td (l_type l)) with false by (symmetry; apply Z.ltb_ge; lia).
      replace (td (l_type l) =? 0) with false by (symmetry; apply Z.eqb_neq; lia).
      unfold skip. cbn [fst snd]. rewrite app_nil_r.
      destruct Hp as [Hp | Hp]; rewrite Hp.
      * reflexivity.
      * pose proof (len_nonneg A).
        replace (0 <=? len A) with true by (symmetry; apply Z.leb_le; lia).
        cbn [last_match].
        destruct (rewrite_token_fields tmap k0) as (_ & _ & ->).
        subst k0. cbn [end_column ltext]. rewrite len_app.
        do 2 f_equal. lia.
    + cbn [fst snd]. rewrite Hadv.
      destruct (0 <? td (l_type l)) eqn:Hpos; [reflexivity|].
      destruct (td (l_type l) =? 0) eqn:Hz; [reflexivity|].
      apply Z.ltb_ge in Hneg. apply Z.eqb_neq in Hz.
      apply Z.ltb_ge in Hpos. lia.
  - (* a node *)
    intros fn td nd A B e Hfn Hsol Hs Hp.
    rewrite place_node. cbn [rewrite_tokens].
    rewrite emit_string_node, Hfn. cbn [by_kind]. rewrite lemit_node.
    assert (Hks : forallb solid ks = true /\ ks <> []).
    { simpl in Hsol. destruct ks; [discriminate|]. split; [exact Hsol|discriminate]. }
    destruct Hks as [Hks Hne].
    destruct (0 <? nd d) eqn:Hpos.
    + apply Z.ltb_lt in Hpos.
      replace (nd d <? 0) with false by (symmetry; apply Z.ltb_ge; lia).
      rewrite <- emit_string_zero, emit_string_node.
      change (by_kind zero zero _) with 0.
      change (0 <? 0) with false. change (0 =? 0) with true. cbv iota.
      apply IHt with (B := B); auto.
    + destruct (nd d =? 0) eqn:Hz.
      * apply Z.eqb_eq in Hz. rewrite Hz. change (0 <? 0) with false.
        cbv iota. apply IHt with (B := B); auto.
      * apply Z.ltb_ge in Hpos. apply Z.eqb_neq in Hz.
        replace (nd d <? 0) with true by (symmetry; apply Z.ltb_lt; lia).
        unfold skip. cbn [fst snd]. rewrite app_nil_r.
        destruct Hp as [Hp | Hp]; rewrite Hp.
        -- reflexivity.
        -- pose proof (len_nonneg A).
           replace (0 <=? len A) with true by (symmetry; apply Z.leb_le; lia).
           pose proof (last_match_place tmap (LNode d ks) (len A) Hsol) as Hl.
           rewrite place_node in Hl. cbn [rewrite_tokens] in Hl. rewrite Hl.
           reflexivity.
  - (* no child *)
    intros fn td nd A B e _ _ _ Hp. cbn. rewrite app_nil_r.
    destruct e as [sr sv p]. cbn in *. f_equal. f_equal.
    destruct Hp as [-> | ->].
    + reflexivity.
    + pose proof (len_nonneg A).
      replace (0 <=? len A) with true by (symmetry; apply Z.leb_le; lia). lia.
  - (* a child and its siblings *)
    rename t into c.
    intros fn td nd A B e Hfn Hsol Hs Hp.
    cbn [forallb] in Hsol. apply andb_true_iff in Hsol as [Hc Hr].
    cbn [place_list map emit_list lemit_list flat_map] in *.
    rewrite <- app_assoc in Hs.
    rewrite (IHt fn td nd A (flat_map ltext r ++ B) e Hfn Hc Hs Hp).
    destruct (lemit tmap td nd c (0 <=? pos e)) as [x tr1] eqn:Hx.
    cbn [fst snd].
    set (e1 := mkEmit (sref e) (sval e ++ x)
                 (if tr1 then len A + len (ltext c) else -1)).
    pose proof (len_nonneg A). pose proof (len_nonneg (ltext c)).
    rewrite <- len_app.
    rewrite (IHt0 fn td nd (A ++ ltext c) B e1 Hfn Hr).
    + subst e1. cbn [sref sval pos].
      rewrite len_app, tracking_flag by lia.
      destruct (lemit_list tmap td nd r tr1) as [y tr2].
      cbn [fst snd]. rewrite !len_app, <- app_assoc.
      do 2 f_equal. destruct tr2; [lia | reflexivity].
    + subst e1. cbn [sref]. rewrite Hs, <- app_assoc. reflexivity.
    + subst e1. cbn [pos]. rewrite len_app. destruct tr1; auto.
Qed.

Lemma rewrite_tokens_nil (T : Tree) : rewrite_tokens [] T = T.
Proof.
  induction T using Tree_rect' with
    (Q := fun cs => map (rewrite_tokens []) cs = cs).
  - simpl. unfold rewrite_token. simpl.
    destruct (str_eqb (ttype k) _); reflexivity.
  - simpl. f_equal. exact IHT.
  - reflexivity.
  - simpl. rewrite IHT, IHT0. reflexivity.
Qed.

Lemma lval_nil l : lval [] l = l_text l.
Proof.
  unfold lval, rewrite_token. cbn [ttype value dict_get].
  destruct (str_eqb (l_type l) (s "TNAME")); reflexivity.
Qed.

Lemma ltext_lead_body (t : LTree) :
  solid t = true -> ltext t = lead t ++ body t.
Proof.
  induction t using LTree_rect' with
    (Q := fun ks => forallb solid ks = true ->
            match ks with
            | [] => True
            | c :: r => ltext c = lead c ++ body c
            end).
  - reflexivity.
  - intro Hs. simpl in Hs. destruct ks as [|c r]; [discriminate|].
    simpl. rewrite (IHt Hs). rewrite <- app_assoc. reflexivity.
  - exact (fun _ => I).
  - intro Hs. simpl in Hs. apply andb_true_iff in Hs as [Hc _]. auto.
Qed.

Lemma lemit_verbatim (t : LTree) :
  forall tr, solid t = true ->
    lemit [] zero zero t tr = ((if tr then ltext t else body t), true).
Proof.
  induction t using LTree_rect' with
    (Q := fun ks => forall tr, forallb solid ks = true ->
            lemit_list [] zero zero ks tr =
            match ks with
            | [] => ([], tr)
            | c :: r =>
                ((if tr then flat_map ltext ks else body c ++ flat_map ltext r),
                 true)
            end).
  - intros tr _. simpl. rewrite lval_nil. destruct tr; reflexivity.
  - intros tr Hs. rewrite lemit_node. change (zero d) with 0.
    change (0 <? 0) with false. cbv iota.
    simpl in Hs. destruct ks as [|c r]; [discriminate|].
    rewrite (IHt tr Hs). reflexivity.
  - reflexivity.
  - rename t into c. intros tr Hs. simpl in Hs.
    apply andb_true_iff in Hs as [Hc Hr].
    cbn [lemit_list]. rewrite (IHt tr Hc), (IHt0 true Hr).
    destruct r as [|c' r']; destruct tr; simpl; rewrite ?app_nil_r; reflexivity.
Qed.

Lemma emit_verbatim_by_kind T : emit_verbatim T = by_kind zero zero T.
Proof. destruct T; reflexivity. Qed.

Lemma solid_type_core_typelist :
  (forall t, solid (lt_type t) = true) /\
  (forall c, solid (lt_core c) = true) /\
  (forall l, solid (lt_typelist l) = true).
Proof.
  assert (Hrs : forall r, solid (lt_refspec r) = true)
    by (intros [g []]; reflexivity).
  assert (H : forall t, solid (lt_type t) = true).
  { fix IH 1. intros [cst core rs].
    assert (Hc : solid (lt_core core) = true).
    { destruct core as [g n | g n glt args ggt]; [reflexivity|].
      assert (Hl : solid (lt_typelist args) = true).
      { induction args as [t | t g' r IHr].
        - simpl. rewrite (IH t). reflexivity.
        - change (solid (lt_typelist (TLCons t g' r)))
            with (solid (lt_type t) && (true && (solid (lt_typelist r) && true))).
          rewrite (IH t), IHr. reflexivity. }
      change (solid (lt_core (CTemplate g n glt args ggt)))
        with (true && (true && (solid (lt_typelist args) && (true && true))) && true).
      rewrite Hl. reflexivity. }
    destruct cst, rs; simpl lt_type; simpl opt_list; cbn [solid forallb app];
      rewrite ?Hc, ?Hrs; reflexivity. }
  split; [exact H|]. split.
  - intros [g n | g n glt args ggt]; [reflexivity|].
    assert (Hl : solid (lt_typelist args) = true).
    { induction args as [t | t g' r IHr].
      - simpl. rewrite (H t). reflexivity.
      - change (solid (lt_typelist (TLCons t g' r)))
          with (solid (lt_type t) && (true && (solid (lt_typelist r) && true))).
        rewrite (H t), IHr. reflexivity. }
    change (solid (lt_core (CTemplate g n glt args ggt)))
      with (true && (true && (solid (lt_typelist args) && (true && true))) && true).
    rewrite Hl. reflexivity.
  - induction l as [t | t g' r IHr].
    + simpl. rewrite (H t). reflexivity.
    + change (solid (lt_typelist (TLCons t g' r)))
        with (solid (lt_type t) && (true && (solid (lt_typelist r) && true))).
      rewrite (H t), IHr. reflexivity.
Qed.

Lemma solid_type t : solid (lt_type t) = true.
Proof. apply solid_type_core_typelist. Qed.

Lemma solid_param p : solid (lt_param p) = true.
Proof.
  destruct p as [t g n [[[geq gv] v]|]]; unfold lt_param; cbn [p_type p_gname p_name p_defval option_map opt_list app];
    cbn [solid forallb]; rewrite solid_type; [destruct v|]; reflexivity.
Qed.

Lemma solid_params ps : solid (lt_params ps) = true.
Proof.
  induction ps as [p | p g r IH].
  - cbn [lt_params solid forallb]. rewrite solid_param. reflexivity.
  - change (solid (lt_params (PCons p g r)))
      with (solid (lt_param p) && (true && (solid (lt_params r) && true))).
    rewrite solid_param, IH. reflexivity.
Qed.

Lemma solid_start sg : solid (lt_start sg) = true.
Proof.
  change (solid (lt_start sg))
    with (solid (lt_type (s_type sg))
          && (true && (true && (solid (lt_params (s_params sg)) && (true && true))))).
  rewrite solid_type, solid_params. reflexivity.
Qed.

Lemma text_split sg : text sg = leading sg ++ trimmed sg ++ s_trail sg.
Proof.
  unfold text, leading, trimmed.
  rewrite (ltext_lead_body _ (solid_start sg)), <- app_assoc. reflexivity.
Qed.

Lemma xparse_roundtrip sg :
  rewrite_sig (xparse sg) (text sg) emit_verbatim = Some (trimmed sg).
Proof.
  unfold rewrite_sig, xparse.
  rewrite <- (rewrite_tokens_nil (place 0 (lt_start sg))).
  change 0 with (len []) at 1.
  rewrite (emit_place [] (lt_start sg) emit_verbatim zero zero [] (s_trail sg)
             (new_emit (text sg)) emit_verbatim_by_kind (solid_start sg)
             eq_refl (or_introl eq_refl)).
  cbn [new_emit pos sval]. change (0 <=? -1) with false.
  rewrite (lemit_verbatim _ false (solid_start sg)). reflexivity.
Qed.

(** ** The reduced tree under a verbatim emission *)

Lemma emit_tokens_fold (T : Tree) :
  forall e, emit_tokens T e = fold_left advance (tokens T) e.
Proof.
  induction T using Tree_rect' with
    (Q := fun cs => forall e,
            emit_tokens_list cs e = fold_left advance (flat_map tokens cs) e).
  - reflexivity.
  - intro e. rewrite emit_tokens_node. apply IHT.
  - reflexivity.
  - intro e. cbn [emit_tokens_list flat_map]. rewrite fold_left_app, <- IHT.
    apply IHT0.
Qed.

Lemma emit_string_verbatim (T : Tree) :
  forall e, emit_string emit_verbatim T e = Some (emit_tokens T e).
Proof.
  induction T using Tree_rect' with
    (Q := fun cs => forall e,
            emit_list emit_verbatim cs e = Some (emit_tokens_list cs e)).
  - reflexivity.
  - intro e. rewrite emit_string_node.
    change (emit_verbatim (Node d cs)) with 0.
    change (0 <? 0) with false. change (0 =? 0) with true. cbv iota.
    rewrite emit_tokens_node. apply IHT.
  - reflexivity.
  - intro e. simpl emit_list. rewrite IHT. apply IHT0.
Qed.

Lemma reduce_node d cs : reduce (Node d cs) = Node d (reduce_list cs).
Proof. reflexivity. Qed.

Lemma tokens_reduce (T : Tree) :
  forall d cs, T = Node d cs ->
    tokens (reduce T) = filter kept_token (tokens T).
Proof.
  induction T using Tree_rect' with
    (Q := fun cs =>
            flat_map tokens (reduce_list cs)
            = filter kept_token (flat_map tokens cs)).
  - discriminate.
  - intros d' cs' _. rewrite reduce_node. exact IHT.
  - reflexivity.
  - destruct T as [k | d cs].
    + cbn [reduce_list flat_map tokens app filter]. unfold kept_token at 1.
      destruct (mem (ttype k) anonymous); cbn [negb flat_map tokens app];
        rewrite IHT0; reflexivity.
    + cbn [reduce_list flat_map]. rewrite filter_app, <- IHT0.
      rewrite (IHT d cs eq_refl). reflexivity.
Qed.

Lemma ltext_lexemes (t : LTree) : ltext t = ltexts (lexemes t).
Proof.
  induction t using LTree_rect' with
    (Q := fun ks => flat_map ltext ks = ltexts (flat_map lexemes ks)).
  - simpl. rewrite app_nil_r. reflexivity.
  - exact IHt.
  - reflexivity.
  - cbn [flat_map]. unfold ltexts in *. rewrite flat_map_app, IHt, IHt0.
    reflexivity.
Qed.

Lemma ltexts_app a b : ltexts (a ++ b) = ltexts a ++ ltexts b.
Proof. apply flat_map_app. Qed.

Lemma ptoks_app a : forall o b,
  ptoks o (a ++ b) = ptoks o a ++ ptoks (o + len (ltexts a)) b.
Proof.
  induction a as [|l a IH]; intros o b.
  - simpl. f_equal. unfold len. simpl. lia.
  - cbn [app ptoks]. rewrite IH. do 3 f_equal. cbn [ltexts flat_map].
    fold (ltexts a). rewrite !len_app. lia.
Qed.

Lemma tokens_place (t : LTree) :
  forall o, tokens (place o t) = ptoks o (lexemes t).
Proof.
  induction t using LTree_rect' with
    (Q := fun ks => forall o,
            flat_map tokens (place_list o ks) = ptoks o (flat_map lexemes ks)).
  - reflexivity.
  - intro o. rewrite place_node. apply IHt.
  - reflexivity.
  - intro o. cbn [place_list flat_map]. rewrite ptoks_app, IHt, IHt0.
    rewrite <- ltext_lexemes. reflexivity.
Qed.

Lemma run_kept (ls : list Lexeme) :
  forall A pt B e,
    sref e = A ++ pt ++ ltexts ls ++ B ->
    pos e = -1 \/ pos e = len A ->
    sval (fold_left advance (filter kept_token (ptoks (len A + len pt) ls)) e)
    = sval e ++ femit (if 0 <=? pos e then Some pt else None) ls.
Proof.
  induction ls as [|l r IH]; intros A pt B e Hs Hp.
  - simpl. rewrite app_nil_r. reflexivity.
  - cbn [ptoks filter femit]. unfold kept_token at 1, kept. cbn [ttype].
    destruct (mem (l_type l) anonymous) eqn:Hm; cbn [negb].
    + (* a token the reduced parser drops *)
      replace (len A + len pt + len (l_gap l ++ l_text l))
        with (len A + len (pt ++ l_gap l ++ l_text l))
        by (rewrite !len_app; lia).
      rewrite (IH A (pt ++ l_gap l ++ l_text l) B e).
      * destruct (0 <=? pos e); reflexivity.
      * rewrite Hs. cbn [ltexts flat_map]. fold (ltexts r).
        rewrite <- !app_assoc. reflexivity.
      * exact Hp.
    + (* a token it keeps *)
      cbn [fold_left].
      pose proof (advance_placed []
                    (mkLex (l_type l) (pt ++ l_gap l) (l_text l)) A
                    (ltexts r ++ B) e) as Hadv.
      cbn [l_type l_gap l_text ltext] in Hadv.
      unfold rewrite_token in Hadv. cbn [ttype value dict_get] in Hadv.
      assert (Hk : (if str_eqb (l_type l) (s "TNAME")
                    then {| ttype := l_type l; value := l_text l;
                            column := len A + len (pt ++ l_gap l) + 1;
                            end_column := len A + len (pt ++ l_gap l)
                                          + len (l_text l) + 1 |}
                    else {| ttype := l_type l; value := l_text l;
                            column := len A + len (pt ++ l_gap l) + 1;
                            end_column := len A + len (pt ++ l_gap l)
                                          + len (l_text l) + 1 |})
                   = {| ttype := l_type l; value := l_text l;
                        column := len A + len pt + len (l_gap l) + 1;
                        end_column := len A + len pt + len (l_gap l)
                                      + len (l_text l) + 1 |}).
      { rewrite len_app, !Z.add_assoc.
        destruct (str_eqb (l_type l) (s "TNAME")); reflexivity. }
      rewrite Hk in Hadv. clear Hk.
      rewrite Hadv; [|rewrite Hs; cbn [ltexts flat_map]; fold (ltexts r);
                       rewrite <- !app_assoc; reflexivity | exact Hp].
      rewrite lval_nil. cbn [l_text].
      set (e1 := mkEmit _ _ _).
      replace (len A + len pt + len (l_gap l ++ l_text l))
        with (len (A ++ pt ++ l_gap l ++ l_text l) + len [])
        by (rewrite !len_app; unfold len; simpl; lia).
      rewrite (IH (A ++ pt ++ l_gap l ++ l_text l) [] B e1).
      * subst e1. cbn [sval pos].
        replace (0 <=? len A + len ((pt ++ l_gap l) ++ l_text l)) with true
          by (symmetry; apply Z.leb_le;
              pose proof (len_nonneg A);
              pose proof (len_nonneg ((pt ++ l_gap l) ++ l_text l)); lia).
        destruct (0 <=? pos e); rewrite <- !app_assoc; reflexivity.
      * subst e1. cbn [sref]. rewrite Hs. cbn [ltexts flat_map app].
        fold (ltexts r). rewrite <- !app_assoc. reflexivity.
      * subst e1. cbn [pos]. right. rewrite !len_app. lia.
Qed.

Lemma femit_dropped (D : list Lexeme) :
  forall pend, forallb (fun l => negb (kept l)) D = true -> femit pend D = [].
Proof.
  induction D as [|l D IH]; intros pend H; [reflexivity|].
  cbn [forallb] in H. apply andb_true_iff in H as [Hl HD].
  cbn [femit]. apply negb_true_iff in Hl. rewrite Hl. apply IH, HD.
Qed.

Lemma femit_some (P : list Lexeme) :
  forall g k D,
    kept k = true -> forallb (fun l => negb (kept l)) D = true ->
    femit (Some g) (P ++ k :: D) = g ++ ltexts (P ++ [k]).
Proof.
  induction P as [|l P IH]; intros g k D Hk HD.
  - cbn [app femit]. rewrite Hk, (femit_dropped D _ HD).
    cbn [ltexts flat_map]. rewrite !app_nil_r, <- app_assoc. reflexivity.
  - cbn [app femit]. destruct (kept l).
    + rewrite (IH _ k D Hk HD). cbn [ltexts flat_map app].
      rewrite <- !app_assoc. reflexivity.
    + cbn [option_map]. rewrite (IH _ k D Hk HD). cbn [ltexts flat_map].
      rewrite <- !app_assoc. reflexivity.
Qed.

Lemma lead_body_lexemes (t : LTree) :
  forall k R, solid t = true -> lexemes t = k :: R ->
    lead t = l_gap k /\ body t = l_text k ++ ltexts R.
Proof.
  induction t using LTree_rect' with
    (Q := fun ks => forall c r, ks = c :: r -> forall k R,
            solid c = true -> lexemes c ++ flat_map lexemes r = k :: R ->
            lead c = l_gap k /\
            body c ++ flat_map ltext r = l_text k ++ ltexts R).
  - intros k R _ [= <- <-]. split; [reflexivity | symmetry; apply app_nil_r].
  - intros k R Hs Hl. simpl in Hs. destruct ks as [|c r]; [discriminate|].
    apply andb_true_iff in Hs as [Hc _].
    exact (IHt c r eq_refl k R Hc Hl).
  - discriminate.
  - rename t into c. intros c0 r0 [= <- <-] k R Hc Hl.
    destruct (lexemes c) as [|k' R'] eqn:Hlc.
    + (* a solid derivation has a lexeme *)
      exfalso. pose proof (ltext_lead_body c Hc) as H.
      clear - Hlc Hc. revert Hlc Hc.
      induction c using LTree_rect' with
        (Q := fun ks => forallb solid ks = true -> ks <> [] ->
                flat_map lexemes ks = [] -> False).
      * discriminate.
      * intros Hl Hs. simpl in Hs. destruct ks as [|x y]; [discriminate|].
        apply IHc; [exact Hs | discriminate | exact Hl].
      * intros _ H. congruence.
      * intros Hs _ Hl. cbn [flat_map] in Hl. apply app_eq_nil in Hl as [Hl _].
        cbn [forallb] in Hs. apply andb_true_iff in Hs as [Hs _]. auto.
    + cbn [app] in Hl. injection Hl as <- <-.
      destruct (IHt k' R' Hc eq_refl) as [H1 H2]. split; [exact H1|].
      rewrite H2, ltexts_app, <- app_assoc. f_equal. f_equal.
      clear. induction r as [|x r IH]; [reflexivity|].
      cbn [flat_map]. rewrite ltexts_app, <- ltext_lexemes, IH. reflexivity.
Qed.

Lemma type_head t :
  exists k R, lexemes (lt_type t) = k :: R /\ kept k = true.
Proof.
  destruct t as [[g|] core rs].
  - do 2 eexists. split; reflexivity.
  - destruct core as [g n | g n glt args ggt];
      do 2 eexists; (split; reflexivity).
Qed.

Lemma param_tail p :
  exists P k, kept k = true /\
    lexemes (lt_param p) = P ++ [k] ++ dropped_defval p.
Proof.
  destruct p as [t g n [[[geq gv] v]|]]; unfold dropped_defval; cbn [p_defval].
  - destruct v;
      try (exists (lexemes (lt_type t)), (mkLex (s "CNAME") g n);
           split; [reflexivity|];
           unfold lt_param; cbn [lexemes flat_map p_type p_gname p_name p_defval
                                   option_map opt_list app lt_defval lt_init lx];
           rewrite ?app_nil_r; reflexivity).
    + exists (lexemes (lt_type t)
              ++ [mkLex (s "CNAME") g n; mkLex (s "EQUAL") geq (s "=")]),
        (mkLex (s "NUMBER") gv v).
      split; [reflexivity|].
      unfold lt_param; cbn [lexemes flat_map p_type p_gname p_name p_defval
                              option_map opt_list app lt_defval lt_init lx].
      rewrite ?app_nil_r, <- app_assoc. reflexivity.
    + exists (lexemes (lt_type t)
              ++ [mkLex (s "CNAME") g n; mkLex (s "EQUAL") geq (s "=")]),
        (mkLex (s "SIGNED_NUMBER") gv v).
      split; [reflexivity|].
      unfold lt_param; cbn [lexemes flat_map p_type p_gname p_name p_defval
                              option_map opt_list app lt_defval lt_init lx].
      rewrite ?app_nil_r, <- app_assoc. reflexivity.
    + exists (lexemes (lt_type t)
              ++ [mkLex (s "CNAME") g n; mkLex (s "EQUAL") geq (s "=")]),
        (mkLex (s "HEXNUMBER") gv v).
      split; [reflexivity|].
      unfold lt_param; cbn [lexemes flat_map p_type p_gname p_name p_defval
                              option_map opt_list app lt_defval lt_init lx].
      rewrite ?app_nil_r, <- app_assoc. reflexivity.
    + exists (lexemes (lt_type t)
              ++ [mkLex (s "CNAME") g n; mkLex (s "EQUAL") geq (s "=")]),
        (mkLex (s "ESCAPED_STRING") gv v).
      split; [reflexivity|].
      unfold lt_param; cbn [lexemes flat_map p_type p_gname p_name p_defval
                              option_map opt_list app lt_defval lt_init lx].
      rewrite ?app_nil_r, <- app_assoc. reflexivity.
  - exists (lexemes (lt_type t)), (mkLex (s "CNAME") g n).
    split; [reflexivity|].
    unfold lt_param; cbn [lexemes flat_map p_type p_gname p_name p_defval
                            option_map opt_list app].
    rewrite ?app_nil_r. reflexivity.
Qed.

Lemma params_tail ps :
  exists P k, kept k = true /\
    lexemes (lt_params ps) = P ++ [k] ++ dropped_defval (last_param ps).
Proof.
  induction ps as [p | p g r (P & k & Hk & IH)].
  - destruct (param_tail p) as (P & k & Hk & H). exists P, k.
    split; [exact Hk|]. cbn [lt_params lexemes flat_map last_param].
    rewrite app_nil_r. exact H.
  - exists (lexemes (lt_param p) ++ mkLex (s "COMMA") g (s ",") :: P), k.
    split; [exact Hk|].
    change (lexemes (lt_params (PCons p g r)))
      with (lexemes (lt_param p)
            ++ [mkLex (s "COMMA") g (s ",")] ++ lexemes (lt_params r) ++ []).
    rewrite app_nil_r, IH. cbn [last_param app]. rewrite <- app_assoc.
    reflexivity.
Qed.

Lemma unkept_dropped sg : unkept (dropped_lexemes sg) = true.
Proof.
  unfold dropped_lexemes, dropped_defval.
  destruct (p_defval (last_param (s_params sg))) as [[[geq gv] []]|];
    reflexivity.
Qed.

Lemma start_lexemes sg :
  exists k R P kn,
    kept k = true /\ kept kn = true /\
    l_gap k = leading sg /\
    lexemes (lt_start sg) = k :: R ++ P ++ kn :: dropped_lexemes sg.
Proof.
  destruct (type_head (s_type sg)) as (k & R & Ht & Hk).
  destruct (params_tail (s_params sg)) as (P & kn & Hkn & Hp).
  exists k, R,
    (mkLex (s "CNAME") (s_gname sg) (s_name sg)
     :: mkLex (s "LPAR") (s_glpar sg) (s "(") :: P), kn.
  repeat split; try assumption.
  - unfold leading.
    assert (Hl : lexemes (lt_start sg)
                 = k :: R ++ mkLex (s "CNAME") (s_gname sg) (s_name sg)
                       :: mkLex (s "LPAR") (s_glpar sg) (s "(")
                       :: lexemes (lt_params (s_params sg))
                       ++ [mkLex (s "RPAR") (s_grpar sg) (s ")")]).
    { change (lexemes (lt_start sg))
        with (lexemes (lt_type (s_type sg))
              ++ [mkLex (s "CNAME") (s_gname sg) (s_name sg)] ++ []
              ++ [mkLex (s "LPAR") (s_glpar sg) (s "(")]
              ++ lexemes (lt_params (s_params sg))
              ++ [mkLex (s "RPAR") (s_grpar sg) (s ")")] ++ []).
      rewrite Ht. reflexivity. }
    symmetry. exact (proj1 (lead_body_lexemes _ _ _ (solid_start sg) Hl)).
  - change (lexemes (lt_start sg))
      with (lexemes (lt_type (s_type sg))
            ++ [mkLex (s "CNAME") (s_gname sg) (s_name sg)] ++ []
            ++ [mkLex (s "LPAR") (s_glpar sg) (s "(")]
            ++ lexemes (lt_params (s_params sg))
            ++ [mkLex (s "RPAR") (s_grpar sg) (s ")")] ++ []).
    rewrite Ht, Hp. unfold dropped_lexemes. cbn [app].
    rewrite <- !app_assoc. reflexivity.
Qed.

Lemma parse_emission sg :
  exists out,
    rewrite_sig (parse sg) (text sg) emit_verbatim = Some out /\
    trimmed sg = out ++ dropped sg.
Proof.
  destruct (start_lexemes sg) as (k & R & P & kn & Hk & Hkn & Hg & Hl).
  exists (l_text k ++ ltexts (R ++ P ++ [kn])). split.
  - unfold rewrite_sig, parse. rewrite emit_string_verbatim, emit_tokens_fold.
    f_equal.
    unfold xparse.
    erewrite tokens_reduce by (unfold lt_start; apply place_node).
    rewrite tokens_place.
    change 0 with (len [] + len []).
    rewrite (run_kept (lexemes (lt_start sg)) [] [] (s_trail sg)
               (new_emit (text sg)));
      [| cbn [new_emit sref app]; unfold text; rewrite ltext_lexemes;
         reflexivity
       | left; reflexivity].
    cbn [new_emit sval pos app]. change (0 <=? -1) with false. cbv iota.
    rewrite Hl. cbn [femit]. rewrite Hk. cbn [app]. f_equal.
    rewrite app_assoc, (femit_some _ _ kn _ Hkn (unkept_dropped sg)).
    rewrite <- app_assoc. reflexivity.
  - unfold trimmed, dropped.
    destruct (lead_body_lexemes _ _ _ (solid_start sg) Hl) as [_ ->].
    rewrite <- app_assoc, <- ltexts_app. f_equal. f_equal.
    rewrite <- !app_assoc. reflexivity.
Qed.

Lemma dropped_ends_with_rpar sg :
  exists x, dropped sg = x ++ s_grpar sg ++ s ")".
Proof.
  unfold dropped, dropped_lexemes. rewrite ltexts_app.
  eexists. cbn [ltexts flat_map l_gap l_text]. rewrite app_nil_r. reflexivity.
Qed.

Lemma dropped_not_nil sg : dropped sg <> [].
Proof.
  destruct (dropped_ends_with_rpar sg) as [x ->]. intro H.
  apply app_eq_nil in H as [_ H]. apply app_eq_nil in H as [_ H].
  discriminate.
Qed.

(** C2, as stated, fails on [Tensor add(const Tensor & self, Scalar other = 1)]:
    the verbatim tree gives the signature back, the reduced tree gives it
    without its closing parenthesis, which that tree does not hold. *)
Lemma C2_reduced_tree_loses_text :
  rewrite_sig (xparse sig_add) (text sig_add) emit_verbatim
    = Some (text sig_add) /\
  rewrite_sig (parse sig_add) (text sig_add) emit_verbatim
    = Some (s "Tensor add(const Tensor & self, Scalar other = 1") /\
  ~ (rewrite_sig (xparse sig_add) (text sig_add) emit_verbatim
       = Some (text sig_add) /\
     rewrite_sig (parse sig_add) (text sig_add) emit_verbatim
       = Some (text sig_add)).
Proof.
  split; [reflexivity|]. split; [reflexivity|].
  intros [_ H]. vm_compute in H. discriminate.
Qed.

(** C2 (amended): for every derivation [sg] of the grammar, with source text
    [text sg] on one line, the identity emission over the verbatim tree yields
    the text from the first token to the closing parenthesis ([trimmed sg]:
    the text without the ignored characters before and after it), and over the
    reduced tree it yields that text cut after the last token the reduced tree
    holds: the closing parenthesis, and a default value [true], [false] or
    [{}] before it, are missing. *)
Theorem C2_span_emitter_roundtrip (sg : signature) :
  text sg = leading sg ++ trimmed sg ++ s_trail sg /\
  rewrite_sig (xparse sg) (text sg) emit_verbatim = Some (trimmed sg) /\
  exists out x,
    rewrite_sig (parse sg) (text sg) emit_verbatim = Some out /\
    trimmed sg = out ++ dropped sg /\
    dropped sg = x ++ s_grpar sg ++ s ")".
Proof.
  split; [apply text_split|]. split; [apply xparse_roundtrip|].
  destruct (parse_emission sg) as (out & H1 & H2).
  destruct (dropped_ends_with_rpar sg) as [x Hx].
  exists out, x. auto.
Qed.

(** ** The map key *)

Lemma text_parts sg :
  text sg = before_params sg ++ ltext (lt_params (s_params sg))
            ++ after_params sg.
Proof.
  unfold text, before_params, before_name, after_params, lt_start, lt_fnname.
  cbn [ltext flat_map lx l_gap l_text]. rewrite ?app_nil_r, <- ?app_assoc.
  reflexivity.
Qed.

Lemma xparse_children sg :
  xparse sg =
  Node (s "start")
    [place (len []) (lt_type (s_type sg));
     place (len (before_name sg)) (lt_fnname sg);
     place (len (before_name sg ++ ltext (lt_fnname sg)))
       (lx "LPAR" (s_glpar sg) (s "("));
     place (len (before_params sg)) (lt_params (s_params sg));
     place (len (before_params sg ++ ltext (lt_params (s_params sg))))
       (lx "RPAR" (s_grpar sg) (s ")"))].
Proof.
  unfold xparse, lt_start, before_params, before_name. rewrite place_node.
  cbn [place_list]. fold (lt_fnname sg). rewrite !len_app.
  change (len []) with 0. rewrite !Z.add_0_l.
  f_equal.
  repeat (apply f_equal2;
          [f_equal; cbn [ltext lx l_gap l_text]; rewrite ?len_app; lia|]).
  reflexivity.
Qed.

Lemma place_type_node o t :
  exists cs, place o (lt_type t) = Node (s "type") cs.
Proof. destruct t. simpl. eexists. reflexivity. Qed.

Lemma place_params_node o ps :
  exists cs, place o (lt_params ps) = Node (s "params") cs.
Proof. destruct ps; simpl; eexists; reflexivity. Qed.

Lemma typed_child_type sg :
  typed_child (xparse sg) 0 (s "type")
  = Some (place (len []) (lt_type (s_type sg))).
Proof.
  rewrite xparse_children. cbn [typed_child index nth_error].
  destruct (place_type_node (len []) (s_type sg)) as [cs ->]. reflexivity.
Qed.

Lemma typed_child_fnname sg :
  typed_child (xparse sg) 1 (s "fnname")
  = Some (place (len (before_name sg)) (lt_fnname sg)).
Proof. rewrite xparse_children. reflexivity. Qed.

Lemma typed_child_params sg :
  typed_child (xparse sg) 3 (s "params")
  = Some (place (len (before_params sg)) (lt_params (s_params sg))).
Proof.
  rewrite xparse_children. cbn [typed_child index nth_error].
  destruct (place_params_node (len (before_params sg)) (s_params sg))
    as [cs ->].
  reflexivity.
Qed.

Lemma emit_place_plain (t : LTree) fn td nd A B e :
  (forall T, fn T = by_kind td nd T) ->
  solid t = true ->
  sref e = A ++ ltext t ++ B ->
  pos e = -1 ->
  emit_string fn (place (len A) t) e =
  Some (mkEmit (sref e) (sval e ++ fst (lemit [] td nd t false))
          (if snd (lemit [] td nd t false) then len A + len (ltext t) else -1)).
Proof.
  intros Hfn Hs Hr Hp.
  rewrite <- (rewrite_tokens_nil (place (len A) t)).
  rewrite (emit_place [] t fn td nd A B e Hfn Hs Hr (or_introl Hp)).
  rewrite Hp. reflexivity.
Qed.

Lemma map_emit_fn_by_kind T : map_emit_fn T = by_kind map_td map_nd T.
Proof. destruct T; reflexivity. Qed.

Lemma create_map_sig_closed sg :
  create_map_sig (xparse sg) (text sg) = Some (map_sig_of sg).
Proof.
  unfold create_map_sig.
  rewrite typed_child_fnname, typed_child_params, typed_child_type.
  rewrite (emit_place_plain (lt_fnname sg) map_emit_fn map_td map_nd
             (before_name sg)
             ((s_glpar sg ++ s "(") ++ ltext (lt_params (s_params sg))
              ++ after_params sg)
             (new_emit (text sg)) map_emit_fn_by_kind eq_refl);
    [| cbn [new_emit sref]; rewrite text_parts; unfold before_params;
       rewrite <- !app_assoc; reflexivity
     | reflexivity].
  set (e1 := append _ _).
  rewrite (emit_place_plain (lt_params (s_params sg)) map_emit_fn map_td map_nd
             (before_params sg) (after_params sg) e1 map_emit_fn_by_kind
             (solid_params _));
    [| subst e1; cbn [append new_emit sref]; apply text_parts | reflexivity].
  set (e2 := append _ _).
  rewrite (emit_place_plain (lt_type (s_type sg)) map_emit_fn map_td map_nd
             []
             (ltext (lt_fnname sg) ++ (s_glpar sg ++ s "(")
              ++ ltext (lt_params (s_params sg)) ++ after_params sg)
             e2 map_emit_fn_by_kind (solid_type _));
    [| subst e2 e1; cbn [append new_emit sref app]; rewrite text_parts;
       unfold before_params, before_name; rewrite <- !app_assoc; reflexivity
     | reflexivity].
  subst e2 e1. cbn [sval append new_emit app].
  unfold map_sig_of. f_equal.
  assert (Hn : fst (lemit [] map_td map_nd (lt_fnname sg) false) = s_name sg).
  { unfold lt_fnname, lx. rewrite lemit_node.
    change (map_nd (s "fnname")) with 0. change (0 <? 0) with false.
    cbv iota. cbn [lemit_list lemit l_type].
    change (map_td (s "CNAME")) with 0. change (0 <? 0) with false. cbv iota.
    rewrite lval_nil. cbn [fst l_text app]. apply app_nil_r. }
  rewrite Hn, <- !app_assoc. reflexivity.
Qed.

Lemma key_app a b : get_mapsig_key (a ++ b) = get_mapsig_key a ++ get_mapsig_key b.
Proof. apply filter_app. Qed.

Lemma key_spaces g : spaces g = true -> get_mapsig_key g = [].
Proof.
  induction g as [|c g IH]; [reflexivity|]. cbn [spaces forallb].
  intro H. apply andb_true_iff in H as [Hc Hg]. cbn [get_mapsig_key filter].
  rewrite Hc. exact (IH Hg).
Qed.

Lemma name_char_not_space c : is_name_char c = true -> Ascii.eqb c " "%char = false.
Proof.
  intro H. destruct (Ascii.eqb c " "%char) eqn:E; [|reflexivity].
  apply Ascii.eqb_eq in E. subst c. discriminate H.
Qed.

Lemma key_name n : name_ok n = true -> get_mapsig_key n = n.
Proof.
  induction n as [|c n IH]; [reflexivity|]. cbn [name_ok forallb].
  intro H. apply andb_true_iff in H as [Hc Hn]. cbn [get_mapsig_key filter].
  rewrite (name_char_not_space c Hc). cbn [negb]. f_equal. exact (IH Hn).
Qed.

Lemma lemit_map_type cst core rs tr :
  lemit [] map_td map_nd (lt_type (Ty cst core rs)) tr
  = lemit [] map_td map_nd (lt_core core) tr.
Proof.
  change (lt_type (Ty cst core rs))
    with (LNode (s "type")
            (opt_list (option_map (fun g => lx "CONST" g (s "const")) cst)
             ++ [lt_core core] ++ opt_list (option_map lt_refspec rs))).
  rewrite lemit_node.
  change (map_nd (s "type")) with 0. change (0 <? 0) with false. cbv iota.
  destruct (lemit [] map_td map_nd (lt_core core) tr) as [x tr1] eqn:E.
  destruct cst as [g|], rs as [[g' []]|];
    cbn [option_map opt_list app lemit_list lt_refspec fst snd];
    unfold lx; rewrite ?lemit_node; cbn; rewrite ?E; cbn; rewrite ?app_nil_r;
    reflexivity.
Qed.

Lemma lemit_map_syntax :
  (forall t, wf_type t = true -> forall tr, exists x,
      lemit [] map_td map_nd (lt_type t) tr = (x, true)
      /\ get_mapsig_key x = pk_type t) /\
  (forall c, wf_core c = true -> forall tr, exists x,
      lemit [] map_td map_nd (lt_core c) tr = (x, true)
      /\ get_mapsig_key x = pk_core c) /\
  (forall l, wf_typelist l = true -> forall tr, exists x,
      lemit [] map_td map_nd (lt_typelist l) tr = (x, true)
      /\ get_mapsig_key x = pk_typelist l).
Proof.
  apply syntax_ind.
  - (* type *)
    intros cst core IH rs Hwf tr. rewrite lemit_map_type.
    cbn [wf_type] in Hwf. apply andb_true_iff in Hwf as [Hwf _].
    apply andb_true_iff in Hwf as [_ Hwf]. exact (IH Hwf tr).
  - (* a plain name *)
    intros g n Hwf tr. cbn [wf_core] in Hwf.
    apply andb_true_iff in Hwf as [Hg Hn].
    exists ((if tr then g else []) ++ n). split.
    + cbn [lt_core]. rewrite lemit_node. unfold lx. cbn.
      rewrite ?app_nil_r. reflexivity.
    + rewrite key_app, (key_name n Hn).
      destruct tr; [rewrite (key_spaces g Hg)|]; reflexivity.
  - (* a template *)
    intros g n glt args IH ggt Hwf tr. cbn [wf_core] in Hwf.
    repeat (apply andb_true_iff in Hwf as [Hwf ?]).
    destruct (IH ltac:(assumption) true) as (x & Hx & Kx).
    exists ((if tr then g else []) ++ n ++ (glt ++ s "<") ++ x ++ ggt ++ s ">").
    split.
    + cbn [lt_core]. rewrite lemit_node.
      change (map_nd (s "core_type")) with 0. change (0 <? 0) with false.
      cbv iota. cbn [lemit_list]. rewrite lemit_node.
      change (map_nd (s "template")) with 0. change (0 <? 0) with false.
      cbv iota. unfold lx. cbn [lemit_list lemit l_type l_gap].
      change (map_td (s "TNAME")) with 0.
      change (map_td (s "LESSTHAN")) with 0.
      change (map_td (s "MORETHAN")) with 0.
      change (0 <? 0) with false. cbv iota. rewrite !lval_nil.
      fold (lt_typelist args). rewrite Hx. cbn [l_text fst snd].
      rewrite ?app_nil_r, <- ?app_assoc. reflexivity.
    + rewrite !key_app.
      rewrite (key_name n), (key_spaces glt), (key_spaces ggt), Kx
        by assumption.
      destruct tr; [rewrite (key_spaces g) by assumption|]; reflexivity.
  - (* the last type of a list *)
    intros t IH Hwf tr. cbn [wf_typelist] in Hwf.
    destruct (IH Hwf tr) as (x & Hx & Kx). exists x. split; [|exact Kx].
    cbn [lt_typelist]. rewrite lemit_node.
    change (map_nd (s "typelist")) with 0. change (0 <? 0) with false.
    cbv iota. cbn [lemit_list]. rewrite Hx. rewrite app_nil_r. reflexivity.
  - (* a type and the rest of the list *)
    intros t IHt g r IHr Hwf tr. cbn [wf_typelist] in Hwf.
    repeat (apply andb_true_iff in Hwf as [Hwf ?]).
    destruct (IHt Hwf tr) as (x & Hx & Kx).
    destruct (IHr ltac:(assumption) true) as (y & Hy & Ky).
    exists (x ++ (g ++ s ",") ++ y). split.
    + cbn [lt_typelist]. rewrite lemit_node.
      change (map_nd (s "typelist")) with 0. change (0 <? 0) with false.
      cbv iota. cbn [lemit_list]. rewrite Hx. unfold lx.
      cbn [lemit l_type l_gap].
      change (map_td (s "COMMA")) with 0. change (0 <? 0) with false.
      cbv iota. rewrite lval_nil. fold (lt_typelist r). rewrite Hy.
      cbn [l_text]. rewrite ?app_nil_r, <- ?app_assoc. reflexivity.
    + rewrite !key_app, Kx, Ky, (key_spaces g) by assumption. reflexivity.
Qed.

Lemma lemit_map_param p tr :
  wf_param p = true ->
  exists x, lemit [] map_td map_nd (lt_param p) tr = (x, true)
            /\ get_mapsig_key x = pk_type (p_type p).
Proof.
  intro Hwf. unfold wf_param in Hwf.
  apply andb_true_iff in Hwf as [Hwf _]. apply andb_true_iff in Hwf as [Hwf _].
  destruct (proj1 lemit_map_syntax (p_type p) Hwf tr) as (x & Hx & Kx).
  exists x. split; [|exact Kx].
  unfold lt_param. rewrite lemit_node.
  change (map_nd (s "param")) with 0. change (0 <? 0) with false. cbv iota.
  cbn [app lemit_list]. rewrite Hx.
  destruct (p_defval p) as [[[geq gv] v]|];
    cbn [option_map opt_list lemit_list lt_defval]; rewrite !lemit_node;
    cbn; rewrite ?app_nil_r; reflexivity.
Qed.

Lemma lemit_map_params ps :
  wf_params ps = true -> forall tr,
  exists x, lemit [] map_td map_nd (lt_params ps) tr = (x, true)
            /\ get_mapsig_key x = pk_params ps.
Proof.
  induction ps as [p | p g r IH]; intros Hwf tr; cbn [wf_params] in Hwf.
  - destruct (lemit_map_param p tr Hwf) as (x & Hx & Kx).
    exists x. split; [|exact Kx].
    cbn [lt_params]. rewrite lemit_node.
    change (map_nd (s "params")) with 0. change (0 <? 0) with false. cbv iota.
    cbn [lemit_list]. rewrite Hx, app_nil_r. reflexivity.
  - apply andb_true_iff in Hwf as [Hwf Hr].
    apply andb_true_iff in Hwf as [Hp Hg].
    destruct (lemit_map_param p tr Hp) as (x & Hx & Kx).
    destruct (IH Hr true) as (y & Hy & Ky).
    exists (x ++ (g ++ s ",") ++ y). split.
    + cbn [lt_params]. rewrite lemit_node.
      change (map_nd (s "params")) with 0. change (0 <? 0) with false.
      cbv iota. cbn [lemit_list]. rewrite Hx. unfold lx.
      cbn [lemit l_type l_gap].
      change (map_td (s "COMMA")) with 0. change (0 <? 0) with false.
      cbv iota. rewrite lval_nil. fold (lt_params r). rewrite Hy.
      cbn [l_text]. rewrite ?app_nil_r, <- ?app_assoc. reflexivity.
    + cbn [pk_params]. rewrite !key_app, Kx, Ky, (key_spaces g) by assumption.
      reflexivity.
Qed.

Lemma mapsig_key_closed sg :
  wf_sig sg = true -> get_mapsig_key (map_sig_of sg) = pk_sig sg.
Proof.
  intro Hwf. unfold wf_sig in Hwf.
  repeat (apply andb_true_iff in Hwf as [Hwf ?]).
  destruct (lemit_map_params (s_params sg) ltac:(assumption) false)
    as (x & Hx & Kx).
  destruct (proj1 lemit_map_syntax (s_type sg) Hwf false) as (y & Hy & Ky).
  unfold map_sig_of, pk_sig. rewrite Hx, Hy. cbn [fst].
  rewrite !key_app, Kx, Ky, (key_name (s_name sg)) by assumption.
  reflexivity.
Qed.

Lemma name_split (n1 : str) :
  forall n2 r1 r2,
    name_ok n1 = true -> name_ok n2 = true ->
    stops r1 = true -> stops r2 = true ->
    n1 ++ r1 = n2 ++ r2 -> n1 = n2 /\ r1 = r2.
Proof.
  induction n1 as [|c n1 IH]; intros [|c2 n2] r1 r2 H1 H2 S1 S2 E.
  - auto.
  - exfalso. cbn [app] in E. subst r1. cbn [stops name_ok forallb] in *.
    apply andb_true_iff in H2 as [H2 _]. rewrite H2 in S1. discriminate.
  - exfalso. cbn [app] in E. subst r2. cbn [stops name_ok forallb] in *.
    apply andb_true_iff in H1 as [H1 _]. rewrite H1 in S2. discriminate.
  - cbn [app] in E. injection E as -> E. cbn [name_ok forallb] in H1, H2.
    apply andb_true_iff in H1 as [_ H1]. apply andb_true_iff in H2 as [_ H2].
    destruct (IH n2 r1 r2 H1 H2 S1 S2 E) as [-> ->]. auto.
Qed.

Lemma follows_stops r : follows r = true -> stops r = true.
Proof.
  destruct r as [|c r]; [reflexivity|]. cbn [follows stops]. intro H.
  apply orb_true_iff in H as [H | H]; [apply orb_true_iff in H as [H | H]|];
    apply Ascii.eqb_eq in H; subst c; reflexivity.
Qed.

Ltac split_name E :=
  apply name_split in E;
  [| first [assumption | apply follows_stops; assumption | reflexivity] ..].

Lemma pk_injective_syntax :
  (forall t1, forall t2 r1 r2,
      wf_type t1 = true -> wf_type t2 = true ->
      follows r1 = true -> follows r2 = true ->
      pk_type t1 ++ r1 = pk_type t2 ++ r2 ->
      erase_type t1 = erase_type t2 /\ r1 = r2) /\
  (forall c1, forall c2 r1 r2,
      wf_core c1 = true -> wf_core c2 = true ->
      follows r1 = true -> follows r2 = true ->
      pk_core c1 ++ r1 = pk_core c2 ++ r2 ->
      erase_core c1 = erase_core c2 /\ r1 = r2) /\
  (forall l1, forall l2 r1 r2,
      wf_typelist l1 = true -> wf_typelist l2 = true ->
      pk_typelist l1 ++ ">"%char :: r1 = pk_typelist l2 ++ ">"%char :: r2 ->
      erase_typelist l1 = erase_typelist l2 /\ r1 = r2).
Proof.
  apply syntax_ind.
  - intros cst core IH rs [cst2 core2 rs2] r1 r2 W1 W2 F1 F2 E.
    cbn [wf_type] in W1, W2.
    apply andb_true_iff in W1 as [W1 _]. apply andb_true_iff in W1 as [_ W1].
    apply andb_true_iff in W2 as [W2 _]. apply andb_true_iff in W2 as [_ W2].
    destruct (IH core2 r1 r2 W1 W2 F1 F2 E) as [H ->].
    cbn [erase_type]. rewrite H. auto.
  - intros g n [g2 n2 | g2 n2 glt2 args2 ggt2] r1 r2 W1 W2 F1 F2 E;
      cbn [wf_core] in W1, W2; cbn [pk_core] in E.
    + apply andb_true_iff in W1 as [_ W1]. apply andb_true_iff in W2 as [_ W2].
      split_name E. destruct E as [-> ->]. auto.
    + exfalso. apply andb_true_iff in W1 as [_ W1].
      repeat (apply andb_true_iff in W2 as [W2 ?]).
      rewrite <- !app_assoc in E.
      split_name E. destruct E as [_ ->]. discriminate F1.
  - intros g n glt args IH ggt [g2 n2 | g2 n2 glt2 args2 ggt2] r1 r2
      W1 W2 F1 F2 E; cbn [wf_core] in W1, W2; cbn [pk_core] in E.
    + exfalso. apply andb_true_iff in W2 as [_ W2].
      repeat (apply andb_true_iff in W1 as [W1 ?]).
      rewrite <- !app_assoc in E. symmetry in E.
      split_name E. destruct E as [_ ->]. discriminate F2.
    + repeat (apply andb_true_iff in W1 as [W1 ?]).
      repeat (apply andb_true_iff in W2 as [W2 ?]).
      rewrite <- !app_assoc in E.
      split_name E. destruct E as [-> E'].
      cbn [s list_ascii_of_string app] in E'. injection E' as E'.
      destruct (IH args2 r1 r2 ltac:(assumption) ltac:(assumption) E')
        as [He ->].
      cbn [erase_core]. rewrite He. auto.
  - intros t IH [t2 | t2 g2 l2] r1 r2 W1 W2 E;
      cbn [wf_typelist] in W1, W2; cbn [pk_typelist] in E.
    + apply IH in E; [| first [assumption | reflexivity] ..].
      destruct E as [He E'].
      injection E' as ->. cbn [erase_typelist]. rewrite He. auto.
    + exfalso. repeat (apply andb_true_iff in W2 as [W2 ?]).
      rewrite <- !app_assoc in E.
      apply IH in E; [| first [assumption | reflexivity] ..].
      destruct E as [_ E'].
      discriminate E'.
  - intros t IHt g l IHl [t2 | t2 g2 l2] r1 r2 W1 W2 E;
      cbn [wf_typelist] in W1, W2; cbn [pk_typelist] in E.
    + exfalso. repeat (apply andb_true_iff in W1 as [W1 ?]).
      rewrite <- !app_assoc in E.
      apply IHt in E; [| first [assumption | reflexivity] ..].
      destruct E as [_ E'].
      discriminate E'.
    + repeat (apply andb_true_iff in W1 as [W1 ?]).
      repeat (apply andb_true_iff in W2 as [W2 ?]).
      rewrite <- !app_assoc in E.
      apply IHt in E; [| first [assumption | reflexivity] ..].
      destruct E as [He E'].
      cbn [s list_ascii_of_string app] in E'. injection E' as E'.
      destruct (IHl l2 r1 r2 ltac:(assumption) ltac:(assumption) E')
        as [He' ->].
      cbn [erase_typelist]. rewrite He, He'. auto.
Qed.

Lemma pk_params_injective ps1 :
  forall ps2 r1 r2,
    wf_params ps1 = true -> wf_params ps2 = true ->
    pk_params ps1 ++ ")"%char :: r1 = pk_params ps2 ++ ")"%char :: r2 ->
    erase_params ps1 = erase_params ps2 /\ r1 = r2.
Proof.
  pose proof (proj1 pk_injective_syntax) as Ht.
  induction ps1 as [p | p g r IH]; intros [p2 | p2 g2 r2'] r1 r2 W1 W2 E;
    cbn [wf_params] in W1, W2; cbn [pk_params] in E.
  - unfold wf_param in W1, W2.
    apply andb_true_iff in W1 as [W1 _]. apply andb_true_iff in W1 as [W1 _].
    apply andb_true_iff in W2 as [W2 _]. apply andb_true_iff in W2 as [W2 _].
    apply Ht in E; [| first [assumption | reflexivity] ..].
    destruct E as [He E']. injection E' as ->.
    cbn [erase_params]. rewrite He. auto.
  - exfalso. unfold wf_param in W1, W2.
    apply andb_true_iff in W1 as [W1 _]. apply andb_true_iff in W1 as [W1 _].
    apply andb_true_iff in W2 as [W2 _]. apply andb_true_iff in W2 as [W2 _].
    apply andb_true_iff in W2 as [W2 _]. apply andb_true_iff in W2 as [W2 _].
    rewrite <- !app_assoc in E.
    apply Ht in E; [| first [assumption | reflexivity] ..].
    destruct E as [_ E']. discriminate E'.
  - exfalso. unfold wf_param in W1, W2.
    apply andb_true_iff in W2 as [W2 _]. apply andb_true_iff in W2 as [W2 _].
    apply andb_true_iff in W1 as [W1 _]. apply andb_true_iff in W1 as [W1 _].
    apply andb_true_iff in W1 as [W1 _]. apply andb_true_iff in W1 as [W1 _].
    rewrite <- !app_assoc in E.
    apply Ht in E; [| first [assumption | reflexivity] ..].
    destruct E as [_ E']. discriminate E'.
  - apply andb_true_iff in W1 as [W1 Wr1]. apply andb_true_iff in W1 as [W1 _].
    apply andb_true_iff in W2 as [W2 Wr2]. apply andb_true_iff in W2 as [W2 _].
    unfold wf_param in W1, W2.
    apply andb_true_iff in W1 as [W1 _]. apply andb_true_iff in W1 as [W1 _].
    apply andb_true_iff in W2 as [W2 _]. apply andb_true_iff in W2 as [W2 _].
    rewrite <- !app_assoc in E.
    apply Ht in E; [| first [assumption | reflexivity] ..].
    destruct E as [He E'].
    cbn [s list_ascii_of_string app] in E'. injection E' as E'.
    destruct (IH r2' r1 r2 Wr1 Wr2 E') as [He' ->].
    cbn [erase_params]. rewrite He, He'. auto.
Qed.

Lemma pk_sig_injective sg1 sg2 :
  wf_sig sg1 = true -> wf_sig sg2 = true ->
  pk_sig sg1 = pk_sig sg2 -> erase_sig sg1 = erase_sig sg2.
Proof.
  intros W1 W2 E. unfold wf_sig in W1, W2.
  repeat (apply andb_true_iff in W1 as [W1 ?]).
  repeat (apply andb_true_iff in W2 as [W2 ?]).
  unfold pk_sig in E.
  apply name_split in E; [| first [assumption | reflexivity] ..].
  destruct E as [En E]. cbn [s list_ascii_of_string app] in E.
  injection E as E.
  apply pk_params_injective in E; [| assumption ..].
  destruct E as [Ep E]. injection E as E.
  rewrite <- (app_nil_r (pk_type (s_type sg1))) in E.
  rewrite <- (app_nil_r (pk_type (s_type sg2))) in E.
  apply (proj1 pk_injective_syntax) in E; [| first [assumption | reflexivity] ..].
  destruct E as [Et _].
  unfold erase_sig. rewrite En, Ep, Et. reflexivity.
Qed.

Lemma pk_erase_syntax :
  (forall t, pk_type (erase_type t) = pk_type t) /\
  (forall c, pk_core (erase_core c) = pk_core c) /\
  (forall l, pk_typelist (erase_typelist l) = pk_typelist l).
Proof.
  apply syntax_ind; intros; cbn [erase_type erase_core erase_typelist
                                   pk_type pk_core pk_typelist];
    congruence.
Qed.

Lemma pk_erase_params ps : pk_params (erase_params ps) = pk_params ps.
Proof.
  induction ps as [p | p g r IH]; cbn [erase_params pk_params p_type];
    rewrite (proj1 pk_erase_syntax); congruence.
Qed.

Lemma pk_erase_sig sg : pk_sig (erase_sig sg) = pk_sig sg.
Proof.
  unfold pk_sig, erase_sig. cbn [s_name s_params s_type].
  rewrite pk_erase_params, (proj1 pk_erase_syntax). reflexivity.
Qed.

(** The canonical key of a signature, as the generator computes it. *)
Lemma canonical_key sg :
  wf_sig sg = true ->
  option_map get_mapsig_key (create_map_sig (xparse sg) (text sg))
  = Some (pk_sig sg).
Proof.
  intro W. rewrite create_map_sig_closed. cbn [option_map].
  rewrite (mapsig_key_closed sg W). reflexivity.
Qed.

(** C1, as stated, fails: [Tensor f(Tensor a, Tensor b)] written with a tab
    instead of the space after the comma has the same tokens, and another
    canonical key, since [get_mapsig_key] removes space characters only. *)
Lemma C1_tab_changes_key :
  erase_sig (sig_two (s " ")) = erase_sig (sig_two tab) /\
  canonical_key_of (sig_two (s " ")) = Some (s "f(Tensor,Tensor)->Tensor") /\
  canonical_key_of (sig_two tab)
    = Some (s "f(Tensor," ++ tab ++ s "Tensor)->Tensor") /\
  canonical_key_of (sig_two (s " ")) <> canonical_key_of (sig_two tab).
Proof.
  split; [reflexivity|]. split; [reflexivity|]. split; [reflexivity|].
  intro H. vm_compute in H. discriminate.
Qed.

(** C1 (amended): for signatures whose gaps between tokens are made of
    space characters, two canonical keys are equal exactly when the two
    signatures have the same function name and the same core type names, in
    the same places, for the parameters and the return type.  So the key is
    unchanged by inserting or removing spaces, [const] qualifiers, [&] and [*]
    markers (and parameter names and default values), and it changes with any
    core type name. *)
Theorem C1_canonical_key_invariance (sg1 sg2 : signature) :
  wf_sig sg1 = true -> wf_sig sg2 = true ->
  (canonical_key_of sg1 = canonical_key_of sg2
   <-> erase_sig sg1 = erase_sig sg2).
Proof.
  intros W1 W2. unfold canonical_key_of.
  rewrite (canonical_key sg1 W1), (canonical_key sg2 W2). split.
  - intros [= E]. apply pk_sig_injective; assumption.
  - intro E. f_equal. rewrite <- (pk_erase_sig sg1), <- (pk_erase_sig sg2), E.
    reflexivity.
Qed.

Lemma C1_canonical_key_invariance_witness :
  wf_sig sig_add = true /\ wf_sig sig_add_plain = true /\
  (canonical_key_of sig_add = canonical_key_of sig_add_plain
   <-> erase_sig sig_add = erase_sig sig_add_plain).
Proof.
  split; [reflexivity|]. split; [reflexivity|].
  apply (C1_canonical_key_invariance sig_add sig_add_plain); reflexivity.
Defined.

(** ** Registration *)

Lemma mem_In x l : mem x l = true <-> In x l.
Proof.
  unfold mem. rewrite existsb_exists. split.
  - intros (y & Hy & E). apply str_eqb_spec in E. subst. exact Hy.
  - intro H. exists x. split; [exact H | apply str_eqb_refl].
Qed.

Lemma dict_has_get {V} (d : dict V) k :
  dict_has d k = true <-> exists v, dict_get d k = Some v.
Proof.
  unfold dict_has. destruct (dict_get d k) as [v|]; split.
  - eauto.
  - reflexivity.
  - discriminate.
  - intros [v H]. discriminate.
Qed.

Lemma check_overrides_loop_spec items od :
  forall misses log,
    check_overrides_loop items od misses log
    = ((misses + List.length (filter (unused od) items))%nat,
       log ++ map miss_report (filter (unused od) items)).
Proof.
  induction items as [|[m c] r IH]; intros misses log.
  - simpl. rewrite Nat.add_0_r, app_nil_r. reflexivity.
  - cbn [check_overrides_loop filter].
    change (negb (mem (get_mapsig_key m) od)) with (unused od (m, c)).
    destruct (unused od (m, c)).
    + rewrite IH. cbn [List.length map]. rewrite <- app_assoc.
      f_equal. lia.
    + apply IH.
Qed.

Lemma check_overrides_spec ov od :
  check_overrides ov od
  = (forallb (fun it => negb (unused od it)) ov,
     map miss_report (filter (unused od) ov)).
Proof.
  unfold check_overrides. rewrite check_overrides_loop_spec. cbn [app].
  f_equal. induction ov as [|it r IH]; [reflexivity|].
  cbn [filter forallb]. destruct (unused od it); [reflexivity|].
  cbn [negb andb]. exact IH.
Qed.

Example fgen_max_pool2d_fields :
  create_map_sig (xtree fgen_max_pool2d) (sig fgen_max_pool2d)
    = Some (mapsig fgen_max_pool2d) /\
  create_stdfunc_sig (rwxtree fgen_max_pool2d) (rwsig fgen_max_pool2d)
    = Some (funsig fgen_max_pool2d) /\
  get_function_signature (rwxtree fgen_max_pool2d) (rwsig fgen_max_pool2d)
    (fun x => s "AtenXlaTypeDefault::" ++ x)
    = Some (cppsig fgen_max_pool2d, func fgen_max_pool2d,
            xfunc fgen_max_pool2d).
Proof. repeat split; vm_compute; reflexivity. Qed.

Example wrapper_of_max_pool2d :
  get_xla_wrapper parser_max_pool2d xparser_max_pool2d no_template
    fndef_max_pool2d ctx_without_add
  = Some fgen_max_pool2d.
Proof. vm_compute. reflexivity. Qed.

(** C6, as stated, fails on the record of [max_pool2d] with no override:
    its map key, spaces included, is in the dual-dispatch set, so the record is
    registered, while its canonical key (spaces removed) and its name are not
    in the set. *)
Lemma C6_autograd_set_holds_raw_keys :
  requires_registration fgen_max_pool2d [] = true /\
  registration_as_stated fgen_max_pool2d [] = false.
Proof. split; vm_compute; reflexivity. Qed.

(** C6 (amended): a record requires registration exactly when (a) its
    dispatch flag is set and its math flag is not, or (b) the override table
    has an entry for its canonical key, or (c) its map key as projected
    (spaces kept) or its function name is in the dual-dispatch set. *)
Theorem C6_requires_registration (fgen : FuncGen) (overrides : dict str) :
  requires_registration fgen overrides = true <->
  (dispatch fgen = true /\ math fgen = false)
  \/ (exists v, dict_get overrides (get_mapsig_key (mapsig fgen)) = Some v)
  \/ (In (mapsig fgen) _FN_AUTOGRAD_XLA \/ In (func fgen) _FN_AUTOGRAD_XLA).
Proof.
  unfold requires_registration.
  rewrite !orb_true_iff, andb_true_iff, negb_true_iff, dict_has_get, !mem_In.
  tauto.
Qed.



(** ** The reference parameter *)

Lemma find_snoc {A} (f : A -> bool) l p :
  List.find f (l ++ [p])
  = or_else (List.find f l) (if f p then Some p else None).
Proof.
  induction l as [|x l IH]; simpl.
  - destruct (f p); reflexivity.
  - destruct (f x); [reflexivity | exact IH].
Qed.

Lemma or_else_none_r {A} (a : option A) : or_else a None = a.
Proof. destruct a; reflexivity. Qed.

Lemma reference_loop_spec fnopts (params : list Tree) :
  Forall (fun p => view p <> None) params ->
  forall rp ot,
    reference_loop fnopts params rp ot
    = Some (or_else (List.find (sat (is_named fnopts)) params)
              (or_else (or_else rp
                          (List.find (sat is_self_or_const_tensor) params))
                 (or_else (find_last (sat is_tensor) params)
                    (or_else ot
                       (List.find (sat is_options_list_or_device) params))))).
Proof.
  induction 1 as [|p rest Hp _ IH]; intros rp ot.
  - cbn. rewrite !or_else_none_r. reflexivity.
  - cbn [reference_loop List.find]. unfold find_last. cbn [rev].
    rewrite find_snoc. fold (find_last (sat is_tensor) rest).
    destruct (view p) as [v|] eqn:Hv; [clear Hp|congruence].
    assert (Hsat : forall f, sat f p = f v)
      by (intro f; unfold sat; rewrite Hv; reflexivity).
    rewrite !Hsat. clear Hsat. unfold view in Hv.
    destruct (param_type p) as [ptype|]; [|discriminate].
    destruct (unwrapped_core ptype) as [cptype|]; [|discriminate].
    destruct (param_name p) as [pname|]; [|discriminate].
    destruct (type_is_const ptype) as [c|] eqn:Hc; [|discriminate].
    injection Hv as <-.
    change (is_named fnopts (mkView pname cptype c))
      with (opt_str_eqb (get_optional fnopts ref_param None) pname).
    change (is_self_or_const_tensor (mkView pname cptype c))
      with (str_eqb cptype (s "Tensor")
            && (str_eqb pname (s "self") || c)).
    change (is_tensor (mkView pname cptype c))
      with (str_eqb cptype (s "Tensor")).
    change (is_options_list_or_device (mkView pname cptype c))
      with (str_eqb cptype (s "TensorOptions")
            || str_eqb cptype (s "TensorList")
            || str_eqb cptype (s "Device")).
    destruct (opt_str_eqb (get_optional fnopts ref_param None) pname);
      [reflexivity|].
    cbn [or_else].
    destruct (str_eqb cptype (s "Tensor")) eqn:Ht; cbn [negb andb].
    + (* a tensor *)
      apply str_eqb_spec in Ht. subst cptype.
      change (str_eqb (s "Tensor") (s "TensorOptions")) with false.
      change (str_eqb (s "Tensor") (s "TensorList")) with false.
      change (str_eqb (s "Tensor") (s "Device")) with false.
      cbn [orb andb].
      destruct rp as [r|]; cbn [is_none].
      * rewrite IH. cbn [or_else].
        destruct (List.find (sat (is_named fnopts)) rest); reflexivity.
      * destruct (str_eqb pname (s "self")); cbn [orb].
        -- rewrite IH. cbn [or_else].
           destruct (List.find (sat (is_named fnopts)) rest); reflexivity.
        -- rewrite IH. destruct c; cbn [or_else];
             destruct (List.find (sat (is_named fnopts)) rest);
             try reflexivity.
           cbn [or_else].
           destruct (List.find (sat is_self_or_const_tensor) rest);
             [reflexivity|]. cbn [or_else].
           destruct (find_last (sat is_tensor) rest); reflexivity.
    + (* not a tensor *)
      rewrite IH. rewrite or_else_none_r. f_equal. f_equal. f_equal. f_equal.
      destruct ot as [o|]; cbn [is_none andb or_else].
      * reflexivity.
      * destruct (str_eqb cptype (s "TensorOptions")
                  || str_eqb cptype (s "TensorList")
                  || str_eqb cptype (s "Device")); reflexivity.
Qed.

(** C3, as stated, fails on the parameters of
    [Tensor f(TensorList l, Tensor t)]: no name is declared, no tensor is
    [self] or [const], and the code returns the last tensor [t] where the
    stated order returns the tensor list [l]. *)
Lemma C3_last_tensor_before_first_list :
  map param_name (params_of sig_list_then_tensor)
    = [Some (s "l"); Some (s "t")] /\
  get_reference_param (params_of sig_list_then_tensor) None
    = Some (nth_error (params_of sig_list_then_tensor) 1) /\
  reference_as_stated None (params_of sig_list_then_tensor)
    = nth_error (params_of sig_list_then_tensor) 0 /\
  get_reference_param (params_of sig_list_then_tensor) None
    <> Some (reference_as_stated None (params_of sig_list_then_tensor)).
Proof.
  split; [reflexivity|]. split; [reflexivity|]. split; [reflexivity|].
  intro H. vm_compute in H. discriminate.
Qed.

(** C3 (amended): on a parameter list whose parameters all have a type, a
    core type name and a name, the reference parameter is (a) the first
    parameter whose name is the one the options declare as [ref_param], else
    (b) the first Tensor-typed parameter (looking inside [c10::optional<>])
    that is named [self] or is [const]-qualified, else (c) the last
    Tensor-typed parameter, else (d) the first TensorOptions-, TensorList- or
    Device-typed parameter, else none. *)
Theorem C3_reference_param_priority (params : list Tree)
  (fnopts : option FuncOpts) :
  Forall (fun p => view p <> None) params ->
  get_reference_param params fnopts
  = Some (reference_by_priority fnopts params).
Proof.
  intro H. unfold get_reference_param.
  rewrite (reference_loop_spec fnopts params H None None). reflexivity.
Qed.

Lemma C3_reference_param_priority_witness :
  Forall (fun p => view p <> None) (params_of sig_const_second) /\
  get_reference_param (params_of sig_const_second) None
  = Some (reference_by_priority None (params_of sig_const_second)).
Proof.
  assert (H : Forall (fun p => view p <> None) (params_of sig_const_second))
    by (repeat constructor; discriminate).
  split; [exact H|].
  exact (C3_reference_param_priority (params_of sig_const_second) None H).
Defined.

Example reference_of_const_second :
  option_map (option_map param_name)
    (get_reference_param (params_of sig_const_second) None)
  = Some (Some (Some (s "b"))).
Proof. reflexivity. Qed.


(** ** The out-variant strategy *)











(** ** The delegated call *)

Lemma is_prefix_spec p : forall x,
  is_prefix p x = true <-> exists post, x = p ++ post.
Proof.
  induction p as [|a p IH]; intros [|b x]; cbn [is_prefix app].
  - split; [exists []; reflexivity | reflexivity].
  - split; [eexists; reflexivity | reflexivity].
  - split; [discriminate | intros [post H]; discriminate].
  - rewrite andb_true_iff, Ascii.eqb_eq, IH. split.
    + intros [-> [post ->]]. exists post. reflexivity.
    + intros [post [= -> ->]]. split; [reflexivity | exists post; reflexivity].
Qed.








Example delegation_of_add :
  get_handling_function ctx_with_add (s "add") (Some (s "xlatens[0]"))
    [s "xlatens[0]"; s "xlatens[1]"; s "alpha"]
  = Some (s "at::add(xlatens[0], xlatens[1], alpha)") /\
  get_handling_function ctx_without_add (s "add") (Some (s "xlatens[0]"))
    [s "xlatens[0]"; s "xlatens[1]"; s "alpha"]
  = Some (s "xlatens[0].add(xlatens[1], alpha)").
Proof. split; reflexivity. Qed.



(** ** Blacklisted functions *)


(** ** Declaration extraction *)

Section ExtractionFacts.

Variable XP : str -> option Tree.
Variable match_decl : str -> option (str * str).
Variable create_funcdef : str -> str -> option FuncDef.
Variable failure_text : str -> str -> str.

Local Abbreviation step :=
  (extract_step XP match_decl create_funcdef failure_text).
Local Abbreviation contrib :=
  (contribution XP match_decl create_funcdef failure_text).






End ExtractionFacts.

(** ** The run *)

Section RunFacts.

Variable P XP : str -> option Tree.
Variable expand : str -> list str -> option str.
Variable match_decl : str -> option (str * str).
Variable create_funcdef : str -> str -> option FuncDef.
Variable failure_text : str -> str -> str.
Variable wrapper_failure : FuncDef -> str.
Variable typedef xlatype gen : str.

Local Abbreviation run :=
  (generate P XP expand match_decl create_funcdef failure_text
     wrapper_failure typedef xlatype gen).
Local Abbreviation extracted :=
  (extract_functions XP match_decl create_funcdef failure_text).


Lemma generate_checks_overrides lines overrides ctx fgens log regs od :
  errors (extracted lines) = [] ->
  wrappers P XP expand wrapper_failure ctx (functions (extracted lines)) []
    (extraction_log typedef (extracted lines)
     ++ [str_of_nat (List.length overrides) ++ s " function overrides in "
         ++ xlatype])
  = (fgens, log) ->
  generate_registrations fgens overrides = Some (regs, od) ->
  stderr (run lines overrides ctx)
  = log ++ [s "Generated " ++ str_of_nat (List.length fgens)
            ++ s " wrappers for " ++ typedef]
    ++ map miss_report (filter (unused od) overrides) /\
  (output (run lines overrides ctx) = None
   <-> fst (check_overrides overrides od) = false).
Proof.
  intros He Hw Hr. unfold generate. rewrite He. cbn [List.length Nat.eqb negb].
  unfold extraction_log in Hw. rewrite He in Hw. cbn [List.length] in Hw.
  rewrite Hw, Hr. rewrite check_overrides_spec.
  destruct (forallb _ overrides); cbn [stderr output fst];
    rewrite <- app_assoc; split; try reflexivity; split; congruence.
Qed.

End RunFacts.

Lemma check_overrides_fails ov od :
  fst (check_overrides ov od) = false
  <-> exists m c, In (m, c) ov /\ ~ In (get_mapsig_key m) od.
Proof.
  rewrite check_overrides_spec. cbn [fst]. split.
  - intro H. induction ov as [|[m c] r IH]; [discriminate|].
    cbn [forallb] in H. apply andb_false_iff in H as [H | H].
    + exists m, c. split; [left; reflexivity|].
      apply negb_false_iff in H. unfold unused in H. cbn [fst] in H.
      apply negb_true_iff in H. intro Hin. apply mem_In in Hin. congruence.
    + destruct (IH H) as (m' & c' & Hin & Hn). exists m', c'.
      split; [right; exact Hin | exact Hn].
  - intros (m & c & Hin & Hn).
    destruct (forallb _ ov) eqn:E; [|reflexivity]. exfalso.
    rewrite forallb_forall in E. specialize (E _ Hin).
    apply negb_true_iff in E. unfold unused in E. cbn [fst] in E.
    apply negb_false_iff in E. apply mem_In in E. contradiction.
Qed.




Example dropped_without_tensor :
  contribution xparser_cudnn match_decl_example create_funcdef_example
    failure_text_example line_broken_other
  = mkExtracted [] [] [].
Proof. reflexivity. Qed.

(** C8: once both registration tables are built, with [od] the keys bound
    to an override, the run fails exactly when some entry of the override
    table has a canonical key that is not in [od]; before that, one report
    per such entry is written to the error stream, in table order. *)
Theorem C8_unused_overrides
  (P XP : str -> option Tree) (expand : str -> list str -> option str)
  (match_decl : str -> option (str * str))
  (create_funcdef : str -> str -> option FuncDef)
  (failure_text : str -> str -> str) (wrapper_failure : FuncDef -> str)
  (typedef xlatype gen : str) (lines : list str) (overrides : dict str)
  (ctx : Context) (fgens : list FuncGen) (log : list str) (regs : str)
  (od : list str) :
  let ex := extract_functions XP match_decl create_funcdef failure_text lines in
  let r := generate P XP expand match_decl create_funcdef failure_text
             wrapper_failure typedef xlatype gen lines overrides ctx in
  errors ex = [] ->
  wrappers P XP expand wrapper_failure ctx (functions ex) []
    (extraction_log typedef ex
     ++ [str_of_nat (List.length overrides) ++ s " function overrides in "
         ++ xlatype])
  = (fgens, log) ->
  generate_registrations fgens overrides = Some (regs, od) ->
  (output r = None
   <-> exists m c, In (m, c) overrides /\ ~ In (get_mapsig_key m) od) /\
  stderr r
  = log ++ [s "Generated " ++ str_of_nat (List.length fgens)
            ++ s " wrappers for " ++ typedef]
    ++ map miss_report (filter (unused od) overrides) /\
  (forall m c, In (m, c) overrides -> ~ In (get_mapsig_key m) od ->
     In (miss_report (m, c)) (stderr r)) /\
  fst (check_overrides overrides od)
  = Nat.eqb (List.length (filter (unused od) overrides)) 0.
Proof.
  intros ex r He Hw Hr.
  destruct (generate_checks_overrides P XP expand match_decl create_funcdef
              failure_text wrapper_failure typedef xlatype gen lines overrides
              ctx fgens log regs od He Hw Hr) as [Hs Ho].
  fold r in Hs, Ho. split; [|split; [|split]].
  - rewrite Ho. apply check_overrides_fails.
  - exact Hs.
  - intros m c Hin Hn. rewrite Hs. apply in_or_app. right.
    apply in_or_app. right. apply in_map. apply filter_In.
    split; [exact Hin|]. unfold unused. cbn [fst]. apply negb_true_iff.
    destruct (mem (get_mapsig_key m) od) eqn:E; [|reflexivity].
    apply mem_In in E. contradiction.
  - rewrite check_overrides_spec. cbn [fst]. clear.
    induction overrides as [|it l IH]; [reflexivity|].
    cbn [forallb filter]. destruct (unused od it); [reflexivity|].
    cbn [negb andb]. exact IH.
Qed.

Lemma C8_unused_overrides_witness :
  output (run_example [line_cudnn] ov_unused) = None /\
  stderr (run_example [line_cudnn] ov_unused)
  = [s "Extracted 1 functions (0 errors) from TypeDefault.h";
     s "2 function overrides in aten_xla_type.h";
     s "Generated 1 wrappers for TypeDefault.h";
     s "AtenXlaType function missed override: Tensor gone(const Tensor & self); // gone(Tensor)->Tensor"].
Proof.
  edestruct (C8_unused_overrides parser_cudnn xparser_cudnn no_template
               match_decl_example create_funcdef_example failure_text_example
               wrapper_failure_example (s "TypeDefault.h")
               (s "aten_xla_type.h") (s "gen.py") [line_cudnn] ov_unused
               ctx_without_add) as (Ho & Hs & _).
  - reflexivity.
  - vm_compute. reflexivity.
  - vm_compute. reflexivity.
  - split.
    + apply Ho. exists (s "gone(Tensor)->Tensor"),
        (s "Tensor gone(const Tensor & self)").
      split; [right; left; reflexivity|].
      intros [H|[]]. vm_compute in H. discriminate.
    + exact Hs.
Defined.

(** ** The word test of [is_tensor_api] *)





(** ** The rewritten signature *)

Lemma lval_tname tmap g n :
  lval tmap (mkLex (s "TNAME") g n) = map_name tmap n.
Proof.
  unfold lval, rewrite_token, map_name. cbn [l_type l_text ttype value].
  rewrite str_eqb_refl. destruct (dict_get tmap n); reflexivity.
Qed.

Lemma lval_other tmap ty g x :
  str_eqb ty (s "TNAME") = false -> lval tmap (mkLex ty g x) = x.
Proof.
  intro H. unfold lval, rewrite_token. cbn [l_type l_text ttype value].
  rewrite H. reflexivity.
Qed.

Lemma lrw_node tmap nd d ks :
  lrw tmap nd (LNode d ks) = LNode d (lrw_list tmap nd ks).
Proof.
  cbn [lrw]. f_equal. induction ks as [|c r IH]; [reflexivity|].
  cbn [lrw_list]. rewrite <- IH. destruct c; reflexivity.
Qed.

Lemma lval_mapped tmap l :
  lval [] (mkLex (l_type l) (l_gap l) (lval tmap l)) = lval tmap l.
Proof. apply lval_nil. Qed.

Lemma lemit_lrw tmap nd (t : LTree) :
  (forall d, nd d <= 0) ->
  forall tr,
    match t with LNode d _ => nd d = 0 | LTok _ => True end ->
    lemit tmap zero nd t tr = lemit [] zero zero (lrw tmap nd t) tr.
Proof.
  intro Hnd.
  induction t using LTree_rect' with
    (Q := fun ks => forall tr,
            lemit_list tmap zero nd ks tr
            = lemit_list [] zero zero (lrw_list tmap nd ks) tr).
  - intros tr _. cbn [lrw lemit l_type l_gap]. change (zero _ <? 0) with false.
    cbv iota. rewrite lval_mapped. reflexivity.
  - intros tr H0. rewrite lrw_node, !lemit_node, H0.
    change (zero d) with 0. change (0 <? 0) with false. cbv iota.
    apply IHt.
  - reflexivity.
  - rename t into c. intro tr. cbn [lemit_list lrw_list].
    destruct c as [l | d ks].
    + rewrite (IHt tr I). cbn [lemit_list].
      destruct (lemit [] zero zero (lrw tmap nd (LTok l)) tr) as [x tr1].
      rewrite IHt0. reflexivity.
    + destruct (nd d <? 0) eqn:E.
      * rewrite lemit_node, E, <- IHt0.
        destruct (lemit_list tmap zero nd r tr). reflexivity.
      * apply Z.ltb_ge in E. specialize (Hnd d).
        rewrite (IHt tr ltac:(lia)). cbn [lemit_list].
        destruct (lemit [] zero zero (lrw tmap nd (LNode d ks)) tr) as [x tr1].
        rewrite IHt0. reflexivity.
Qed.

Ltac lrw_tokens tmap :=
  cbn [lrw l_type l_gap];
  repeat rewrite (lval_tname tmap);
  repeat (rewrite (lval_other tmap) by reflexivity).

Lemma lrw_refspec tmap nd r :
  lrw tmap nd (lt_refspec r) = lt_refspec r.
Proof.
  destruct r as [g []]; unfold lt_refspec, lx; cbn [snd fst];
    rewrite lrw_node; cbn [lrw_list]; lrw_tokens tmap; reflexivity.
Qed.

Lemma lrw_syntax tmap :
  (forall t, lrw tmap defval_nd (lt_type t) = lt_type (rw_type tmap t)) /\
  (forall c, lrw tmap defval_nd (lt_core c) = lt_core (rw_core tmap c)) /\
  (forall l, lrw tmap defval_nd (lt_typelist l)
             = lt_typelist (rw_typelist tmap l)).
Proof.
  apply syntax_ind.
  - intros cst core IH rs.
    change (lt_type (Ty cst core rs))
      with (LNode (s "type")
              (opt_list (option_map (fun g => lx "CONST" g (s "const")) cst)
               ++ [lt_core core] ++ opt_list (option_map lt_refspec rs))).
    change (lt_type (rw_type tmap (Ty cst core rs)))
      with (LNode (s "type")
              (opt_list (option_map (fun g => lx "CONST" g (s "const")) cst)
               ++ [lt_core (rw_core tmap core)]
               ++ opt_list (option_map lt_refspec rs))).
    rewrite lrw_node. f_equal.
    assert (Hc : exists ks, lt_core core = LNode (s "core_type") ks)
      by (destruct core; eexists; reflexivity).
    destruct Hc as [ks Hc].
    destruct cst as [g|], rs as [r|]; cbn [option_map opt_list app lrw_list];
      unfold lx; rewrite ?Hc;
      change (defval_nd (s "core_type") <? 0) with false; cbv iota;
      rewrite <- ?Hc, IH;
      try (destruct r as [g' []]; unfold lt_refspec at 1; cbn [snd]);
      change (defval_nd (s "refspec") <? 0) with false; cbv iota;
      rewrite ?(lrw_refspec tmap defval_nd (_, REF)),
        ?(lrw_refspec tmap defval_nd (_, PTR));
      lrw_tokens tmap; reflexivity.
  - intros g n. cbn [lt_core rw_core]. rewrite lrw_node. unfold lx.
    cbn [lrw_list]. lrw_tokens tmap. reflexivity.
  - intros g n glt args IH ggt.
    change (lt_core (CTemplate g n glt args ggt))
      with (LNode (s "core_type")
              [LNode (s "template")
                 [lx "TNAME" g n; lx "LESSTHAN" glt (s "<"); lt_typelist args;
                  lx "MORETHAN" ggt (s ">")]]).
    change (lt_core (rw_core tmap (CTemplate g n glt args ggt)))
      with (LNode (s "core_type")
              [LNode (s "template")
                 [lx "TNAME" g (map_name tmap n); lx "LESSTHAN" glt (s "<");
                  lt_typelist (rw_typelist tmap args);
                  lx "MORETHAN" ggt (s ">")]]).
    rewrite lrw_node. cbn [lrw_list].
    change (defval_nd (s "template") <? 0) with false. cbv iota.
    rewrite lrw_node. unfold lx. cbn [lrw_list].
    assert (Hl : exists ks, lt_typelist args = LNode (s "typelist") ks)
      by (destruct args; eexists; reflexivity).
    destruct Hl as [ks Hl]. rewrite Hl.
    change (defval_nd (s "typelist") <? 0) with false. cbv iota.
    rewrite <- Hl, IH. lrw_tokens tmap. reflexivity.
  - intros t IH.
    change (lt_typelist (TLOne t)) with (LNode (s "typelist") [lt_type t]).
    change (lt_typelist (rw_typelist tmap (TLOne t)))
      with (LNode (s "typelist") [lt_type (rw_type tmap t)]).
    rewrite lrw_node. cbn [lrw_list].
    assert (Ht : exists ks, lt_type t = LNode (s "type") ks)
      by (destruct t; eexists; reflexivity).
    destruct Ht as [ks Ht]. rewrite Ht.
    change (defval_nd (s "type") <? 0) with false. cbv iota.
    rewrite <- Ht, IH. reflexivity.
  - intros t IHt g r IHr.
    change (lt_typelist (TLCons t g r))
      with (LNode (s "typelist")
              [lt_type t; lx "COMMA" g (s ","); lt_typelist r]).
    change (lt_typelist (rw_typelist tmap (TLCons t g r)))
      with (LNode (s "typelist")
              [lt_type (rw_type tmap t); lx "COMMA" g (s ",");
               lt_typelist (rw_typelist tmap r)]).
    rewrite lrw_node. cbn [lrw_list]. unfold lx.
    assert (Ht : exists ks, lt_type t = LNode (s "type") ks)
      by (destruct t; eexists; reflexivity).
    destruct Ht as [ks Ht]. rewrite Ht.
    change (defval_nd (s "type") <? 0) with false. cbv iota.
    rewrite <- Ht, IHt.
    assert (Hl : exists ks', lt_typelist r = LNode (s "typelist") ks')
      by (destruct r; eexists; reflexivity).
    destruct Hl as [ks' Hl]. rewrite Hl.
    change (defval_nd (s "typelist") <? 0) with false. cbv iota.
    rewrite <- Hl, IHr. lrw_tokens tmap. reflexivity.
Qed.

Lemma type_is_node t : exists ks, lt_type t = LNode (s "type") ks.
Proof. destruct t; eexists; reflexivity. Qed.

Lemma params_is_node ps : exists ks, lt_params ps = LNode (s "params") ks.
Proof. destruct ps; eexists; reflexivity. Qed.

Lemma lrw_param tmap p :
  lrw tmap defval_nd (lt_param p) = lt_param (rw_param tmap p).
Proof.
  unfold lt_param, rw_param. cbn [p_type p_gname p_name p_defval].
  rewrite lrw_node. f_equal. cbn [app lrw_list].
  destruct (type_is_node (p_type p)) as [ks Ht]. rewrite Ht.
  change (defval_nd (s "type") <? 0) with false. cbv iota.
  rewrite <- Ht, (proj1 (lrw_syntax tmap)).
  change (defval_nd (s "param_name") <? 0) with false. cbv iota.
  rewrite lrw_node. unfold lx. cbn [lrw_list]. lrw_tokens tmap.
  destruct (p_defval p) as [[[geq gv] v]|]; reflexivity.
Qed.

Lemma lrw_params tmap ps :
  lrw tmap defval_nd (lt_params ps) = lt_params (rw_params tmap ps).
Proof.
  induction ps as [p | p g r IH].
  - cbn [lt_params rw_params]. rewrite lrw_node. cbn [lrw_list].
    change (defval_nd (s "param") <? 0) with false. cbv iota.
    change (lrw tmap defval_nd (LNode (s "param") ?x))
      with (lrw tmap defval_nd (lt_param p)).
    fold (lt_param p). rewrite lrw_param. reflexivity.
  - cbn [lt_params rw_params]. rewrite lrw_node. cbn [lrw_list]. unfold lx.
    change (defval_nd (s "param") <? 0) with false. cbv iota.
    fold (lt_param p). rewrite lrw_param.
    destruct (params_is_node r) as [ks Hr]. rewrite Hr.
    change (defval_nd (s "params") <? 0) with false. cbv iota.
    rewrite <- Hr, IH. lrw_tokens tmap. reflexivity.
Qed.

Lemma lrw_start tmap sg :
  lrw tmap defval_nd (lt_start sg) = lt_start (rw_sig_gaps tmap sg).
Proof.
  unfold lt_start, rw_sig_gaps. cbn [s_type s_gname s_name s_glpar s_params s_grpar].
  rewrite lrw_node. f_equal. cbn [lrw_list]. unfold lx.
  destruct (type_is_node (s_type sg)) as [ks Ht]. rewrite Ht.
  change (defval_nd (s "type") <? 0) with false. cbv iota.
  rewrite <- Ht, (proj1 (lrw_syntax tmap)).
  change (defval_nd (s "fnname") <? 0) with false. cbv iota.
  rewrite lrw_node. cbn [lrw_list].
  destruct (params_is_node (s_params sg)) as [ks' Hp]. rewrite Hp.
  change (defval_nd (s "params") <? 0) with false. cbv iota.
  rewrite <- Hp, lrw_params. lrw_tokens tmap. reflexivity.
Qed.

Lemma defval_emit_fn_by_kind T : defval_emit_fn T = by_kind zero defval_nd T.
Proof. destruct T; reflexivity. Qed.

Lemma defval_nd_nonpos d : defval_nd d <= 0.
Proof. unfold defval_nd. destruct (str_eqb d _); lia. Qed.

Lemma rewrite_sig_closed tmap sg :
  rewrite_sig (rewrite_tokens tmap (xparse sg)) (text sg) defval_emit_fn
  = Some (trimmed (rw_sig_gaps tmap sg)).
Proof.
  unfold rewrite_sig, xparse. change 0 with (len []) at 1.
  rewrite (emit_place tmap (lt_start sg) defval_emit_fn zero defval_nd []
             (s_trail sg) (new_emit (text sg)) defval_emit_fn_by_kind
             (solid_start sg) eq_refl (or_introl eq_refl)).
  cbn [new_emit pos sval app]. change (0 <=? -1) with false.
  rewrite (lemit_lrw tmap defval_nd (lt_start sg) defval_nd_nonpos false
             eq_refl).
  rewrite lrw_start, (lemit_verbatim _ false (solid_start _)). reflexivity.
Qed.

Lemma strip_lead_text t :
  ltext (lt_type (strip_lead t)) = body (lt_type t).
Proof.
  destruct t as [[g|] [g' n | g' n glt args ggt] rs]; reflexivity.
Qed.

Lemma rw_sig_text tmap sg :
  text (rw_sig tmap sg) = trimmed (rw_sig_gaps tmap sg).
Proof.
  unfold text, trimmed, rw_sig, rw_sig_gaps, lt_start.
  cbn [s_type s_gname s_name s_glpar s_params s_grpar s_trail ltext body
         flat_map].
  rewrite strip_lead_text, app_nil_r. reflexivity.
Qed.

Lemma rewrite_signature_closed XP tmap sg :
  XP (text sg) = Some (xparse sg) ->
  rewrite_signature XP (text sg) tmap = Some (text (rw_sig tmap sg)).
Proof.
  intro H. unfold rewrite_signature. rewrite H, rewrite_sig_closed, rw_sig_text.
  reflexivity.
Qed.

Example rewritten_add :
  text (rw_sig _TYPE_NSMAP sig_add)
  = s "at::Tensor add(const at::Tensor & self, at::Scalar other)".
Proof. reflexivity. Qed.

(** ** The projections succeed on the trees of the grammar *)

Lemma place_param_node o p :
  exists cs, place o (lt_param p) = Node (s "param") cs.
Proof. unfold lt_param. rewrite place_node. eexists. reflexivity. Qed.



Lemma text_from_name sg :
  text sg = before_name sg ++ ltext (lt_fnname sg)
            ++ (s_glpar sg ++ s "(") ++ ltext (lt_params (s_params sg))
            ++ after_params sg.
Proof.
  rewrite text_parts. unfold before_params. rewrite <- !app_assoc.
  reflexivity.
Qed.

Lemma get_function_signature_closed sg namefn :
  get_function_signature (xparse sg) (text sg) namefn
  = Some (body (lt_type (s_type sg)) ++ s " " ++ namefn (s_name sg) ++ s "("
          ++ body (lt_params (s_params sg)) ++ s ")",
          s_name sg, namefn (s_name sg)).
Proof.
  unfold get_function_signature.
  rewrite typed_child_type, typed_child_fnname, typed_child_params.
  rewrite (emit_place_plain (lt_type (s_type sg)) emit_verbatim zero zero []
             (ltext (lt_fnname sg) ++ (s_glpar sg ++ s "(")
              ++ ltext (lt_params (s_params sg)) ++ after_params sg)
             (new_emit (text sg)) emit_verbatim_by_kind (solid_type _));
    [| cbn [new_emit sref app]; apply text_from_name | reflexivity].
  rewrite (lemit_verbatim _ false (solid_type _)). cbn [fst snd].
  unfold lt_fnname at 1. rewrite place_node. unfold lx.
  cbn [place_list place value].
  set (e1 := append _ _).
  rewrite (emit_place_plain (lt_params (s_params sg)) emit_verbatim zero zero
             (before_params sg) (after_params sg) e1 emit_verbatim_by_kind
             (solid_params _));
    [| subst e1; cbn [append new_emit sref]; apply text_parts | reflexivity].
  rewrite (lemit_verbatim _ false (solid_params _)).
  subst e1. cbn [sval append new_emit fst app]. f_equal. f_equal. f_equal.
  rewrite <- !app_assoc. reflexivity.
Qed.

Lemma stdfunc_emit_fn_by_kind T :
  stdfunc_emit_fn T = by_kind zero stdfunc_nd T.
Proof. destruct T; reflexivity. Qed.

Lemma create_stdfunc_sig_closed sg :
  create_stdfunc_sig (xparse sg) (text sg)
  = Some (fst (lemit [] zero stdfunc_nd (lt_type (s_type sg)) false) ++ s "("
          ++ fst (lemit [] zero stdfunc_nd (lt_params (s_params sg)) false)
          ++ s ")").
Proof.
  unfold create_stdfunc_sig.
  rewrite typed_child_type, typed_child_params.
  rewrite (emit_place_plain (lt_type (s_type sg)) stdfunc_emit_fn zero
             stdfunc_nd []
             (ltext (lt_fnname sg) ++ (s_glpar sg ++ s "(")
              ++ ltext (lt_params (s_params sg)) ++ after_params sg)
             (new_emit (text sg)) stdfunc_emit_fn_by_kind (solid_type _));
    [| cbn [new_emit sref app]; apply text_from_name | reflexivity].
  set (e1 := append _ _).
  rewrite (emit_place_plain (lt_params (s_params sg)) stdfunc_emit_fn zero
             stdfunc_nd (before_params sg) (after_params sg) e1
             stdfunc_emit_fn_by_kind (solid_params _));
    [| subst e1; cbn [append new_emit sref]; apply text_parts | reflexivity].
  subst e1. cbn [sval append new_emit app]. f_equal.
  rewrite <- !app_assoc. reflexivity.
Qed.

(** ** The record of a blacklisted declaration *)




(** ** The blacklist *)

Lemma match_cudnn_spec x :
  match_cudnn x = true <-> before_paren (s "cudnn") x.
Proof.
  unfold before_paren. induction x as [|c r IH]; cbn [match_cudnn].
  - split; [discriminate|]. intros (pre & post & H & _).
    destruct pre; discriminate.
  - rewrite orb_true_iff, andb_true_iff, negb_true_iff, IH. split.
    + intros [Hp | [Hc (pre & post & -> & Hn)]].
      * apply is_prefix_spec in Hp as [post Hp]. exists [], post.
        split; [exact Hp | intros []].
      * exists (c :: pre), post. split; [reflexivity|].
        intros [E | Hin]; [|exact (Hn Hin)].
        subst c. discriminate.
    + intros ([|c' pre] & post & H & Hn).
      * left. apply is_prefix_spec. exists post. exact H.
      * right. cbn [app] in H. injection H as <- ->. split.
        -- destruct (Ascii.eqb c "("%char) eqn:E; [|reflexivity].
           apply Ascii.eqb_eq in E. exfalso. apply Hn. left. auto.
        -- exists pre, post. split; [reflexivity|].
           intro Hin. apply Hn. right. exact Hin.
Qed.

(** X9: a function is blacklisted exactly when [cudnn] occurs in its name or
    in its map signature with no open parenthesis in front of it (the
    blacklist set is empty, and the one blacklist pattern is matched from the
    start of the text). *)
Theorem X9_blacklist_is_cudnn_before_paren (fname mapsig : str) :
  is_blacklisted_fn fname mapsig = true
  <-> before_paren (s "cudnn") fname \/ before_paren (s "cudnn") mapsig.
Proof.
  unfold is_blacklisted_fn. cbn [_FN_BLACKLIST mem existsb orb].
  rewrite orb_true_iff, !match_cudnn_spec. reflexivity.
Qed.

(** ** Canonical keys *)

(** X19: the canonical key holds no space, canonicalising it again changes
    nothing, and the key of a concatenation is the concatenation of the
    keys. *)
Theorem X19_mapsig_key_canonical (a b : str) :
  ~ In " "%char (get_mapsig_key a)
  /\ get_mapsig_key (get_mapsig_key a) = get_mapsig_key a
  /\ get_mapsig_key (a ++ b) = get_mapsig_key a ++ get_mapsig_key b.
Proof.
  unfold get_mapsig_key. repeat split.
  - intro H. apply filter_In in H as [_ H]. discriminate H.
  - induction a as [|c a IH]; [reflexivity|]. cbn [filter].
    destruct (negb (Ascii.eqb c " "%char)) eqn:E; [|exact IH].
    cbn [filter]. rewrite E, IH. reflexivity.
  - apply filter_app.
Qed.

(** ** The registration statement *)

Lemma split_aux_skip sep u : forall b cur,
  split_aux sep (u ++ b) (List.length u) cur = split_aux sep b 0 cur.
Proof.
  induction u as [|c u IH]; intros b cur; [reflexivity|].
  cbn [app List.length split_aux]. apply IH.
Qed.

Lemma split_aux_pass c0 sep' a : forall x cur,
  ~ In c0 a ->
  split_aux (c0 :: sep') (a ++ x) 0 cur
  = split_aux (c0 :: sep') x 0 (rev a ++ cur).
Proof.
  induction a as [|c a IH]; intros x cur Hn; [reflexivity|].
  cbn [app split_aux is_prefix].
  assert (E : Ascii.eqb c0 c = false).
  { destruct (Ascii.eqb c0 c) eqn:E; [|reflexivity].
    apply Ascii.eqb_eq in E. exfalso. apply Hn. left. auto. }
  rewrite E. cbn [andb]. rewrite IH by (intro H; apply Hn; right; exact H).
  cbn [rev]. rewrite <- app_assoc. reflexivity.
Qed.

Lemma split_at c0 sep' a b :
  ~ In c0 a ->
  split (a ++ (c0 :: sep') ++ b) (c0 :: sep') = a :: split b (c0 :: sep').
Proof.
  intro Hn. unfold split. rewrite split_aux_pass by exact Hn.
  cbn [app split_aux].
  assert (Hp : is_prefix (c0 :: sep') (c0 :: sep' ++ b) = true)
    by (apply is_prefix_spec; exists b; reflexivity).
  rewrite Hp. rewrite app_nil_r, rev_involutive. f_equal.
  replace (List.length (c0 :: sep') - 1)%nat with (List.length sep')
    by (cbn [List.length]; lia).
  apply split_aux_skip.
Qed.

Lemma split_none c0 sep' a :
  ~ In c0 a -> split a (c0 :: sep') = [a].
Proof.
  intro Hn. unfold split. rewrite <- (app_nil_r a) at 1.
  rewrite split_aux_pass by exact Hn. cbn [split_aux].
  rewrite app_nil_r, rev_involutive. reflexivity.
Qed.

Lemma generate_unboxed_schema ns name rest overload override_fn :
  plain_name ns -> plain_name name ->
  generate_unboxed (schema_of ns name rest) overload override_fn
  = Some (unboxed_line name overload override_fn).
Proof.
  intros [Hc1 Hp1] [Hc2 Hp2]. unfold generate_unboxed, schema_of.
  replace (ns ++ s "::" ++ name ++ s "(" ++ rest)
    with ((ns ++ s "::" ++ name) ++ s "(" ++ rest)
    by (rewrite <- !app_assoc; reflexivity).
  change (s "(") with ("("%char :: []).
  rewrite split_at.
  - cbn [index nth_error]. change (s "::") with (":"%char :: s ":").
    rewrite split_at by exact Hc1.
    rewrite split_none by exact Hc2. reflexivity.
  - intro H. apply in_app_or in H as [H | H]; [exact (Hp1 H)|].
    apply in_app_or in H as [H | H]; [|exact (Hp2 H)].
    cbn in H. destruct H as [H | [H | []]]; discriminate H.
Qed.

(** X11: for a schema [NS::NAME(...] whose namespace and operator name hold
    neither a colon nor an open parenthesis, [generate_unboxed] writes the
    registration of [NAME]; for a schema that holds no colon in front of its
    first open parenthesis, or neither of them at all, it raises. *)
Theorem X11_generate_unboxed_operator_name (overload override_fn : str) :
  (forall ns name rest,
     plain_name ns -> plain_name name ->
     generate_unboxed (schema_of ns name rest) overload override_fn
     = Some (unboxed_line name overload override_fn))
  /\ (forall x rest,
        plain_name x ->
        generate_unboxed (x ++ s "(" ++ rest) overload override_fn = None
        /\ generate_unboxed x overload override_fn = None).
Proof.
  split.
  - intros ns name rest. apply generate_unboxed_schema.
  - intros x rest [Hc Hp]. unfold generate_unboxed. split.
    + change (s "(") with ("("%char :: []). rewrite split_at by exact Hp.
      cbn [index nth_error]. change (s "::") with (":"%char :: s ":").
      rewrite split_none by exact Hc. reflexivity.
    + change (s "(") with ("("%char :: []). rewrite split_none by exact Hp.
      cbn [index nth_error]. change (s "::") with (":"%char :: s ":").
      rewrite split_none by exact Hc. reflexivity.
Qed.

Lemma X11_generate_unboxed_operator_name_witness :
  generate_unboxed (s "aten::add.Tensor(Tensor self, Tensor other) -> Tensor")
    (s "at::Tensor (*)(const at::Tensor &, const at::Tensor &)")
    (s "AtenXlaType::add")
  = Some (unboxed_line (s "add.Tensor")
            (s "at::Tensor (*)(const at::Tensor &, const at::Tensor &)")
            (s "AtenXlaType::add"))
  /\ generate_unboxed (s "add(Tensor self) -> Tensor") (s "o") (s "f") = None.
Proof.
  split.
  - apply (proj1 (X11_generate_unboxed_operator_name
                    (s "at::Tensor (*)(const at::Tensor &, const at::Tensor &)")
                    (s "AtenXlaType::add"))
             (s "aten") (s "add.Tensor")
             (s "Tensor self, Tensor other) -> Tensor"));
      split; vm_compute; intuition discriminate.
  - apply (proj2 (X11_generate_unboxed_operator_name (s "o") (s "f"))
             (s "add") (s "Tensor self) -> Tensor")).
    split; vm_compute; intuition discriminate.
Defined.

(** ** The keys bound to an override *)

Lemma mem_set_add k k' l :
  mem k (set_add k' l) = str_eqb k k' || mem k l.
Proof.
  unfold set_add. destruct (mem k' l) eqn:E.
  - destruct (str_eqb k k') eqn:Ek; [|reflexivity].
    apply str_eqb_spec in Ek. subst k'. rewrite E. reflexivity.
  - unfold mem. rewrite existsb_app. cbn [existsb]. rewrite orb_false_r.
    apply orb_comm.
Qed.

Lemma registration_step_overridden ov st fgen st' :
  registration_step ov st fgen = Some st' ->
  overridden st'
  = if dict_has ov (key_of fgen)
    then set_add (key_of fgen) (overridden st)
    else overridden st.
Proof.
  unfold registration_step, key_of.
  destruct (requires_registration fgen ov) eqn:Hr; cbn [negb].
  - destruct (dict_has ov (get_mapsig_key (mapsig fgen))) eqn:Hk.
    + change (truthy (Some (s "AtenXlaType::" ++ func fgen))) with true.
      cbv iota.
      destruct (generate_unboxed _ _ _); [|discriminate].
      destruct (mem (mapsig fgen) _FN_AUTOGRAD_XLA); intros [= <-];
        reflexivity.
    + destruct (truthy (code fgen)).
      * destruct (xfunc fgen) as [|c x]; cbn [truthy].
        -- intros [= <-]. reflexivity.
        -- destruct (generate_unboxed _ _ _); [|discriminate].
           destruct (mem (mapsig fgen) _FN_AUTOGRAD_XLA); intros [= <-];
             reflexivity.
      * cbn [truthy]. intros [= <-]. reflexivity.
  - intros [= <-]. unfold requires_registration in Hr.
    apply orb_false_iff in Hr as [Hr _].
    apply orb_false_iff in Hr as [_ Hr]. rewrite Hr. reflexivity.
Qed.

Lemma registration_step_total ov st fgen :
  schema_ok (aten_sig fgen) ->
  exists st', registration_step ov st fgen = Some st'.
Proof.
  intros (ns & name & rest & Ha & Hn & Hm). unfold registration_step.
  destruct (requires_registration fgen ov); cbn [negb]; [|eauto].
  assert (Hu : forall o f, generate_unboxed (aten_sig fgen) o f
                           = Some (unboxed_line name o f))
    by (intros o f; rewrite Ha; apply generate_unboxed_schema; assumption).
  destruct (dict_has ov (get_mapsig_key (mapsig fgen))).
  - change (truthy (Some (s "AtenXlaType::" ++ func fgen))) with true.
    cbv iota. rewrite Hu.
    destruct (mem (mapsig fgen) _FN_AUTOGRAD_XLA); eauto.
  - destruct (truthy (code fgen)).
    + destruct (xfunc fgen) as [|c x] eqn:Ex; cbn [truthy]; [eauto|].
      rewrite Hu. destruct (mem (mapsig fgen) _FN_AUTOGRAD_XLA); eauto.
    + cbn [truthy]. eauto.
Qed.

Lemma registration_loop_overridden ov fgens : forall st st',
  registration_loop ov st fgens = Some st' ->
  forall k,
    mem k (overridden st') = true
    <-> mem k (overridden st) = true
        \/ exists fgen, In fgen fgens /\ key_of fgen = k
                        /\ dict_has ov k = true.
Proof.
  induction fgens as [|fgen r IH]; intros st st' H k.
  - injection H as <-. split; [auto|]. intros [H | (f & [] & _)]. exact H.
  - cbn [registration_loop] in H.
    destruct (registration_step ov st fgen) as [st1|] eqn:E; [|discriminate].
    rewrite (IH st1 st' H k).
    rewrite (registration_step_overridden ov st fgen st1 E).
    destruct (dict_has ov (key_of fgen)) eqn:Hk.
    + rewrite mem_set_add, orb_true_iff, str_eqb_spec. split.
      * intros [[-> | Hm] | (f & Hf & He & Hd)].
        -- right. exists fgen. repeat split; [left; reflexivity | exact Hk].
        -- left. exact Hm.
        -- right. exists f. repeat split; [right; exact Hf|exact He|exact Hd].
      * intros [Hm | (f & [<- | Hf] & He & Hd)].
        -- left. right. exact Hm.
        -- left. left. symmetry. exact He.
        -- right. exists f. repeat split; assumption.
    + split.
      * intros [Hm | (f & Hf & He & Hd)]; [left; exact Hm|].
        right. exists f. repeat split; [right; exact Hf|exact He|exact Hd].
      * intros [Hm | (f & [<- | Hf] & He & Hd)].
        -- left. exact Hm.
        -- rewrite <- He in Hd. congruence.
        -- right. exists f. repeat split; assumption.
Qed.

Lemma registration_loop_total ov fgens : forall st,
  Forall (fun fgen => schema_ok (aten_sig fgen)) fgens ->
  exists st', registration_loop ov st fgens = Some st'.
Proof.
  induction fgens as [|fgen r IH]; intros st H; [eexists; reflexivity|].
  inversion H as [|? ? Hf Hr]; subst. cbn [registration_loop].
  destruct (registration_step_total ov st fgen Hf) as [st1 ->].
  apply IH. exact Hr.
Qed.

Lemma generate_registrations_keys (fgens : list FuncGen)
  (overrides : dict str) :
  Forall (fun fgen => schema_ok (aten_sig fgen)) fgens ->
  exists regs od,
    generate_registrations fgens overrides = Some (regs, od)
    /\ forall k,
         In k od
         <-> exists fgen, In fgen fgens /\ key_of fgen = k
                          /\ dict_has overrides k = true.
Proof.
  intro H. unfold generate_registrations.
  destruct (registration_loop_total overrides fgens
              (mkReg (s "TORCH_LIBRARY_IMPL(aten, XLA, m) {" ++ nl)
                 (s "TORCH_LIBRARY_IMPL(aten, AutogradXLA, m) {" ++ nl) []) H)
    as [st' E].
  rewrite E. eexists. eexists. split; [reflexivity|].
  intro k. rewrite <- mem_In.
  rewrite (registration_loop_overridden overrides fgens _ st' E k).
  cbn [overridden mem existsb]. split.
  - intros [H0 | H0]; [discriminate | exact H0].
  - intro H0. right. exact H0.
Qed.

(** X12: when every record carries a schema [NS::NAME(...],
    [generate_registrations] returns, and the set of overridden keys it
    returns holds exactly the canonical keys of the records that the override
    table has an entry for. *)
Theorem X12_overridden_keys (fgens : list FuncGen) (overrides : dict str) :
  Forall (fun fgen => schema_ok (aten_sig fgen)) fgens ->
  exists regs od,
    generate_registrations fgens overrides = Some (regs, od)
    /\ forall k,
         In k od
         <-> exists fgen, In fgen fgens /\ key_of fgen = k
                          /\ dict_has overrides k = true.
Proof. apply generate_registrations_keys. Qed.

Lemma schema_ok_max_pool2d :
  Forall (fun fgen => schema_ok (aten_sig fgen)) [fgen_max_pool2d].
Proof.
  constructor; [|constructor].
  exists (s "aten"), (s "max_pool2d"),
    (s "Tensor self, int[2] kernel_size, int[2] stride=[], int[2] padding=0, int[2] dilation=1, bool ceil_mode=False) -> Tensor").
  split; [reflexivity|].
  split; split; vm_compute; intuition discriminate.
Defined.

Lemma X12_overridden_keys_witness :
  exists regs od,
    generate_registrations [fgen_max_pool2d] ov_max_pool2d = Some (regs, od)
    /\ forall k,
         In k od
         <-> exists fgen, In fgen [fgen_max_pool2d] /\ key_of fgen = k
                          /\ dict_has ov_max_pool2d k = true.
Proof.
  exact (X12_overridden_keys [fgen_max_pool2d] ov_max_pool2d
           schema_ok_max_pool2d).
Defined.

Lemma dict_has_In {V} (d : dict V) k v : In (k, v) d -> dict_has d k = true.
Proof.
  unfold dict_has. induction d as [|[k' v'] r IH]; intros H; [destruct H|].
  cbn [dict_get]. destruct (str_eqb k k') eqn:E; [reflexivity|].
  destruct H as [H | H]; [|exact (IH H)].
  injection H as -> ->. rewrite str_eqb_refl in E. discriminate.
Qed.

Lemma all_used_iff (fgens : list FuncGen) (overrides : dict str)
  (od : list str) :
  canonical_keys overrides ->
  (forall k,
     In k od
     <-> exists fgen, In fgen fgens /\ key_of fgen = k
                      /\ dict_has overrides k = true) ->
  forallb (fun it => negb (unused od it)) overrides = true
  <-> forall k v, In (k, v) overrides ->
                  exists fgen, In fgen fgens /\ key_of fgen = k.
Proof.
  intros Hc Hod. rewrite forallb_forall. split.
  - intros H k v Hin. specialize (H (k, v) Hin). unfold unused in H.
    rewrite negb_involutive in H. cbn [fst] in H.
    rewrite (Hc k v Hin) in H. apply mem_In, Hod in H.
    destruct H as (fgen & Hf & Hk & _). exists fgen. split; assumption.
  - intros H [k v] Hin. unfold unused. rewrite negb_involutive. cbn [fst].
    rewrite (Hc k v Hin). apply mem_In, Hod.
    destruct (H k v Hin) as (fgen & Hf & Hk). exists fgen.
    repeat split; [exact Hf | exact Hk | exact (dict_has_In _ _ _ Hin)].
Qed.

(** X20: with canonical keys in the override table, the check of the
    overrides that follows the registrations passes exactly when every entry
    of the table has the canonical key of some record. *)
Theorem X20_overrides_all_used (fgens : list FuncGen) (overrides : dict str) :
  Forall (fun fgen => schema_ok (aten_sig fgen)) fgens ->
  canonical_keys overrides ->
  exists regs od,
    generate_registrations fgens overrides = Some (regs, od)
    /\ (fst (check_overrides overrides od) = true
        <-> forall k v, In (k, v) overrides ->
                        exists fgen, In fgen fgens /\ key_of fgen = k).
Proof.
  intros Hs Hc.
  destruct (generate_registrations_keys fgens overrides Hs)
    as (regs & od & E & Hod).
  exists regs, od. split; [exact E|].
  rewrite check_overrides_spec. cbn [fst].
  exact (all_used_iff fgens overrides od Hc Hod).
Qed.

Lemma canonical_keys_max_pool2d : canonical_keys ov_max_pool2d.
Proof.
  intros k v [H | []]. injection H as <- _. reflexivity.
Defined.

Lemma X20_overrides_all_used_witness :
  exists regs od,
    generate_registrations [fgen_max_pool2d] ov_max_pool2d = Some (regs, od)
    /\ (fst (check_overrides ov_max_pool2d od) = true
        <-> forall k v, In (k, v) ov_max_pool2d ->
                        exists fgen, In fgen [fgen_max_pool2d]
                                     /\ key_of fgen = k).
Proof.
  exact (X20_overrides_all_used [fgen_max_pool2d] ov_max_pool2d
           schema_ok_max_pool2d canonical_keys_max_pool2d).
Defined.

(** ** Remapped functions *)

Lemma generate_shape_checks_spec pv fname ix :
  generate_shape_checks pv ix fname
  = if forallb (in_range (List.length pv)) ix
    then Some (flat_map (shape_check_line pv fname) ix)
    else None.
Proof.
  induction ix as [|[i j] r IH]; [reflexivity|].
  cbn [generate_shape_checks forallb flat_map]. unfold in_range at 1, index.
  cbn [fst snd].
  destruct (Nat.ltb_spec i (List.length pv)) as [Hi | Hi].
  - rewrite (nth_error_nth' pv [] Hi).
    destruct (Nat.ltb_spec j (List.length pv)) as [Hj | Hj]; cbn [andb].
    + rewrite (nth_error_nth' pv [] Hj), IH.
      destruct (forallb _ r); [|reflexivity].
      unfold shape_check_line. cbn [fst snd].
      repeat rewrite <- app_assoc. reflexivity.
    + apply nth_error_None in Hj. rewrite Hj. reflexivity.
  - apply nth_error_None in Hi. rewrite Hi. reflexivity.
Qed.

(** X14: for remap options that name a target and have no template, the body
    of a remapped function checks the shapes of each listed pair of
    parameters, in order, and returns the call of the target on all the
    parameter names in order; it raises exactly when an index of a listed pair
    names no parameter. *)
Theorem X14_remap_body (expand : str -> list str -> option str)
  (fname sig : str) (params : list Tree) (pv : list str) (target : str)
  (checks : option (list (nat * nat))) :
  get_param_names params = Some pv ->
  target <> [] ->
  generate_aten_remap expand fname sig params (remap_opts target checks)
  = if forallb (in_range (List.length pv)) (checked_pairs checks)
    then Some (remap_body sig fname target pv (checked_pairs checks))
    else None.
Proof.
  intros Hp Ht. unfold generate_aten_remap, remap_opts.
  cbn [outfn_template outfn_name shape_check_indices]. rewrite Hp.
  destruct target as [|c target]; [congruence|]. cbn [truthy fmt].
  destruct checks as [ix|]; cbn [checked_pairs forallb].
  - rewrite generate_shape_checks_spec.
    destruct (forallb _ ix); [|reflexivity].
    unfold remap_body, create_call. repeat rewrite <- app_assoc. reflexivity.
  - unfold remap_body, create_call. cbn [flat_map app].
    repeat rewrite <- app_assoc. reflexivity.
Qed.

Lemma X14_remap_body_witness :
  generate_aten_remap no_template (s "s__th_and")
    (s "at::Tensor AtenXlaTypeDefault::s__th_and(const at::Tensor & self, const at::Tensor & other, at::Scalar alpha)")
    (params_of sig_add3) (remap_opts (s "AtenXlaType::__and__") (Some [(0, 1)%nat]))
  = Some (remap_body
            (s "at::Tensor AtenXlaTypeDefault::s__th_and(const at::Tensor & self, const at::Tensor & other, at::Scalar alpha)")
            (s "s__th_and") (s "AtenXlaType::__and__")
            [s "self"; s "other"; s "alpha"] [(0, 1)%nat])
  /\ generate_aten_remap no_template (s "f") (s "g") (params_of sig_cudnn)
       (remap_opts (s "AtenXlaType::__and__") (Some [(0, 1)%nat]))
     = None.
Proof.
  split.
  - exact (X14_remap_body no_template (s "s__th_and") _ (params_of sig_add3)
             [s "self"; s "other"; s "alpha"] (s "AtenXlaType::__and__")
             (Some [(0, 1)%nat]) eq_refl ltac:(discriminate)).
  - exact (X14_remap_body no_template (s "f") (s "g") (params_of sig_cudnn)
             [s "self"] (s "AtenXlaType::__and__")
             (Some [(0, 1)%nat]) eq_refl ltac:(discriminate)).
Defined.

(** ** The result and the return statement *)

(** X13: the body has a result assignment exactly when it has a return
    statement: for a [void] return type that is no pointer both are empty, and
    for every other return type neither is. *)
Theorem X13_result_iff_return (t : Tree) (rname rts : str)
  (rn : option str) (params : list Tree) (refp : option Tree)
  (fnopts : option FuncOpts) (a b : str) :
  generate_result_assignment t rname = Some a ->
  generate_return_stmt t rts rn params refp fnopts = Some b ->
  (a = [] <-> b = []).
Proof.
  unfold generate_result_assignment, generate_return_stmt.
  destruct (first_child t) as [rtype|]; [|discriminate].
  destruct (type_core rtype) as [ctype|]; [|discriminate].
  assert (Hv : forall x, str_eqb ctype (s x) = true ->
                         str_eqb (s x) (s "void") = false ->
                         is_plain_void rtype ctype = Some false).
  { intros x E Hx. apply str_eqb_spec in E. subst ctype.
    unfold is_plain_void. rewrite Hx. reflexivity. }
  destruct (str_eqb ctype (s "std::tuple")) eqn:E1.
  { rewrite (Hv _ E1 eq_refl). intros [= <-].
    destruct (get_tuple_return _ _ _ _ _ _); [|discriminate].
    intros [= <-]. split; discriminate. }
  destruct (str_eqb ctype (s "std::vector")) eqn:E2.
  { rewrite (Hv _ E2 eq_refl). intros [= <-].
    destruct (ref_name refp); [|discriminate].
    intros [= <-]. split; discriminate. }
  destruct (str_eqb ctype (s "Tensor")) eqn:E3.
  { rewrite (Hv _ E3 eq_refl). intros [= <-].
    destruct (index params 0); [|discriminate].
    destruct (get_return_value _ _ _ _ _); [|discriminate].
    intros [= <-]. split; discriminate. }
  destruct (is_plain_void rtype ctype) as [[|]|]; [| |discriminate].
  - intros [= <-] [= <-]. tauto.
  - intros [= <-] [= <-]. split; discriminate.
Qed.

Lemma X13_result_iff_return_witness :
  exists a b,
    generate_result_assignment (parse sig_add3) _RESULT_NAME = Some a
    /\ generate_return_stmt (parse sig_add3) (s "at::Tensor")
         (Some _RESULT_NAME) (params_of sig_add3) (index (params_of sig_add3) 0)
         None = Some b
    /\ (a = [] <-> b = []).
Proof.
  eexists. eexists. split; [reflexivity|]. split; [reflexivity|].
  exact (X13_result_iff_return (parse sig_add3) _RESULT_NAME (s "at::Tensor")
           (Some _RESULT_NAME) (params_of sig_add3)
           (index (params_of sig_add3) 0) None _ _ eq_refl eq_refl).
Defined.

(** ** The loop over the declarations *)

Lemma wrappers_closed (P XP : str -> option Tree)
  (expand : str -> list str -> option str) (wrapper_failure : FuncDef -> str)
  (ctx : Context) (fndefs : list FuncDef) : forall fgens log,
  wrappers P XP expand wrapper_failure ctx fndefs fgens log
  = (fgens ++ wrapped P XP expand ctx fndefs,
     log ++ failures P XP expand wrapper_failure ctx fndefs).
Proof.
  induction fndefs as [|ts r IH]; intros fgens log.
  - cbn. rewrite !app_nil_r. reflexivity.
  - cbn [wrappers wrapped failures flat_map].
    destruct (get_xla_wrapper P XP expand ts ctx) as [fgen|].
    + rewrite IH. cbn [opt_list app]. rewrite <- app_assoc. reflexivity.
    + rewrite IH. cbn [opt_list app]. rewrite <- app_assoc. reflexivity.
Qed.

(** X16: the loop of [generate] over the declarations keeps their order: the
    records are those of the declarations whose wrapper is built, one failure
    line is reported for each of the others, and the loop goes on after a
    failure, so that records and failure lines together count the
    declarations. *)
Theorem X16_wrappers_keep_order (P XP : str -> option Tree)
  (expand : str -> list str -> option str) (wrapper_failure : FuncDef -> str)
  (ctx : Context) (fndefs : list FuncDef) (fgens : list FuncGen)
  (log : list str) :
  wrappers P XP expand wrapper_failure ctx fndefs fgens log
  = (fgens ++ wrapped P XP expand ctx fndefs,
     log ++ failures P XP expand wrapper_failure ctx fndefs)
  /\ (List.length (wrapped P XP expand ctx fndefs)
      + List.length (failures P XP expand wrapper_failure ctx fndefs)
      = List.length fndefs)%nat.
Proof.
  split; [apply wrappers_closed|].
  induction fndefs as [|ts r IH]; [reflexivity|].
  cbn [wrapped failures flat_map].
  destruct (get_xla_wrapper P XP expand ts ctx) as [fgen|];
    cbn [opt_list app List.length]; unfold wrapped, failures in IH; lia.
Qed.

(** ** The loop of the default bridging over the parameters *)

Lemma last_opt_snoc l x : last_opt (l ++ [x]) = Some x.
Proof.
  unfold last_opt. destruct (l ++ [x]) eqn:E.
  - destruct l; discriminate.
  - rewrite <- E, last_last. reflexivity.
Qed.

Lemma fetcher_ok_add f name w :
  fetcher_ok f -> fetcher_ok (fst (fetcher_add f name w)).
Proof.
  unfold fetcher_ok, fetcher_add. cbn [fst tensors writeable]. intro H.
  assert (H' : Forall (fun i => (i < List.length (tensors f ++ [name]))%nat)
                 (writeable f)).
  { eapply Forall_impl; [|exact H]. cbn beta. intros i Hi.
    rewrite length_app. cbn [List.length]. lia. }
  destruct w; [|exact H'].
  apply Forall_app. split; [exact H'|]. constructor; [|constructor].
  rewrite length_app. cbn [List.length]. lia.
Qed.

Lemma bridging_step_inv fname fnopts refp st p st' :
  bridging_step fname fnopts refp st p = Some st' ->
  (exists x, b_param_vars st' = b_param_vars st ++ [x])
  /\ (fetcher_ok (b_fetcher st) -> fetcher_ok (b_fetcher st'))
  /\ (b_xla_ref_param st' = b_xla_ref_param st
      \/ b_xla_ref_param st' = last_opt (b_param_vars st'))
  /\ (opt_tree_eqb p refp = true -> no_explicit_ref fnopts ->
      b_xla_ref_param st' = last_opt (b_param_vars st')).
Proof.
  unfold bridging_step. intro H.
  destruct (param_type p) as [ptype|]; [|discriminate].
  destruct (type_core ptype) as [cptype|]; [|discriminate].
  destruct (param_name p) as [pname|]; [|discriminate].
  match type of H with
  | (st1 <- ?X ;; _) = _ => destruct X as [st1|] eqn:E1; [|discriminate]
  end.
  assert (Hst1 : (exists x, b_param_vars st1 = b_param_vars st ++ [x])
                 /\ (fetcher_ok (b_fetcher st) -> fetcher_ok (b_fetcher st1))
                 /\ b_xla_ref_param st1 = b_xla_ref_param st).
  { destruct (str_eqb cptype (s "TensorList")).
    { injection E1 as <-. cbn [b_param_vars b_fetcher b_xla_ref_param].
      split; [eexists; reflexivity|]. split; [auto | reflexivity]. }
    destruct (str_eqb cptype (s "TensorOptions")).
    { destruct (rewrite_tensor_options fname pname) as [gcode xname].
      injection E1 as <-. cbn [b_param_vars b_fetcher b_xla_ref_param].
      split; [eexists; reflexivity|]. split; [auto | reflexivity]. }
    destruct (str_eqb cptype (s "c10::optional")).
    { destruct (get_template_type_list ptype) as [l|]; [|discriminate].
      destruct (index l 0) as [t0|]; [|discriminate].
      destruct (type_core t0) as [w|]; [|discriminate].
      destruct (str_eqb w (s "Tensor")).
      - unfold fetcher_add_opt in E1. injection E1 as <-.
        cbn [b_param_vars b_fetcher b_xla_ref_param].
        split; [eexists; reflexivity|]. split; [auto | reflexivity].
      - injection E1 as <-. cbn [b_param_vars b_fetcher b_xla_ref_param].
        split; [eexists; reflexivity|]. split; [auto | reflexivity]. }
    destruct (negb (str_eqb cptype (s "Tensor"))).
    { injection E1 as <-. cbn [b_param_vars b_fetcher b_xla_ref_param].
      split; [eexists; reflexivity|]. split; [auto | reflexivity]. }
    destruct (type_is_const ptype) as [c|]; [|discriminate].
    pose proof (fetcher_ok_add (b_fetcher st) pname
                  (is_write_param fnopts pname (negb c))) as Hok.
    destruct (fetcher_add (b_fetcher st) pname
                (is_write_param fnopts pname (negb c))) as [f xname].
    injection E1 as <-. cbn [b_param_vars b_fetcher b_xla_ref_param].
    split; [eexists; reflexivity|]. split; [exact Hok | reflexivity]. }
  destruct Hst1 as (Hpv & Hok & Href).
  destruct (opt_tree_eqb p refp
            && negb (truthy (get_optional fnopts ref_param None))) eqn:Eb;
    injection H as <-; cbn [b_param_vars b_fetcher b_xla_ref_param].
  - split; [exact Hpv|]. split; [exact Hok|].
    split; [right; reflexivity|]. intros _ _. reflexivity.
  - split; [exact Hpv|]. split; [exact Hok|]. split; [left; exact Href|].
    intros Hp Hn. unfold no_explicit_ref in Hn. rewrite Hp, Hn in Eb.
    discriminate.
Qed.

Lemma ref_in_step fname fnopts refp st p st' :
  bridging_step fname fnopts refp st p = Some st' ->
  (ref_in st -> ref_in st')
  /\ (opt_tree_eqb p refp = true -> no_explicit_ref fnopts -> ref_in st').
Proof.
  intro H. apply bridging_step_inv in H as ([x Hpv] & _ & Hr & Hset).
  assert (Hlast : b_xla_ref_param st' = last_opt (b_param_vars st') ->
                  ref_in st').
  { intro E. exists x. rewrite E, Hpv, last_opt_snoc. split; [reflexivity|].
    apply in_or_app. right. left. reflexivity. }
  split.
  - intros (y & Hy & Hin). destruct Hr as [Hr | Hr]; [|exact (Hlast Hr)].
    exists y. rewrite Hr, Hpv. split; [exact Hy|].
    apply in_or_app. left. exact Hin.
  - intros Hp Hn. exact (Hlast (Hset Hp Hn)).
Qed.

Lemma bridging_loop_inv fname fnopts refp params : forall st st',
  bridging_loop fname fnopts refp st params = Some st' ->
  List.length (b_param_vars st')
  = (List.length (b_param_vars st) + List.length params)%nat
  /\ (fetcher_ok (b_fetcher st) -> fetcher_ok (b_fetcher st'))
  /\ (ref_in st -> ref_in st')
  /\ (no_explicit_ref fnopts ->
      (exists p, In p params /\ opt_tree_eqb p refp = true) -> ref_in st').
Proof.
  induction params as [|p r IH]; intros st st' H.
  - injection H as <-. cbn [List.length]. rewrite Nat.add_0_r.
    repeat split; auto. intros _ (p & [] & _).
  - cbn [bridging_loop] in H.
    destruct (bridging_step fname fnopts refp st p) as [st1|] eqn:E;
      [|discriminate].
    destruct (IH st1 st' H) as (Hlen & Hok & Hin & Hset).
    destruct (ref_in_step _ _ _ _ _ _ E) as (Hin1 & Hset1).
    apply bridging_step_inv in E as ([x Hpv] & Hok1 & _).
    repeat split.
    + rewrite Hlen, Hpv, length_app. cbn [List.length]. lia.
    + auto.
    + auto.
    + intros Hn (q & [<- | Hq] & Hp).
      * apply Hin, Hset1; assumption.
      * apply Hset; [exact Hn | exists q; split; assumption].
Qed.




(** ** The receiver of a member call *)

Lemma tree_eqb_refl t : tree_eqb t t = true.
Proof.
  induction t using Tree_rect' with
    (Q := fun cs =>
            (fix go (l l' : list Tree) : bool :=
               match l, l' with
               | [], [] => true
               | c :: r, c' :: r' => tree_eqb c c' && go r r'
               | _, _ => false
               end) cs cs = true).
  - cbn [tree_eqb]. rewrite !str_eqb_refl. reflexivity.
  - cbn [tree_eqb]. rewrite str_eqb_refl. exact IHt.
  - reflexivity.
  - rewrite IHt, IHt0. reflexivity.
Qed.

Lemma reference_loop_member fnopts params : forall rp ot r,
  reference_loop fnopts params rp ot = Some (Some r) ->
  In r params \/ rp = Some r \/ ot = Some r.
Proof.
  induction params as [|p rest IH]; intros rp ot r H.
  - cbn [reference_loop] in H. injection H as H.
    destruct rp; [right; left; exact H | right; right; exact H].
  - cbn [reference_loop] in H.
    destruct (param_type p) as [ptype|]; [|discriminate].
    destruct (unwrapped_core ptype) as [cptype|]; [|discriminate].
    destruct (param_name p) as [pname|]; [|discriminate].
    destruct (opt_str_eqb _ pname).
    { injection H as <-. left. left. reflexivity. }
    repeat match type of H with
           | context [if ?b then _ else _] => destruct b
           | context [match ?X with Some _ => _ | None => _ end] =>
               destruct X; [|discriminate]
           end;
      apply IH in H; destruct H as [H | [H | H]];
      first [ left; right; exact H
            | right; left; exact H
            | right; right; exact H
            | injection H as <-; left; left; reflexivity ].
Qed.

Lemma remove_first_In r l : In r l -> exists l', remove_first r l = Some l'.
Proof.
  induction l as [|y l IH]; intro H; [destruct H|]. cbn [remove_first].
  destruct (str_eqb y r) eqn:E; [eauto|].
  destruct H as [H | H].
  - subst y. rewrite str_eqb_refl in E. discriminate.
  - destruct (IH H) as [l' ->]. eauto.
Qed.

(** X17: when the policy options set no [ref_param] and a reference
    parameter is selected, the receiver that the loop of the default bridging
    leaves for a member call is one of the converted parameters, so that
    building the delegated call does not raise. *)
Theorem X17_member_call_receiver (ctx : Context) (fname : str)
  (fnopts : option FuncOpts) (params : list Tree) (r : Tree) (code : str)
  (xref : option str) (st : Bridging) :
  get_reference_param params fnopts = Some (Some r) ->
  no_explicit_ref fnopts ->
  bridging_loop fname fnopts (Some r) (bridging_start code xref) params
  = Some st ->
  ref_in st
  /\ exists call,
       get_handling_function ctx fname (b_xla_ref_param st) (b_param_vars st)
       = Some call.
Proof.
  intros Hr Hn Hl.
  assert (Hin : In r params).
  { apply reference_loop_member in Hr as [H | [H | H]];
      [exact H | discriminate | discriminate]. }
  destruct (bridging_loop_inv _ _ _ _ _ _ Hl) as (_ & _ & _ & Hset).
  assert (Href : ref_in st).
  { apply Hset; [exact Hn|]. exists r. split; [exact Hin|].
    cbn [opt_tree_eqb]. apply tree_eqb_refl. }
  split; [exact Href|].
  destruct Href as (x & Hx & Hxin). unfold get_handling_function.
  destruct (truthy _); [eauto|]. rewrite Hx.
  destruct (remove_first_In x _ Hxin) as [l' ->]. eauto.
Qed.

Lemma X17_member_call_receiver_witness :
  exists r st,
    get_reference_param (params_of sig_add3) None = Some (Some r)
    /\ bridging_loop (s "add") None (Some r)
         (bridging_start [] (Some (s "self"))) (params_of sig_add3) = Some st
    /\ ref_in st
    /\ exists call,
         get_handling_function ctx_without_add (s "add") (b_xla_ref_param st)
           (b_param_vars st) = Some call.
Proof.
  eexists. eexists. split; [reflexivity|]. split; [reflexivity|].
  exact (X17_member_call_receiver ctx_without_add (s "add") None
           (params_of sig_add3) _ [] (Some (s "self")) _ eq_refl eq_refl
           eq_refl).
Defined.

(** ** The queries on the trees of the grammar *)

Lemma type_queries o t :
  queries_agree (place o (lt_type t)) t
  /\ queries_agree (reduce (place o (lt_type t))) t.
Proof.
  unfold queries_agree.
  destruct t as [[g|] [g' n | g' n glt args ggt] [[gr [|]]|]];
    repeat split; reflexivity.
Qed.

Lemma param_queries o p :
  param_name (reduce (place o (lt_param p))) = Some (p_name p)
  /\ param_type (reduce (place o (lt_param p)))
     = Some (reduce (place o (lt_type (p_type p)))).
Proof.
  destruct p as [[c co rs] gn n dv]. cbn [p_name p_type].
  split; destruct dv as [[[a b] v]|]; reflexivity.
Qed.

Lemma first_child_parse sg :
  first_child (parse sg) = Some (reduce (place (len []) (lt_type (s_type sg)))).
Proof.
  unfold parse. rewrite xparse_children, reduce_node.
  destruct (place_type_node (len []) (s_type sg)) as [ct Ht].
  rewrite Ht. reflexivity.
Qed.

(** X7: on the tree either parser builds for a type, [type_core] returns the
    name of the type (the name in front of [<] for a template),
    [type_is_const] tells whether it is written [const], and [type_is_refptr]
    tells whether it ends in the given marker; the first child of the tree of
    a signature is the tree of its return type. *)
Theorem X7_type_queries (sg : signature) (o : Z) (t : type_) :
  queries_agree (place o (lt_type t)) t
  /\ queries_agree (reduce (place o (lt_type t))) t
  /\ exists T, first_child (parse sg) = Some T /\ queries_agree T (s_type sg).
Proof.
  split; [apply type_queries|]. split; [apply type_queries|].
  eexists. split; [apply first_child_parse | apply type_queries].
Qed.

Lemma extract_list_ptrees ps : forall o,
  extract_list (reduce (place o (lt_params ps))) = Some (ptrees o ps).
Proof.
  induction ps as [p | p g r IH]; intro o.
  - cbn [lt_params ptrees]. rewrite place_node, reduce_node. cbn [place_list].
    destruct (place_param_node o p) as [cs ->]. cbn [reduce_list].
    reflexivity.
  - cbn [lt_params ptrees]. rewrite place_node, reduce_node. cbn [place_list].
    destruct (place_param_node o p) as [cs ->].
    specialize (IH (o + len (ltext (lt_param p))
                    + len (ltext (lx "COMMA" g (s ","))))).
    destruct (place_params_node
                (o + len (ltext (lt_param p))
                 + len (ltext (lx "COMMA" g (s ",")))) r) as [cs' Hn].
    rewrite Hn in IH |- *. unfold lx at 1.
    cbn [reduce_list place ttype l_type].
    change (mem (s "COMMA") anonymous) with true. cbv iota.
    rewrite reduce_node in IH. repeat rewrite reduce_node.
    remember (Node (s "params") (reduce_list cs')) as c1 eqn:Hc1.
    assert (E : extract_list
                  (Node (s "params") [Node (s "param") (reduce_list cs); c1])
                = (r <- extract_list c1 ;;
                   Some (Node (s "param") (reduce_list cs) :: r))).
    { rewrite Hc1. cbn [extract_list]. rewrite str_eqb_refl. reflexivity. }
    rewrite E, IH. reflexivity.
Qed.

Lemma get_parameters_ptrees sg :
  get_parameters (parse sg)
  = Some (ptrees (len (before_params sg)) (s_params sg)).
Proof.
  unfold parse. rewrite xparse_children, reduce_node.
  destruct (place_type_node (len []) (s_type sg)) as [ct Ht].
  destruct (place_params_node (len (before_params sg)) (s_params sg))
    as [cp Hp].
  pose proof (extract_list_ptrees (s_params sg) (len (before_params sg)))
    as Hl.
  rewrite Ht. unfold lt_fnname at 1. rewrite place_node.
  unfold lx. cbn [reduce_list place ttype l_type].
  change (mem (s "LPAR") anonymous) with true.
  change (mem (s "RPAR") anonymous) with true. cbv iota.
  rewrite Hp in Hl |- *. cbn [reduce_list].
  rewrite reduce_node in Hl. repeat rewrite reduce_node.
  cbn [get_parameters]. rewrite str_eqb_refl. exact Hl.
Qed.

Lemma get_param_names_ptrees ps : forall o,
  get_param_names (ptrees o ps) = Some (map p_name (params_list ps)).
Proof.
  induction ps as [p | p g r IH]; intro o; cbn [ptrees get_param_names].
  - rewrite (proj1 (param_queries o p)). reflexivity.
  - rewrite (proj1 (param_queries o p)), IH. reflexivity.
Qed.

Lemma ptrees_agree ps : forall o,
  Forall2 param_agrees (ptrees o ps) (params_list ps).
Proof.
  assert (H : forall o p, param_agrees (reduce (place o (lt_param p))) p).
  { intros o p. destruct (param_queries o p) as [Hn Ht].
    split; [exact Hn|]. eexists. split; [exact Ht | apply type_queries]. }
  induction ps as [p | p g r IH]; intro o; cbn [ptrees params_list].
  - constructor; [apply H | constructor].
  - constructor; [apply H | apply IH].
Qed.

(** X6: [get_parameters] returns, for the reduced tree of a signature, one
    tree for each declared parameter, in order; [get_param_names] reads the
    declared names off them, and the type queries on each of them answer as
    the parameter is written. *)
Theorem X6_parameters_round_trip (sg : signature) :
  exists l,
    get_parameters (parse sg) = Some l
    /\ get_param_names l = Some (map p_name (params_list (s_params sg)))
    /\ Forall2 param_agrees l (params_list (s_params sg)).
Proof.
  exists (ptrees (len (before_params sg)) (s_params sg)).
  split; [apply get_parameters_ptrees|].
  split; [apply get_param_names_ptrees | apply ptrees_agree].
Qed.

(** ** The return type as text *)





(** ** The emitter only appends *)

Lemma appends_refl e : appends e e.
Proof. split; [reflexivity|]. exists []. symmetry. apply app_nil_r. Qed.

Lemma appends_trans a b c : appends a b -> appends b c -> appends a c.
Proof.
  intros [H1 [x Hx]] [H2 [y Hy]]. split; [congruence|].
  exists (x ++ y). rewrite Hy, Hx, app_assoc. reflexivity.
Qed.

Lemma advance_appends e k : appends e (advance e k).
Proof.
  unfold advance, appends. cbn [sref sval]. split; [reflexivity|].
  destruct (_ <? _); eexists; [rewrite <- app_assoc|]; reflexivity.
Qed.

Lemma emit_tokens_appends t : forall e, appends e (emit_tokens t e).
Proof.
  induction t using Tree_rect' with
    (Q := fun cs => forall e, appends e (emit_tokens_list cs e)).
  - intro e. apply advance_appends.
  - intro e. rewrite emit_tokens_node. apply IHt.
  - intro e. apply appends_refl.
  - intro e. cbn [emit_tokens_list].
    eapply appends_trans; [apply IHt | apply IHt0].
Qed.

Lemma skip_keeps e t e' :
  skip e t = Some e' -> sref e' = sref e /\ sval e' = sval e.
Proof.
  unfold skip. destruct (0 <=? pos e).
  - destruct (last_match t); [|discriminate]. intros [= <-].
    split; reflexivity.
  - intros [= <-]. split; reflexivity.
Qed.

Lemma emit_string_appends fn t :
  forall e e', emit_string fn t e = Some e' -> appends e e'.
Proof.
  induction t using Tree_rect' with
    (Q := fun cs => forall e e', emit_list fn cs e = Some e' -> appends e e').
  - intros e e'. cbn [emit_string].
    destruct (0 <? fn (Tok k)).
    + intros [= <-]. apply advance_appends.
    + destruct (fn (Tok k) =? 0).
      * intros [= <-]. apply advance_appends.
      * intro H. apply skip_keeps in H as [H1 H2]. split; [exact H1|].
        exists []. rewrite H2. symmetry. apply app_nil_r.
  - intros e e'. rewrite emit_string_node.
    destruct (0 <? fn (Node d cs)).
    + intros [= <-]. exact (emit_tokens_appends (Node d cs) e).
    + destruct (fn (Node d cs) =? 0).
      * apply IHt.
      * intro H. apply skip_keeps in H as [H1 H2]. split; [exact H1|].
        exists []. rewrite H2. symmetry. apply app_nil_r.
  - intros e e' [= <-]. apply appends_refl.
  - intros e e'. cbn [emit_list].
    destruct (emit_string fn t e) as [e1|] eqn:E; [|discriminate].
    intro H. eapply appends_trans; [apply (IHt _ _ E) | apply (IHt0 _ _ H)].
Qed.

(** X1: whatever the decision function and the tree, an emission leaves the
    source text of the emitter as it is and only appends to the text emitted
    so far; skipping a subtree appends nothing. *)
Theorem X1_emitter_only_appends (emit_fn : Tree -> Z) (t : Tree)
  (e e' : StringEmit) :
  (emit_string emit_fn t e = Some e' -> appends e e')
  /\ (skip e t = Some e' -> sref e' = sref e /\ sval e' = sval e)
  /\ appends e (emit_tokens t e).
Proof.
  split; [apply emit_string_appends|].
  split; [apply skip_keeps | apply emit_tokens_appends].
Qed.

Lemma X1_emitter_only_appends_witness :
  exists e',
    emit_string map_emit_fn (xparse sig_add) (new_emit (text sig_add))
    = Some e'
    /\ appends (new_emit (text sig_add)) e'.
Proof.
  eexists. split; [reflexivity|].
  exact (proj1 (X1_emitter_only_appends map_emit_fn (xparse sig_add)
                  (new_emit (text sig_add)) _) eq_refl).
Defined.

(** ** The rewritten signature *)

(** X2: on a signature of the grammar, [rewrite_signature] returns the text
    of the signature in which every type name has the name the table gives it
    (its own when the table has none) and no parameter has a default value,
    from the first token to the closing parenthesis, inner gaps kept. *)
Theorem X2_rewrite_signature_text (XP : str -> option Tree)
  (tmap : dict str) (sg : signature) :
  XP (text sg) = Some (xparse sg) ->
  rewrite_signature XP (text sg) tmap = Some (text (rw_sig tmap sg)).
Proof. apply rewrite_signature_closed. Qed.

Lemma X2_rewrite_signature_text_witness :
  rewrite_signature xparser_max_pool2d (text sig_max_pool2d) _TYPE_NSMAP
  = Some (s "at::Tensor max_pool2d(const at::Tensor & self, at::IntArrayRef kernel_size, at::IntArrayRef stride, at::IntArrayRef padding, at::IntArrayRef dilation, bool ceil_mode)").
Proof.
  exact (X2_rewrite_signature_text xparser_max_pool2d _TYPE_NSMAP
           sig_max_pool2d eq_refl).
Defined.

Lemma rw_idem_syntax tmap :
  settled tmap ->
  (forall t, rw_type tmap (rw_type tmap t) = rw_type tmap t)
  /\ (forall c, rw_core tmap (rw_core tmap c) = rw_core tmap c)
  /\ (forall l, rw_typelist tmap (rw_typelist tmap l) = rw_typelist tmap l).
Proof.
  intro Hm. apply syntax_ind.
  - intros cst core IH rs. cbn [rw_type]. rewrite IH. reflexivity.
  - intros g n. cbn [rw_core]. rewrite Hm. reflexivity.
  - intros g n glt args IH ggt. cbn [rw_core]. rewrite Hm, IH. reflexivity.
  - intros t IH. cbn [rw_typelist]. rewrite IH. reflexivity.
  - intros t IHt g r IHr. cbn [rw_typelist]. rewrite IHt, IHr. reflexivity.
Qed.

Lemma rw_strip_lead tmap t :
  rw_type tmap (strip_lead t) = strip_lead (rw_type tmap t).
Proof. destruct t as [[g|] [g' n | g' n glt args ggt] rs]; reflexivity. Qed.

Lemma strip_lead_idem t : strip_lead (strip_lead t) = strip_lead t.
Proof. destruct t as [[g|] [g' n | g' n glt args ggt] rs]; reflexivity. Qed.

Lemma rw_params_idem tmap ps :
  settled tmap -> rw_params tmap (rw_params tmap ps) = rw_params tmap ps.
Proof.
  intro Hm. induction ps as [p | p g r IH]; cbn [rw_params]; unfold rw_param;
    cbn [p_type p_gname p_name];
    rewrite (proj1 (rw_idem_syntax tmap Hm)); [reflexivity|].
  rewrite IH. reflexivity.
Qed.

Lemma rw_sig_idem tmap sg :
  settled tmap -> rw_sig tmap (rw_sig tmap sg) = rw_sig tmap sg.
Proof.
  intro Hm. unfold rw_sig.
  cbn [s_type s_gname s_name s_glpar s_params s_grpar].
  rewrite rw_strip_lead, (proj1 (rw_idem_syntax tmap Hm)), strip_lead_idem,
    (rw_params_idem tmap _ Hm).
  reflexivity.
Qed.

Lemma dict_get_In {V} (d : dict V) k v :
  dict_get d k = Some v -> In v (map snd d).
Proof.
  induction d as [|[k' v'] r IH]; [discriminate|]. cbn [dict_get map snd].
  destruct (str_eqb k k').
  - intros [= ->]. left. reflexivity.
  - intro H. right. exact (IH H).
Qed.

Lemma nsmap_settled : settled _TYPE_NSMAP.
Proof.
  intro n. unfold map_name at 2.
  destruct (dict_get _TYPE_NSMAP n) as [v|] eqn:E.
  - pose proof E as E'. apply dict_get_In in E.
    assert (H : Forall (fun v => map_name _TYPE_NSMAP v = v)
                  (map snd _TYPE_NSMAP))
      by (repeat constructor).
    rewrite Forall_forall in H. rewrite (H v E). unfold map_name.
    destruct (dict_get _TYPE_NSMAP n); congruence.
  - unfold map_name. rewrite E. reflexivity.
Qed.

(** X3: no name the namespace table maps to is itself a key of the table, so
    rewriting the namespaces of a rewritten signature changes nothing. *)
Theorem X3_namespace_rewrite_idempotent (XP : str -> option Tree)
  (sg : signature) :
  XP (text sg) = Some (xparse sg) ->
  XP (text (rw_sig _TYPE_NSMAP sg)) = Some (xparse (rw_sig _TYPE_NSMAP sg)) ->
  settled _TYPE_NSMAP
  /\ exists rwsig,
       rewrite_signature XP (text sg) _TYPE_NSMAP = Some rwsig
       /\ rewrite_signature XP rwsig _TYPE_NSMAP = Some rwsig.
Proof.
  intros H1 H2. split; [exact nsmap_settled|].
  exists (text (rw_sig _TYPE_NSMAP sg)).
  split; [exact (rewrite_signature_closed XP _ sg H1)|].
  rewrite (rewrite_signature_closed XP _ _ H2).
  rewrite (rw_sig_idem _ sg nsmap_settled). reflexivity.
Qed.

Lemma X3_namespace_rewrite_idempotent_witness :
  settled _TYPE_NSMAP
  /\ exists rwsig,
       rewrite_signature xparser_max_pool2d (text sig_max_pool2d) _TYPE_NSMAP
       = Some rwsig
       /\ rewrite_signature xparser_max_pool2d rwsig _TYPE_NSMAP = Some rwsig.
Proof.
  exact (X3_namespace_rewrite_idempotent xparser_max_pool2d sig_max_pool2d
           eq_refl eq_refl).
Defined.


(** ** The override table *)

Lemma key_idem a : get_mapsig_key (get_mapsig_key a) = get_mapsig_key a.
Proof.
  unfold get_mapsig_key. induction a as [|c a IH]; [reflexivity|].
  cbn [filter]. destruct (negb (Ascii.eqb c " "%char)) eqn:E; [|exact IH].
  cbn [filter]. rewrite E, IH. reflexivity.
Qed.

Lemma dict_set_In {V} (d : dict V) k v k' v' :
  In (k', v') (dict_set d k v) -> k' = k \/ In (k', v') d.
Proof.
  induction d as [|[k0 v0] r IH]; cbn [dict_set].
  - intros [[= <- <-] | []]. left. reflexivity.
  - destruct (str_eqb k k0) eqn:E.
    + apply str_eqb_spec in E. subst k0. intros [[= <- <-] | H].
      * left. reflexivity.
      * right. right. exact H.
    + intros [[= <- <-] | H].
      * right. left. reflexivity.
      * destruct (IH H) as [-> | H'];
          [left; reflexivity | right; right; exact H'].
Qed.

Lemma dict_set_keys {V} (d : dict V) k v :
  map fst (dict_set d k v)
  = if dict_has d k then map fst d else map fst d ++ [k].
Proof.
  unfold dict_has. induction d as [|[k0 v0] r IH]; [reflexivity|].
  cbn [dict_set dict_get]. destruct (str_eqb k k0); [reflexivity|].
  cbn [map fst]. rewrite IH. destruct (dict_get r k); reflexivity.
Qed.

Lemma dict_has_key {V} (d : dict V) k :
  In k (map fst d) -> dict_has d k = true.
Proof.
  intro H. apply in_map_iff in H as ([k' v] & E & H). cbn [fst] in E.
  subst k'. exact (dict_has_In d k v H).
Qed.

Lemma dict_set_nodup {V} (d : dict V) k v :
  NoDup (map fst d) -> NoDup (map fst (dict_set d k v)).
Proof.
  intro H. rewrite dict_set_keys. destruct (dict_has d k) eqn:E; [exact H|].
  apply NoDup_app; [exact H | repeat constructor; intros [] |].
  intros x Hx [<- | []]. apply dict_has_key in Hx. congruence.
Qed.

Lemma overrides_table_canonical XP fs : forall ov ov',
  overrides_table XP fs ov = Some ov' ->
  canonical_keys ov /\ NoDup (map fst ov) ->
  canonical_keys ov' /\ NoDup (map fst ov').
Proof.
  induction fs as [|f r IH]; intros ov ov' H Hc.
  - injection H as <-. exact Hc.
  - cbn [overrides_table] in H.
    destruct (is_tensor_api f) as [[|] fndef].
    + destruct (XP fndef) as [xtree|]; [|discriminate].
      destruct (create_map_sig xtree fndef) as [mapsig|]; [|discriminate].
      apply (IH _ _ H). destruct Hc as [Hc Hn]. split.
      * intros k v Hin.
        apply dict_set_In in Hin as [-> | Hin];
          [apply key_idem | exact (Hc k v Hin)].
      * apply dict_set_nodup. exact Hn.
    + exact (IH _ _ H Hc).
Qed.

(** X18: the keys of the table [parse_local_overrides] returns are
    canonical, that is, canonicalising a key again leaves it as it is, and no
    key is held twice. *)
Theorem X18_override_keys_canonical (XP : str -> option Tree)
  (lines : list str) (overrides : dict str) :
  parse_local_overrides XP lines = Some overrides ->
  canonical_keys overrides /\ NoDup (map fst overrides).
Proof.
  unfold parse_local_overrides.
  destruct (pending _); [discriminate|]. intro H.
  apply (overrides_table_canonical _ _ _ _ H). split.
  - intros k v [].
  - constructor.
Qed.

Lemma X18_override_keys_canonical_witness :
  parse_local_overrides xparser_cudnn [line_cudnn_override] = Some ov_cudnn
  /\ canonical_keys ov_cudnn /\ NoDup (map fst ov_cudnn).
Proof.
  split; [reflexivity|].
  exact (X18_override_keys_canonical xparser_cudnn [line_cudnn_override]
           ov_cudnn eq_refl).
Defined.

(** ** The declarations of the override file *)

Lemma lstrip_spaces ws x :
  forallb is_space ws = true -> lstrip (ws ++ x) = lstrip x.
Proof.
  induction ws as [|c ws IH]; [reflexivity|]. cbn [forallb app lstrip].
  intro H. apply andb_true_iff in H as [Hc Hw]. rewrite Hc. exact (IH Hw).
Qed.

Lemma lstrip_length y : (List.length (lstrip y) <= List.length y)%nat.
Proof.
  induction y as [|d y IH]; [reflexivity|]. cbn [lstrip].
  destruct (is_space d); cbn [List.length]; lia.
Qed.

Lemma lstrip_app a x : a <> [] -> lstrip a = a -> lstrip (a ++ x) = a ++ x.
Proof.
  destruct a as [|c a]; [congruence|]. intros _ Ha. cbn [app lstrip] in *.
  destruct (is_space c); [|reflexivity].
  exfalso. pose proof (lstrip_length a) as Hle. rewrite Ha in Hle.
  cbn [List.length] in Hle. lia.
Qed.

Lemma after_static_spec ws x :
  blank ws -> after_static (s "static" ++ ws ++ x) = Some (lstrip x).
Proof.
  intros [Hne Hw]. unfold after_static.
  change (is_prefix (s "static") (s "static" ++ ws ++ x)) with true.
  cbv iota. change (skipn 6 (s "static" ++ ws ++ x)) with (ws ++ x).
  destruct ws as [|c ws]; [congruence|]. cbn [app forallb] in *.
  apply andb_true_iff in Hw as [Hc Hw]. rewrite Hc.
  rewrite (lstrip_spaces ws x Hw). reflexivity.
Qed.

Lemma dot_star_line x : ~ In "010"%char x -> dot_star x = x.
Proof.
  induction x as [|c x IH]; [reflexivity|]. intro H. cbn [dot_star].
  destruct (Ascii.eqb c "010"%char) eqn:E.
  - apply Ascii.eqb_eq in E. exfalso. apply H. left. exact E.
  - f_equal. apply IH. intro Hin. apply H. right. exact Hin.
Qed.

Lemma upto_last_semi_end x : upto_last_semi (x ++ s ";") = Some x.
Proof.
  induction x as [|c x IH]; [reflexivity|]. cbn [app upto_last_semi].
  rewrite IH. reflexivity.
Qed.

Lemma upto_last_semi_none x : ~ In ";"%char x -> upto_last_semi x = None.
Proof.
  induction x as [|c x IH]; [reflexivity|]. intro H. cbn [upto_last_semi].
  rewrite IH by (intro Hin; apply H; right; exact Hin).
  destruct (Ascii.eqb c ";"%char) eqn:E; [|reflexivity].
  apply Ascii.eqb_eq in E. exfalso. apply H. left. exact E.
Qed.

Lemma ends_with_semi_end x : ends_with_semi (x ++ s ";") = true.
Proof. unfold ends_with_semi. rewrite rev_app_distr. reflexivity. Qed.

Lemma step_one_line st line ws a :
  truthy (pending st) = false -> blank ws -> on_one_line a ->
  strip line = s "static" ++ ws ++ a ++ s ";" ->
  overrides_step st line = mkPending (found st ++ [a]) (pending st).
Proof.
  intros Hp Hw [Ha Hnl] Hl. unfold overrides_step. rewrite Hp, Hl.
  cbn [negb]. unfold match_static_semi.
  rewrite (after_static_spec ws (a ++ s ";") Hw).
  assert (Hs : lstrip (a ++ s ";") = a ++ s ";").
  { destruct a as [|c a]; [reflexivity|].
    apply lstrip_app; [discriminate | exact Ha]. }
  rewrite Hs, dot_star_line.
  - rewrite upto_last_semi_end. reflexivity.
  - intro H. apply in_app_or in H as [H | [H | []]];
      [exact (Hnl H) | discriminate H].
Qed.

Lemma step_open st line ws a :
  truthy (pending st) = false -> blank ws -> on_one_line a ->
  ~ In ";"%char a ->
  strip line = s "static" ++ ws ++ a ->
  overrides_step st line = mkPending (found st) (Some a).
Proof.
  intros Hp Hw [Ha Hnl] Hsemi Hl. unfold overrides_step. rewrite Hp, Hl.
  cbn [negb]. unfold match_static_semi, match_static.
  rewrite (after_static_spec ws a Hw), Ha.
  rewrite (dot_star_line a Hnl), (upto_last_semi_none a Hsemi). reflexivity.
Qed.

Lemma step_close st line a b :
  a <> [] -> pending st = Some a -> strip line = b ++ s ";" ->
  overrides_step st line = mkPending (found st ++ [a ++ s " " ++ b]) None.
Proof.
  intros Ha Hp Hl. unfold overrides_step. rewrite Hp, Hl.
  destruct a as [|c a]; [congruence|]. cbn [truthy negb fmt].
  replace ((c :: a) ++ s " " ++ b ++ s ";")
    with (((c :: a) ++ s " " ++ b) ++ s ";")
    by (rewrite <- !app_assoc; reflexivity).
  rewrite ends_with_semi_end. change (s ";") with [";"%char].
  rewrite removelast_last. reflexivity.
Qed.

(** X21: in the first loop of [parse_local_overrides], while no declaration
    awaits its end, a stripped line [static DECL;] adds [DECL] to the
    declarations found; a stripped line [static HEAD] without semicolon
    followed by a line that ends in a semicolon adds the two, joined by one
    space, without the semicolon; and a file that ends on a line
    [static HEAD] without semicolon makes [parse_local_overrides] raise. *)
Theorem X21_declarations_joined (XP : str -> option Tree) (ws a : str) :
  blank ws -> on_one_line a ->
  (forall st line,
     truthy (pending st) = false ->
     strip line = s "static" ++ ws ++ a ++ s ";" ->
     overrides_step st line = mkPending (found st ++ [a]) (pending st))
  /\ (forall st l1 l2 b,
        truthy (pending st) = false -> a <> [] -> ~ In ";"%char a ->
        strip l1 = s "static" ++ ws ++ a ->
        strip l2 = b ++ s ";" ->
        overrides_step (overrides_step st l1) l2
        = mkPending (found st ++ [a ++ s " " ++ b]) None)
  /\ (forall lines line,
        settled_after lines -> a <> [] -> ~ In ";"%char a ->
        strip line = s "static" ++ ws ++ a ->
        parse_local_overrides XP (lines ++ [line]) = None).
Proof.
  intros Hw Ha. split; [|split].
  - intros st line Hp Hl. exact (step_one_line st line ws a Hp Hw Ha Hl).
  - intros st l1 l2 b Hp Hne Hsemi Hl1 Hl2.
    rewrite (step_open st l1 ws a Hp Hw Ha Hsemi Hl1).
    rewrite (step_close (mkPending (found st) (Some a)) l2 a b Hne eq_refl
               Hl2).
    reflexivity.
  - intros lines line Hp Hne Hsemi Hl. unfold parse_local_overrides.
    rewrite fold_left_app. cbn [fold_left].
    rewrite (step_open _ line ws a Hp Hw Ha Hsemi Hl). reflexivity.
Qed.

Lemma X21_declarations_joined_witness :
  overrides_step
    (overrides_step (mkPending [] None)
       (s "  static at::Tensor add(const at::Tensor& self," ++ nl))
    (s "      const at::Tensor& other);" ++ nl)
  = mkPending
      [s "at::Tensor add(const at::Tensor& self, const at::Tensor& other)"]
      None
  /\ parse_local_overrides xparser_cudnn
       ([line_cudnn_override]
        ++ [s "  static at::Tensor add(const at::Tensor& self," ++ nl])
     = None.
Proof.
  assert (Hw : blank (s " ")) by (split; [discriminate | reflexivity]).
  assert (Ha : on_one_line (s "at::Tensor add(const at::Tensor& self,")).
  { split; [reflexivity|]. vm_compute. intuition discriminate. }
  assert (Hs : ~ In ";"%char (s "at::Tensor add(const at::Tensor& self,"))
    by (vm_compute; intuition discriminate).
  destruct (X21_declarations_joined xparser_cudnn (s " ")
              (s "at::Tensor add(const at::Tensor& self,") Hw Ha)
    as (_ & H2 & H3).
  split.
  - exact (H2 (mkPending [] None)
             (s "  static at::Tensor add(const at::Tensor& self," ++ nl)
             (s "      const at::Tensor& other);" ++ nl)
             (s "const at::Tensor& other)") eq_refl
             ltac:(discriminate) Hs eq_refl eq_refl).
  - exact (H3 [line_cudnn_override]
             (s "  static at::Tensor add(const at::Tensor& self," ++ nl)
             eq_refl ltac:(discriminate) Hs eq_refl).
Defined.

(** ** The files of a run *)






(** ** The function type of a signature *)

Lemma lemit_agree tmap td nd1 nd2 (t : LTree) :
  (forall d, In d (node_names t) -> nd1 d = nd2 d) ->
  forall tr, lemit tmap td nd1 t tr = lemit tmap td nd2 t tr.
Proof.
  revert td nd1 nd2.
  induction t using LTree_rect' with
    (Q := fun ks => forall td nd1 nd2,
            (forall d, In d (flat_map node_names ks) -> nd1 d = nd2 d) ->
            forall tr, lemit_list tmap td nd1 ks tr
                       = lemit_list tmap td nd2 ks tr).
  - reflexivity.
  - intros td nd1 nd2 H tr. rewrite !lemit_node.
    rewrite <- (H d (or_introl eq_refl)).
    destruct (nd1 d <? 0); [reflexivity|].
    destruct (0 <? nd1 d); [reflexivity|].
    apply IHt. intros d' Hd. apply H. right. exact Hd.
  - reflexivity.
  - rename t into c. intros td nd1 nd2 H tr. cbn [lemit_list].
    rewrite (IHt td nd1 nd2).
    + destruct (lemit tmap td nd2 c tr) as [x tr1].
      rewrite (IHt0 td nd1 nd2); [reflexivity|].
      intros d Hd. apply H. cbn [flat_map]. apply in_or_app. right. exact Hd.
    + intros d Hd. apply H. cbn [flat_map]. apply in_or_app. left. exact Hd.
Qed.

Lemma names_syntax :
  (forall t, incl (node_names (lt_type t)) type_names)
  /\ (forall c, incl (node_names (lt_core c)) type_names)
  /\ (forall l, incl (node_names (lt_typelist l)) type_names).
Proof.
  apply syntax_ind.
  - intros cst core IH rs d Hd.
    change (lt_type (Ty cst core rs))
      with (LNode (s "type")
              (opt_list (option_map (fun g => lx "CONST" g (s "const")) cst)
               ++ [lt_core core] ++ opt_list (option_map lt_refspec rs)))
      in Hd.
    cbn [node_names] in Hd. destruct Hd as [<- | Hd]; [left; reflexivity|].
    rewrite flat_map_app in Hd. apply in_app_or in Hd as [Hd | Hd].
    { destruct cst; cbn in Hd; destruct Hd. }
    rewrite flat_map_app in Hd. apply in_app_or in Hd as [Hd | Hd].
    { cbn [flat_map] in Hd. rewrite app_nil_r in Hd. exact (IH d Hd). }
    destruct rs as [[g [|]]|]; cbn in Hd; intuition (subst; cbn; tauto).
  - intros g n d Hd. cbn in Hd. destruct Hd as [<- | []]. cbn. tauto.
  - intros g n glt args IH ggt d Hd.
    change (lt_core (CTemplate g n glt args ggt))
      with (LNode (s "core_type")
              [LNode (s "template")
                 [lx "TNAME" g n; lx "LESSTHAN" glt (s "<"); lt_typelist args;
                  lx "MORETHAN" ggt (s ">")]]) in Hd.
    cbn [node_names flat_map lx app] in Hd.
    destruct Hd as [<- | [<- | Hd]]; [cbn; tauto | cbn; tauto |].
    rewrite !app_nil_r in Hd. exact (IH d Hd).
  - intros t IH d Hd.
    change (lt_typelist (TLOne t)) with (LNode (s "typelist") [lt_type t])
      in Hd.
    cbn [node_names flat_map] in Hd. rewrite app_nil_r in Hd.
    destruct Hd as [<- | Hd]; [cbn; tauto | exact (IH d Hd)].
  - intros t IHt g r IHr d Hd.
    change (lt_typelist (TLCons t g r))
      with (LNode (s "typelist")
              [lt_type t; lx "COMMA" g (s ","); lt_typelist r]) in Hd.
    cbn [node_names flat_map lx app] in Hd. rewrite app_nil_r in Hd.
    destruct Hd as [<- | Hd]; [cbn; tauto|].
    apply in_app_or in Hd as [Hd | Hd]; [exact (IHt d Hd) | exact (IHr d Hd)].
Qed.

Lemma stdfunc_nd_type d : In d type_names -> stdfunc_nd d = zero d.
Proof.
  intro H. cbn in H.
  destruct H as [<- | [<- | [<- | [<- | [<- | []]]]]]; reflexivity.
Qed.

Lemma lemit_std_type t tr :
  lemit [] zero stdfunc_nd (lt_type t) tr
  = ((if tr then ltext (lt_type t) else body (lt_type t)), true).
Proof.
  rewrite (lemit_agree [] zero stdfunc_nd zero).
  - apply lemit_verbatim. apply solid_type.
  - intros d Hd. apply stdfunc_nd_type. exact (proj1 names_syntax t d Hd).
Qed.

Lemma lemit_std_defval d tr :
  lemit [] zero stdfunc_nd (lt_defval d) tr
  = ((if tr then ltext (lt_defval d) else body (lt_defval d)), true).
Proof.
  rewrite (lemit_agree [] zero stdfunc_nd zero).
  - apply lemit_verbatim. destruct d as [[geq gv] []]; reflexivity.
  - intros x Hx. destruct d as [[geq gv] v]. cbn in Hx.
    destruct Hx as [<- | [<- | Hx]]; [reflexivity | reflexivity |].
    destruct v; destruct Hx.
Qed.

Lemma lemit_std_param p tr :
  lemit [] zero stdfunc_nd (lt_param p) tr
  = ((if tr then ltext (lt_param (unnamed p))
      else body (lt_param (unnamed p))), true).
Proof.
  unfold lt_param, unnamed. cbn [p_type p_gname p_name p_defval].
  rewrite lemit_node. change (stdfunc_nd (s "param") <? 0) with false.
  change (0 <? stdfunc_nd (s "param")) with false. cbv iota.
  cbn [app lemit_list]. rewrite lemit_std_type.
  rewrite lemit_node. change (stdfunc_nd (s "param_name") <? 0) with true.
  cbv iota.
  destruct (type_is_node (p_type p)) as [ks Hk].
  destruct (p_defval p) as [d|]; cbn [option_map opt_list lemit_list].
  - rewrite lemit_std_defval. f_equal.
    destruct tr; rewrite ?Hk; cbn [ltext body flat_map lx l_gap l_text app];
      rewrite <- ?Hk, ?app_nil_r; try reflexivity.
    all: rewrite Hk; cbn [body]; destruct ks; rewrite ?app_nil_r; reflexivity.
  - f_equal.
    destruct tr; rewrite ?Hk; cbn [ltext body flat_map lx l_gap l_text app];
      rewrite <- ?Hk, ?app_nil_r; try reflexivity.
    all: rewrite Hk; cbn [body]; destruct ks; rewrite ?app_nil_r; reflexivity.
Qed.

Lemma lemit_std_params ps : forall tr,
  lemit [] zero stdfunc_nd (lt_params ps) tr
  = ((if tr then ltext (lt_params (unnamed_params ps))
      else body (lt_params (unnamed_params ps))), true).
Proof.
  induction ps as [p | p g r IH]; intro tr; cbn [lt_params unnamed_params];
    rewrite lemit_node; change (stdfunc_nd (s "params") <? 0) with false;
    change (0 <? stdfunc_nd (s "params")) with false; cbv iota;
    cbn [lemit_list]; fold (lt_param p); rewrite lemit_std_param.
  - f_equal. destruct tr; cbn [ltext body flat_map]; rewrite ?app_nil_r;
      reflexivity.
  - unfold lx at 1. cbn [lemit l_type l_gap].
    change (zero (s "COMMA") <? 0) with false. cbv iota.
    rewrite lval_nil. cbn [l_text]. rewrite IH. f_equal.
    destruct tr; cbn [ltext body flat_map lx l_gap l_text];
      rewrite ?app_nil_r; reflexivity.
Qed.

Lemma create_stdfunc_sig_text sg :
  create_stdfunc_sig (xparse sg) (text sg)
  = Some (body (lt_type (s_type sg)) ++ s "("
          ++ body (lt_params (unnamed_params (s_params sg))) ++ s ")").
Proof.
  rewrite create_stdfunc_sig_closed, lemit_std_type, lemit_std_params.
  reflexivity.
Qed.


Example stdfunc_of_max_pool2d :
  create_stdfunc_sig (xparse sig_max_pool2d_rw) (text sig_max_pool2d_rw)
  = Some (s "at::Tensor(const at::Tensor &, at::IntArrayRef, at::IntArrayRef, at::IntArrayRef, at::IntArrayRef, bool)").
Proof. reflexivity. Qed.

(** ** The policy tables *)

Lemma dict_get_pair {V} (d : dict V) k v :
  dict_get d k = Some v -> In (k, v) d.
Proof.
  induction d as [|[k' v'] r IH]; [discriminate|]. cbn [dict_get].
  destruct (str_eqb k k') eqn:E.
  - apply str_eqb_spec in E. subst k'. intros [= ->]. left. reflexivity.
  - intro H. right. exact (IH H).
Qed.

Lemma strip_out_sound x b : strip_out x = Some b -> x = b ++ s "_out".
Proof.
  unfold strip_out.
  destruct ((4 <=? List.length x)%nat
            && str_eqb (skipn (List.length x - 4) x) (s "_out")) eqn:E;
    [|discriminate].
  apply andb_true_iff in E as [_ E]. apply str_eqb_spec in E.
  intros [= <-]. rewrite <- E. symmetry. apply firstn_skipn.
Qed.

Lemma out_table_ok :
  Forall (fun kv => strip_out (fst kv) <> None
                    /\ outfn_template (snd kv) = None) _FN_OUT.
Proof.
  unfold _FN_OUT. cbn [map].
  repeat (constructor; [split; [vm_compute; discriminate | reflexivity]|]).
  constructor.
Qed.

Lemma remap_table_ok :
  Forall (fun kv => outfn_template (snd kv) = None
                    /\ truthy (outfn_name (snd kv)) = true) _FN_REMAP.
Proof.
  unfold _FN_REMAP.
  repeat (constructor; [split; reflexivity|]).
  constructor.
Qed.

(** X23: every function name of the table of out-variants ends in [_out]
    and comes with no template, so that the suffix stripped by
    [generate_aten_out] is always found for a function selected by its name;
    every entry of the remap table names a target and comes with no
    template, so that the assertion of [generate_aten_remap] holds for it. *)
Theorem X23_policy_tables (fname mapsig : str) (opts : FuncOpts) :
  (dict_get _FN_OUT fname = Some opts ->
   get_outfn_options fname mapsig = Some opts
   /\ outfn_template opts = None
   /\ exists base, fname = base ++ s "_out" /\ strip_out fname = Some base)
  /\ (get_remapfn_options fname mapsig = Some opts ->
      outfn_template opts = None /\ truthy (outfn_name opts) = true).
Proof.
  split.
  - intro H. split; [unfold get_outfn_options; rewrite H; reflexivity|].
    pose proof out_table_ok as Hall. rewrite Forall_forall in Hall.
    destruct (Hall _ (dict_get_pair _ _ _ H)) as [Hs Ht]. cbn [fst snd] in *.
    split; [exact Ht|].
    destruct (strip_out fname) as [base|] eqn:E; [|congruence].
    exists base. split; [apply strip_out_sound; exact E | reflexivity].
  - unfold get_remapfn_options. intro H.
    pose proof remap_table_ok as Hall. rewrite Forall_forall in Hall.
    destruct (dict_get _FN_REMAP fname) as [o|] eqn:E1.
    + injection H as <-. exact (Hall _ (dict_get_pair _ _ _ E1)).
    + cbn [or_else] in H. exact (Hall _ (dict_get_pair _ _ _ H)).
Qed.

Lemma X23_policy_tables_witness :
  get_outfn_options (s "topk_out") (s "m") = Some no_opts
  /\ outfn_template no_opts = None
  /\ exists base,
       s "topk_out" = base ++ s "_out"
       /\ strip_out (s "topk_out") = Some base.
Proof.
  exact (proj1 (X23_policy_tables (s "topk_out") (s "m") no_opts) eq_refl).
Defined.

(** ** The record of a signature of the grammar *)

(** X24: for a signature of the grammar that the parsers read,
    [get_xla_wrapper] fails only if the generator of the selected strategy
    does, and the strategy is selected in this order: no body for a
    blacklisted function, else the out-variant strategy when the table of
    out-variants has the name or the map signature, else the remap strategy
    when the remap table has one of them, else the default bridging.  The
    record holds the original text and its map signature, and the rewritten
    text, the C++ signature and the function type, the last three written
    from the namespace-rewritten signature. *)
Theorem X24_wrapper_record (P XP : str -> option Tree)
  (expand : str -> list str -> option str) (sg : signature) (aten : str)
  (d m : bool) (ctx : Context) :
  P (text sg) = Some (parse sg) ->
  XP (text sg) = Some (xparse sg) ->
  XP (text (rw_sig _TYPE_NSMAP sg)) = Some (xparse (rw_sig _TYPE_NSMAP sg)) ->
  get_xla_wrapper P XP expand (mkFuncDef (text sg) aten d m) ctx
  = (code <- wrapper_code expand ctx sg ;;
     Some (wrapper_record sg aten d m code)).
Proof.
  intros HP HX HR. unfold get_xla_wrapper, wrapper_code. cbn [fd_cpp_sig].
  rewrite HP, HX, create_map_sig_closed, (rewrite_signature_closed XP _ sg HX),
    HR.
  rewrite get_parameters_ptrees, get_function_signature_closed.
  change (s_name (rw_sig _TYPE_NSMAP sg)) with (s_name sg).
  fold (cppsig_of sg).
  rewrite create_stdfunc_sig_text. fold (funsig_of sg).
  destruct (is_blacklisted_fn (s_name sg) (map_sig_of sg)); cbn [negb];
    [reflexivity|].
  destruct (get_outfn_options (s_name sg) (map_sig_of sg)) as [o|].
  - destruct (generate_aten_out _ _ _ _ _ _ _ _); reflexivity.
  - destruct (get_remapfn_options (s_name sg) (map_sig_of sg)) as [r|].
    + destruct (generate_aten_remap _ _ _ _ _); reflexivity.
    + destruct (generate_aten_to_xla _ _ _ _ _ _ _ _); reflexivity.
Qed.

Lemma X24_wrapper_record_witness :
  get_xla_wrapper parser_max_pool2d xparser_max_pool2d no_template
    fndef_max_pool2d ctx_without_add
  = (code <- wrapper_code no_template ctx_without_add sig_max_pool2d ;;
     Some (wrapper_record sig_max_pool2d (fd_aten_sig fndef_max_pool2d) false
             false code)).
Proof.
  exact (X24_wrapper_record parser_max_pool2d xparser_max_pool2d no_template
           sig_max_pool2d (fd_aten_sig fndef_max_pool2d) false false
           ctx_without_add eq_refl eq_refl eq_refl).
Defined.
